(** * Block replication between object-storage buckets

    A shallow embedding of the replication engine of package [replicate]
    (the block filter, the replication pass [execute], the block transfer
    [ensureBlockIsReplicated], the object transfer [ensureObjectReplicated]
    and the metadata adapter [loadMeta]), with the properties of its
    specification stated and proved over it.

    Stateful Go code is written in a small state monad over [World]: the
    destination bucket, the metrics counters and a script of outcomes for
    the fallible calls on external collaborators (a cancelled context is
    one more way for such a call to fail).  Every call on a bucket or on
    the metadata fetcher and every log record is also reported as an
    [Event], so that statements can speak about what a call did.

    The two buckets, the metadata fetcher and [thanosblock.IsBlockDir] are
    not among the sources; they are modelled at their interface.  Closing a
    stream is not modelled.

    The development goes on with packages prober and receive (the status of
    a component behind two probe endpoints, and the remote-write handler
    that serves once the component is ready), embedded in a second monad
    over the prober. *)

From Stdlib Require Import ZArith NArith Ascii String List Permutation Sorted Lia.
From stdpp Require Import base option list gmap sets strings sorting.


(** ** Data model *)

(** [ulid.ULID] is a 128-bit identifier ([16]byte), read as a number. *)
Definition ULID : Type := N.

(** Object contents are Go byte slices. *)
Definition bytes : Type := list Byte.byte.

#[global] Instance byte_eq_dec : EqDecision Byte.byte := Byte.byte_eq_dec.

(** [tsdb.BlockMeta], the fields the package reads. *)
Record BlockMeta : Type := mkBlockMeta {
  bm_ULID : ULID;
  MinTime : Z;
  MaxTime : Z;
  Compaction_Level : Z
}.

(** [metadata.Thanos]: external labels and downsampling resolution. *)
Record ThanosMeta : Type := mkThanos {
  Labels : gmap string string;
  Downsample_Resolution : Z
}.

(** [metadata.Meta]. *)
Record Meta : Type := mkMeta {
  Meta_BlockMeta : BlockMeta;
  Meta_Thanos : ThanosMeta
}.

(** ** Errors

    A Go [error] value is [option error] ([nil] is [None]).  The sentinel
    values the package compares against are constructors; [withMessage]
    is what [errors.Wrap] builds. *)
Inductive error : Type :=
| errNotFound                       (* objstore: the object does not exist *)
| io_EOF                            (* io.EOF *)
| ErrorSyncMetaNotFound             (* thanosblock.ErrorSyncMetaNotFound *)
| errOther (msg : string)           (* any other failure *)
| withMessage (cause : error) (msg : string).

#[global] Instance error_eq_dec : EqDecision error.
Proof. solve_decision. Defined.

(** [errors.Cause]: the innermost error of a chain of wraps. *)
Fixpoint Cause (e : error) : error :=
  match e with
  | withMessage c _ => Cause c
  | _ => e
  end.

(** [errors.Wrap] and [errors.Wrapf]: wrapping [nil] gives [nil]. *)
Definition Wrap (err : option error) (msg : string) : option error :=
  match err with
  | None => None
  | Some e => Some (withMessage e msg)
  end.

(** ** Events *)

Inductive Level : Type := levelDebug | levelInfo | levelError.

#[global] Instance Level_eq_dec : EqDecision Level.
Proof. solve_decision. Defined.

(** A log record keeps its level, its message and the one identifying
    key/value of the call (block_uuid, object or reason). *)
Inductive Event : Type :=
| Log (lvl : Level) (msg : string) (key : string) (val : string)
| FromIter (dir : string)           (* fromBkt.Iter *)
| FromGet (name : string)           (* fromBkt.Get *)
| FetchMetas                        (* fetcher.Fetch *)
| ToGet (name : string)             (* toBkt.Get *)
| ToExists (name : string)          (* toBkt.Exists *)
| ToUpload (name : string).         (* toBkt.Upload *)

#[global] Instance Event_eq_dec : EqDecision Event.
Proof. solve_decision. Defined.

(** ** Metrics *)

Record replicationMetrics : Type := mkMetrics {
  originIterations : nat;
  originMetaLoads : nat;
  originPartialMeta : nat;
  blocksAlreadyReplicated : nat;
  blocksReplicated : nat;
  objectsReplicated : nat
}.

Definition newReplicationMetrics : replicationMetrics :=
  mkMetrics 0 0 0 0 0 0.

(** ** The world a pass runs in *)

(** What a pass can change: the destination bucket [toBkt], the counters,
    and the script [faults] of the outcomes that the next fallible calls on
    the buckets and on the fetcher will have ([Some e]: the call fails with
    [e]; [None] or an exhausted script: the call goes through). *)
Record World : Type := mkWorld {
  toBkt : gmap string bytes;
  metrics : replicationMetrics;
  faults : list (option error)
}.

(** The result of running a computation: its value, the world after it and
    the events it produced, oldest first. *)
Record Out (A : Type) : Type := mkOut {
  res : A;
  post : World;
  evts : list Event
}.
Arguments mkOut {A} _ _ _.
Arguments res {A} _.
Arguments post {A} _.
Arguments evts {A} _.

Definition M (A : Type) : Type := World → Out A.

Definition ret {A} (a : A) : M A := fun w => mkOut a w [].

Definition bind {A B} (m : M A) (f : A → M B) : M B :=
  fun w =>
    let o1 := m w in
    let o2 := f (res o1) (post o1) in
    mkOut (res o2) (post o2) (evts o1 ++ evts o2).

Declare Scope go_scope.
Notation "'let*' x ':=' m 'in' k" := (bind m (fun x => k))
  (at level 10, x pattern, m at level 100, k at level 200) : go_scope.
Notation "m ';;' k" := (bind m (fun _ => k))
  (at level 100, k at level 200, right associativity) : go_scope.
Open Scope go_scope.

Definition emit (e : Event) : M unit := fun w => mkOut tt w [e].

(** Take the outcome of the next fallible external call off the script. *)
Definition nextFault (w : World) : option error :=
  match faults w with
  | [] => None
  | f :: _ => f
  end.

Definition advance (w : World) : World :=
  mkWorld (toBkt w) (metrics w) (tail (faults w)).

Definition consult : M (option error) :=
  fun w => mkOut (nextFault w) (advance w) [].

Definition getToBkt : M (gmap string bytes) := fun w => mkOut (toBkt w) w [].

Definition putObject (name : string) (c : bytes) : M unit :=
  fun w => mkOut tt (mkWorld (<[name := c]> (toBkt w)) (metrics w) (faults w)) [].

Definition updMetrics (f : replicationMetrics → replicationMetrics) : M unit :=
  fun w => mkOut tt (mkWorld (toBkt w) (f (metrics w)) (faults w)) [].

(** [Counter.Inc] on each of the six counters. *)
Definition iterationsInc (m : replicationMetrics) : replicationMetrics :=
  mkMetrics (S (originIterations m)) (originMetaLoads m) (originPartialMeta m)
    (blocksAlreadyReplicated m) (blocksReplicated m) (objectsReplicated m).
Definition metaLoadsInc (m : replicationMetrics) : replicationMetrics :=
  mkMetrics (originIterations m) (S (originMetaLoads m)) (originPartialMeta m)
    (blocksAlreadyReplicated m) (blocksReplicated m) (objectsReplicated m).
Definition partialMetaInc (m : replicationMetrics) : replicationMetrics :=
  mkMetrics (originIterations m) (originMetaLoads m) (S (originPartialMeta m))
    (blocksAlreadyReplicated m) (blocksReplicated m) (objectsReplicated m).
Definition alreadyInc (m : replicationMetrics) : replicationMetrics :=
  mkMetrics (originIterations m) (originMetaLoads m) (originPartialMeta m)
    (S (blocksAlreadyReplicated m)) (blocksReplicated m) (objectsReplicated m).
Definition replicatedInc (m : replicationMetrics) : replicationMetrics :=
  mkMetrics (originIterations m) (originMetaLoads m) (originPartialMeta m)
    (blocksAlreadyReplicated m) (S (blocksReplicated m)) (objectsReplicated m).
Definition objInc (m : replicationMetrics) : replicationMetrics :=
  mkMetrics (originIterations m) (originMetaLoads m) (originPartialMeta m)
    (blocksAlreadyReplicated m) (blocksReplicated m) (S (objectsReplicated m)).

Definition originIterations_Inc : M unit := updMetrics iterationsInc.
Definition originMetaLoads_Inc : M unit := updMetrics metaLoadsInc.
Definition originPartialMeta_Inc : M unit := updMetrics partialMetaInc.
Definition blocksAlreadyReplicated_Inc : M unit := updMetrics alreadyInc.
Definition blocksReplicated_Inc : M unit := updMetrics replicatedInc.
Definition objectsReplicated_Inc : M unit := updMetrics objInc.

Definition logf (lvl : Level) (msg key val : string) : M unit :=
  emit (Log lvl msg key val).

(** ** External collaborators *)

(** Modelled from the spec: the file names of a block, constants of package
    block that the sources use but do not declare (a `chunks/` collection,
    one `index` file and one `meta.json` descriptor). *)
Definition ChunksDirname : string := "chunks".
Definition IndexFilename : string := "index".
Definition MetaFilename : string := "meta.json".

(** [path.Join] of two clean, non-empty elements. *)
Definition path_Join (a b : string) : string := a +:+ "/" +:+ b.

(** [ULID.String]: 26 digits in Crockford's base 32, most significant
    first; the first digit holds the top three bits. *)
Definition crockford : list ascii :=
  list_ascii_of_string "0123456789ABCDEFGHJKMNPQRSTVWXYZ".

Definition encodeDigit (d : N) : ascii :=
  nth (N.to_nat d) crockford "0"%char.

Definition ULID_String (id : ULID) : string :=
  string_of_list_ascii
    (map (fun i : nat =>
            encodeDigit (N.land (N.shiftr id (5 * N.of_nat (25 - i))) 31)%N)
         (seq 0 26)).

(** A stream handed out by a bucket ([io.ReadCloser]); [None] is the nil
    reader. *)
Definition Reader : Type := option bytes.

(** Modelled from the spec: the source bucket, read-only for a pass:
    `iterate(prefix, visit)` and `get(path)`.  [entries dir] lists the
    entries directly under [dir], relative to it, in the order the bucket
    reports them; [objects] maps a full path to its bytes. *)
Record BucketReader : Type := mkBucketReader {
  entries : string → list string;
  objects : gmap string bytes
}.

(** [blockFilterFunc]. *)
Definition blockFilterFunc : Type := Meta → bool.

(** [replicationScheme]: the parts a pass never changes.  The destination
    bucket and the metrics the Go struct points to live in [World];
    [fetcher] is the mapping the metadata fetcher returns when its fetch
    goes through. *)
Record replicationScheme : Type := mkScheme {
  fromBkt : BucketReader;
  blockFilter : blockFilterFunc;
  fetcher : gmap ULID Meta
}.

(** [newReplicationScheme]; the logger, the metrics, the target bucket and
    the registerer it also stores are not part of [replicationScheme]. *)
Definition newReplicationScheme (blockFilter : blockFilterFunc)
    (fetcher : gmap ULID Meta) (from : BucketReader) : replicationScheme :=
  mkScheme from blockFilter fetcher.

(** Modelled from the spec: the not-found classifier of a bucket
    ([IsObjNotFoundErr]); [nil] is not a not-found error. *)
Definition IsObjNotFoundErr (err : option error) : bool :=
  match err with
  | Some e => bool_decide (Cause e = errNotFound)
  | None => false
  end.

(** The full name of an entry of [dir], as [Iter] hands it to its visitor. *)
Definition entryName (dir e : string) : string :=
  match dir with
  | "" => e
  | _ => dir +:+ "/" +:+ e
  end.

(** The visits of [Iter]: the listing can fail before any entry; the first
    visit that returns an error ends the iteration with that error.  The
    accumulator [acc] stands for the variables the Go closure captures. *)
Fixpoint visitEntries {A} (f : string → A → M (option error * A))
    (names : list string) (acc : A) : M (option error * A) :=
  match names with
  | [] => ret (None, acc)
  | n :: rest =>
      let* fl := consult in
      match fl with
      | Some e => ret (Some e, acc)
      | None =>
          let* r := f n acc in
          match fst r with
          | Some e => ret (Some e, snd r)
          | None => visitEntries f rest (snd r)
          end
      end
  end.

(** Modelled from the spec: [fromBkt.Iter]. *)
Definition fromBkt_Iter {A} (rs : replicationScheme) (dir : string)
    (f : string → A → M (option error * A)) (acc : A)
    : M (option error * A) :=
  emit (FromIter dir);;
  let* r := visitEntries f (map (entryName dir) (entries (fromBkt rs) dir)) acc in
  match fst r with
  | Some e => ret (Some e, snd r)
  | None => let* fl := consult in ret (fl, snd r)
  end.

(** Modelled from the spec: [fromBkt.Get]. *)
Definition fromBkt_Get (rs : replicationScheme) (name : string)
    : M (Reader * option error) :=
  emit (FromGet name);;
  let* fl := consult in
  match fl with
  | Some e => ret (None, Some e)
  | None =>
      match objects (fromBkt rs) !! name with
      | Some c => ret (Some c, None)
      | None => ret (None, Some errNotFound)
      end
  end.

(** Modelled from the spec: [toBkt.Get]. *)
Definition toBkt_Get (name : string) : M (Reader * option error) :=
  emit (ToGet name);;
  let* fl := consult in
  match fl with
  | Some e => ret (None, Some e)
  | None =>
      let* bkt := getToBkt in
      match bkt !! name with
      | Some c => ret (Some c, None)
      | None => ret (None, Some errNotFound)
      end
  end.

(** Modelled from the spec: [toBkt.Exists]. *)
Definition toBkt_Exists (name : string) : M (bool * option error) :=
  emit (ToExists name);;
  let* fl := consult in
  match fl with
  | Some e => ret (false, Some e)
  | None =>
      let* bkt := getToBkt in
      ret (bool_decide (is_Some (bkt !! name)), None)
  end.

(** Modelled from the spec: [toBkt.Upload]; an upload that fails leaves the
    bucket as it was, one that goes through puts the bytes of the stream
    under [name], replacing what was there. *)
Definition toBkt_Upload (name : string) (r : Reader) : M (option error) :=
  emit (ToUpload name);;
  match r with
  | None => ret (Some (errOther "nil Reader"))
  | Some c =>
      let* fl := consult in
      match fl with
      | Some e => ret (Some e)
      | None => putObject name c;; ret None
      end
  end.

(** [ioutil.ReadAll] on a stream of a bucket. *)
Definition ioutil_ReadAll (r : Reader) : M (bytes * option error) :=
  match r with
  | None => ret ([], Some (errOther "nil Reader"))
  | Some c =>
      let* fl := consult in
      match fl with
      | Some e => ret ([], Some e)
      | None => ret (c, None)
      end
  end.

(** Modelled from the spec: [fetcher.Fetch], `fetch() -> (mapping of id →
    descriptor, syncState, error)`. *)
Definition fetcher_Fetch (rs : replicationScheme)
    : M (gmap ULID Meta * option error) :=
  emit FetchMetas;;
  let* fl := consult in
  match fl with
  | Some e => ret (∅, Some e)
  | None => ret (fetcher rs, None)
  end.

(** [sort.Slice].  Package sort is not among the sources, and the order
    it gives to elements that compare equal is not specified: the sort is
    not stable.  On keys that are pairwise distinct every sorting
    algorithm gives the same result, that of the straight insertion below
    (see [sort_Slice_unique]); on equal keys the insertion keeps the order
    of the input, which Go need not do.  What is proved about the order of
    a pass is therefore proved for candidates of pairwise distinct
    minTime, or of the loop on a list in any order; the other properties
    of a pass are stated in a form that does not depend on the order. *)
Fixpoint insertSorted {A} (less : A → A → bool) (x : A) (l : list A) : list A :=
  match l with
  | [] => [x]
  | y :: l' => if less x y then x :: y :: l' else y :: insertSorted less x l'
  end.

Definition sort_Slice {A} (less : A → A → bool) (l : list A) : list A :=
  foldl (fun acc x => insertSorted less x acc) [] l.

(** ** Label selectors (package labels) *)

Inductive MatchType : Type :=
| MatchEqual | MatchNotEqual | MatchRegexp | MatchNotRegexp.

(** [labels.Matcher]; [m_re] is the compiled regular expression of a
    regexp matcher, as its test on a whole value. *)
Record Matcher : Type := mkMatcher {
  m_Type : MatchType;
  m_Name : string;
  m_Value : string;
  m_re : string → bool
}.

Definition Matcher_Matches (m : Matcher) (s : string) : bool :=
  match m_Type m with
  | MatchEqual => bool_decide (s = m_Value m)
  | MatchNotEqual => negb (bool_decide (s = m_Value m))
  | MatchRegexp => m_re m s
  | MatchNotRegexp => negb (m_re m s)
  end.

(** [labels.Labels], [labels.FromMap] and [Labels.Get]: a label that is
    not set reads as the empty string. *)
Definition labels_FromMap (m : gmap string string) : list (string * string) :=
  map_to_list m.

Definition labels_Get (ls : list (string * string)) (name : string) : string :=
  match find (fun l => bool_decide (fst l = name)) ls with
  | Some l => snd l
  | None => ""
  end.

(** [labels.Selector.Matches]: every matcher accepts the value of its
    label. *)
Fixpoint Selector_Matches (s : list Matcher) (ls : list (string * string)) : bool :=
  match s with
  | [] => true
  | m :: s' =>
      if negb (Matcher_Matches m (labels_Get ls (m_Name m))) then false
      else Selector_Matches s' ls
  end.

(** ** The block filter *)

Record BlockFilter : Type := mkBlockFilter {
  labelSelector : list Matcher;
  resolutionLevels : gset Z;
  compactionLevels : gset Z
}.

Definition NewBlockFilter (labelSelector : list Matcher)
    (resolutionLevels compactionLevels : list Z) : BlockFilter :=
  mkBlockFilter labelSelector (list_to_set resolutionLevels)
    (list_to_set compactionLevels).

(** [BlockFilter.Filter]: the verdict, and the records it writes to the
    filter's own logger. *)
Definition Filter (bf : BlockFilter) (b : Meta) : bool * list Event :=
  if bool_decide (size (Labels (Meta_Thanos b)) = 0%nat) then
    (false, [Log levelError "filtering block" "reason" "labels should not be empty"])
  else
    let blockLabels := labels_FromMap (Labels (Meta_Thanos b)) in
    let labelMatch := Selector_Matches (labelSelector bf) blockLabels in
    if negb labelMatch then
      (false, [Log levelDebug "filtering block" "reason" "labels don't match"])
    else
      let gotResolution := Downsample_Resolution (Meta_Thanos b) in
      if negb (bool_decide (gotResolution ∈ resolutionLevels bf)) then
        (false, [Log levelDebug "filtering block" "reason"
                   "resolution doesn't match allowed resolutions"])
      else
        let gotCompactionLevel := Compaction_Level (Meta_BlockMeta b) in
        if negb (bool_decide (gotCompactionLevel ∈ compactionLevels bf)) then
          (false, [Log levelDebug "filtering block" "reason"
                     "compaction level doesn't match allowed levels"])
        else (true, []).

(** ** Object transfer, block transfer *)

(** [ensureObjectReplicated]. *)
Definition ensureObjectReplicated (rs : replicationScheme) (objectName : string)
    : M (option error) :=
  logf levelDebug "ensuring object is replicated" "object" objectName;;
  let* r := toBkt_Exists objectName in
  let exists_ := fst r in
  let err := snd r in
  match err with
  | Some _ =>
      ret (Wrap err ("check if " +:+ objectName +:+ " exists in target bucket"))
  | None =>
      (* skip if already exists. *)
      if exists_ then
        logf levelDebug "skipping object as already replicated" "object" objectName;;
        ret None
      else
        logf levelDebug "object not present in target bucket, replicating"
          "object" objectName;;
        let* g := fromBkt_Get rs objectName in
        let r := fst g in
        let err := snd g in
        match err with
        | Some _ => ret (Wrap err ("get " +:+ objectName +:+ " from origin bucket"))
        | None =>
            let* err := toBkt_Upload objectName r in
            match err with
            | Some _ =>
                ret (Wrap err ("upload " +:+ objectName +:+ " to target bucket"))
            | None =>
                logf levelInfo "object replicated" "object" objectName;;
                objectsReplicated_Inc;;
                ret None
            end
        end
  end.

(** The visitor that [ensureBlockIsReplicated] passes to [Iter] over the
    chunks directory. *)
Definition replicateChunk (rs : replicationScheme) (objectName : string)
    (_ : unit) : M (option error * unit) :=
  let* err := ensureObjectReplicated rs objectName in
  match err with
  | Some _ => ret (Wrap err ("replicate object " +:+ objectName), tt)
  | None => ret (None, tt)
  end.

(** The statements of [ensureBlockIsReplicated] that follow the comparison
    of the two meta files: every object under the chunks directory, then
    the index file, then the upload of the meta file read from the origin. *)
Definition transferAndCommit (rs : replicationScheme) (id : ULID)
    (originMetaFileContent : bytes) : M (option error) :=
  let blockID := ULID_String id in
  let chunksDir := path_Join blockID ChunksDirname in
  let indexFile := path_Join blockID IndexFilename in
  let metaFile := path_Join blockID MetaFilename in
  let* it := fromBkt_Iter rs chunksDir (replicateChunk rs) tt in
  match fst it with
  | Some e => ret (Some e)
  | None =>
  let* err := ensureObjectReplicated rs indexFile in
  match err with
  | Some _ => ret (Wrap err "replicate index file")
  | None =>
  logf levelDebug "replicating meta file" "object" metaFile;;
  let* err := toBkt_Upload metaFile (Some originMetaFileContent) in
  match err with
  | Some _ => ret (Wrap err "upload meta file")
  | None =>
  blocksReplicated_Inc;;
  ret None
  end end end.

(** [ensureBlockIsReplicated]. *)
Definition ensureBlockIsReplicated (rs : replicationScheme) (id : ULID)
    : M (option error) :=
  let blockID := ULID_String id in
  let metaFile := path_Join blockID MetaFilename in
  logf levelDebug "ensuring block is replicated" "block_uuid" blockID;;
  let* g := fromBkt_Get rs metaFile in
  let originMetaFile := fst g in
  let err := snd g in
  match err with
  | Some _ => ret (Wrap err "get meta file from origin bucket")
  | None =>
  let* g := toBkt_Get metaFile in
  let targetMetaFile := fst g in
  let err := snd g in
  if bool_decide (err ≠ None) && negb (IsObjNotFoundErr err)
     && bool_decide (err ≠ Some io_EOF)
  then ret (Wrap err "get meta file from target bucket")
  else
  let* g := ioutil_ReadAll originMetaFile in
  let originMetaFileContent := fst g in
  let err := snd g in
  match err with
  | Some _ => ret (Wrap err "read origin meta file")
  | None =>
  if bool_decide (targetMetaFile ≠ None) && negb (IsObjNotFoundErr err) then
    let* g := ioutil_ReadAll targetMetaFile in
    let targetMetaFileContent := fst g in
    let err := snd g in
    match err with
    | Some _ => ret (Wrap err "read target meta file")
    | None =>
        if bool_decide (originMetaFileContent = targetMetaFileContent) then
          (* already successfully replicated previously *)
          logf levelDebug "skipping block as already replicated" "block_uuid" blockID;;
          blocksAlreadyReplicated_Inc;;
          ret None
        else transferAndCommit rs id originMetaFileContent
    end
  else transferAndCommit rs id originMetaFileContent
  end end.

(** ** Metadata adapter *)

(** [loadMeta]: the meta, whether it is missing or partial, and the error. *)
Definition loadMeta (rs : replicationScheme) (id : ULID)
    : M (option Meta * bool * option error) :=
  let* f := fetcher_Fetch rs in
  let metas := fst f in
  let err := snd f in
  match err with
  | Some e =>
      if bool_decide (Cause e = ErrorSyncMetaNotFound)
      then ret (None, true, Wrap err "fetch meta")
      else ret (None, false, Wrap err "fetch meta")
  | None =>
      match metas !! id with
      | None => ret (None, true, Wrap err "fetch meta")
      | Some m => ret (Some m, false, None)
      end
  end.

(** ** The replication pass *)

Section Pass.

(** [thanosblock.IsBlockDir]: whether an entry of the bucket is a block
    directory, and of which block.  Package block is not among the
    sources; the pass is modelled for any such test. *)
Variable IsBlockDir : string → option ULID.

(** The visitor that [execute] passes to [Iter] over the origin bucket;
    [availableBlocks] is the slice the Go closure appends to. *)
Definition collectBlock (rs : replicationScheme) (name : string)
    (availableBlocks : list Meta) : M (option error * list Meta) :=
  originIterations_Inc;;
  match IsBlockDir name with
  | None => ret (None, availableBlocks)
  | Some id =>
      originMetaLoads_Inc;;
      let* lm := loadMeta rs id in
      let meta := fst (fst lm) in
      let metaNonExistentOrPartial := snd (fst lm) in
      let err := snd lm in
      if metaNonExistentOrPartial then
        (* a block may be partially present, but no meta.json yet: skip *)
        originPartialMeta_Inc;;
        logf levelInfo "block meta not uploaded yet. Skipping." "block_uuid"
          (ULID_String id);;
        ret (None, availableBlocks)
      else
        match err with
        | Some _ =>
            ret (Wrap err ("load meta for block " +:+ ULID_String id
                           +:+ " from origin bucket"), availableBlocks)
        | None =>
            match meta with
            | None =>
                (* a nil meta would be dereferenced here; [loadMeta] never
                   returns one without an error or the partial flag *)
                ret (Some (errOther "nil pointer dereference"), availableBlocks)
            | Some meta =>
                if bool_decide (size (Labels (Meta_Thanos meta)) = 0%nat) then
                  logf levelInfo
                    "block meta without Thanos external labels set. This is not allowed. Skipping."
                    "block_uuid" (ULID_String id);;
                  ret (None, availableBlocks)
                else
                  logf levelDebug "adding block to available blocks" "block_uuid"
                    (ULID_String id);;
                  ret (None, availableBlocks ++ [meta])
            end
        end
  end.

(** The loop of [execute] that keeps the blocks the filter accepts. *)
Fixpoint selectCandidates (rs : replicationScheme) (availableBlocks : list Meta)
    (candidateBlocks : list Meta) : M (list Meta) :=
  match availableBlocks with
  | [] => ret candidateBlocks
  | b :: rest =>
      if blockFilter rs b then
        logf levelDebug "adding block to candidate blocks" "block_uuid"
          (ULID_String (bm_ULID (Meta_BlockMeta b)));;
        selectCandidates rs rest (candidateBlocks ++ [b])
      else selectCandidates rs rest candidateBlocks
  end.

(** The order [execute] sorts the candidates by. *)
Definition lessMinTime (a b : Meta) : bool :=
  (MinTime (Meta_BlockMeta a) <? MinTime (Meta_BlockMeta b))%Z.

(** The loop of [execute] over the sorted candidates. *)
Fixpoint replicateBlocks (rs : replicationScheme) (candidateBlocks : list Meta)
    : M (option error) :=
  match candidateBlocks with
  | [] => ret None
  | b :: rest =>
      let* err := ensureBlockIsReplicated rs (bm_ULID (Meta_BlockMeta b)) in
      match err with
      | Some _ =>
          ret (Wrap err ("ensure block "
                         +:+ ULID_String (bm_ULID (Meta_BlockMeta b))
                         +:+ " is replicated"))
      | None => replicateBlocks rs rest
      end
  end.

(** [execute]. *)
Definition execute (rs : replicationScheme) : M (option error) :=
  logf levelDebug "scanning blocks available blocks for replication" "" "";;
  let* it := fromBkt_Iter rs "" (collectBlock rs) [] in
  let availableBlocks := snd it in
  match fst it with
  | Some e => ret (Wrap (Some e) "iterate over origin bucket")
  | None =>
      let* candidateBlocks := selectCandidates rs availableBlocks [] in
      (* replicate oldest start timestamp first *)
      let candidateBlocks := sort_Slice lessMinTime candidateBlocks in
      replicateBlocks rs candidateBlocks
  end.

End Pass.

(** ** Observations on a run *)

(** The paths of a block. *)
Definition metaFileOf (id : ULID) : string := path_Join (ULID_String id) MetaFilename.
Definition indexFileOf (id : ULID) : string := path_Join (ULID_String id) IndexFilename.
Definition chunksDirOf (id : ULID) : string := path_Join (ULID_String id) ChunksDirname.

(** The block transfers of a run, in order: the blocks for which
    [ensureBlockIsReplicated] wrote its opening record. *)
Definition blockStart (e : Event) : option string :=
  match e with
  | Log _ msg _ v =>
      if bool_decide (msg = "ensuring block is replicated") then Some v else None
  | _ => None
  end.

Definition blockTransfers (evs : list Event) : list string := omap blockStart evs.

(** The object transfers of a run: started is the opening record of
    [ensureObjectReplicated], completed one of its two closing records. *)
Definition isObjectStart (e : Event) : bool :=
  match e with
  | Log _ msg _ _ => bool_decide (msg = "ensuring object is replicated")
  | _ => false
  end.

Definition isObjectDone (e : Event) : bool :=
  match e with
  | Log _ msg _ _ =>
      bool_decide (msg = "skipping object as already replicated")
      || bool_decide (msg = "object replicated")
  | _ => false
  end.

Definition transfersStarted (evs : list Event) : nat :=
  length (List.filter isObjectStart evs).
Definition transfersCompleted (evs : list Event) : nat :=
  length (List.filter isObjectDone evs).

(** The calls of a run on the destination bucket and on the source bucket. *)
Definition isUpload (e : Event) : bool :=
  match e with ToUpload _ => true | _ => false end.

Definition isToBktCall (e : Event) : bool :=
  match e with ToGet _ | ToExists _ | ToUpload _ => true | _ => false end.

Definition isFromBktCall (e : Event) : bool :=
  match e with FromIter _ | FromGet _ => true | _ => false end.

Definition uploads (evs : list Event) : list Event := List.filter isUpload evs.
Definition toBktCalls (evs : list Event) : list Event := List.filter isToBktCall evs.
Definition fromBktCalls (evs : list Event) : list Event := List.filter isFromBktCall evs.

(** The first [n] fallible calls go through. *)
Definition noFaults (n : nat) (w : World) : Prop :=
  Forall (fun f => f = None) (take n (faults w)).

(** The destination holds at [p] the bytes the source holds at [p]. *)
Definition agrees (rs : replicationScheme) (p : string) (w : World) : Prop :=
  ∃ c, toBkt w !! p = Some c ∧ objects (fromBkt rs) !! p = Some c.

(** What a pass may do to the destination: an object that is there stays,
    with its bytes, or, if it is the meta file of a block, with the bytes
    the source has for it. *)
Definition keepsObjects (rs : replicationScheme) (w w' : World) : Prop :=
  ∀ p c, toBkt w !! p = Some c →
    toBkt w' !! p = Some c
    ∨ ((∃ id, p = metaFileOf id) ∧ agrees rs p w').

(** The opening record of the transfer of a block. *)
Definition blockStartLog (id : ULID) : Event :=
  Log levelDebug "ensuring block is replicated" "block_uuid" (ULID_String id).

(** Events other than the opening record of a block transfer. *)
Definition notBlockStart (e : Event) : Prop := blockStart e = None.

(** Events of the discovery of blocks: no block transfer, no call on the
    destination bucket. *)
Definition isDiscovery (e : Event) : Prop :=
  blockStart e = None ∧ isToBktCall e = false.

(** ** Reasoning about runs *)

(** A relation between the world before and the world after that holds
    across every step that only takes an outcome off the script. *)
Class Frame (R : relation World) : Prop := {
  frame_refl : ∀ w, R w w;
  frame_trans : ∀ w1 w2 w3, R w1 w2 → R w2 w3 → R w1 w3;
  frame_tail : ∀ w, R w (advance w)
}.

Definition preserves {A} (R : relation World) (m : M A) : Prop :=
  ∀ w, R w (post (m w)).

(** Every event of a run has a property. *)
Definition emits {A} (P : Event → Prop) (m : M A) : Prop :=
  ∀ w, Forall P (evts (m w)).

(** Relations that read one component of the world. *)
Definition sameOn {A} (f : World → A) : relation World := λ w w', f w' = f w.

Definition blockCounters (w : World) : nat * nat :=
  (blocksAlreadyReplicated (metrics w), blocksReplicated (metrics w)).

Definition replicationCounters (w : World) : nat * nat * nat :=
  (blocksAlreadyReplicated (metrics w), blocksReplicated (metrics w),
   objectsReplicated (metrics w)).

(** The destination only gains objects. *)
Definition growsToBkt : relation World := λ w w', toBkt w ⊆ toBkt w'.

(** A script that is exhausted stays exhausted. *)
Definition staysFaultFree : relation World := λ w w', faults w = [] → faults w' = [].

(** Agreement with the source at [p] is kept. *)
Definition keepsAgree (rs : replicationScheme) (p : string) : relation World :=
  λ w w', agrees rs p w → agrees rs p w'.

(** Relations that also hold across the counting of the discovery. *)
Class DiscoveryFrame (R : relation World) : Prop := {
  df_frame :: Frame R;
  df_origin : ∀ w f,
    (∀ m, blocksAlreadyReplicated (f m) = blocksAlreadyReplicated m
          ∧ blocksReplicated (f m) = blocksReplicated m
          ∧ objectsReplicated (f m) = objectsReplicated m) →
    R w (mkWorld (toBkt w) (f (metrics w)) (faults w))
}.

(** A computation whose result and whose use of the script are determined
    by the script alone. *)
Definition scripted {A} (m : M A) : Prop :=
  ∀ w w', faults w = faults w' →
    res (m w) = res (m w') ∧ faults (post (m w)) = faults (post (m w')).

(** The text form of the identifier of a block. *)
Definition blockIDOf (b : Meta) : string := ULID_String (bm_ULID (Meta_BlockMeta b)).

Definition minTimeOf (b : Meta) : Z := MinTime (Meta_BlockMeta b).

Section PassObservations.

Variable IsBlockDir : string → option ULID.

(** The first step of a pass: the iteration over the origin bucket. *)
Definition discovery (rs : replicationScheme) : M (option error * list Meta) :=
  fromBkt_Iter rs "" (collectBlock IsBlockDir rs) [].

(** The candidates of a pass that starts in [w], before and after the
    sort. *)
Definition candidates (rs : replicationScheme) (w : World) : list Meta :=
  List.filter (blockFilter rs) (snd (res (discovery rs w))).

Definition sortedCandidates (rs : replicationScheme) (w : World) : list Meta :=
  sort_Slice lessMinTime (candidates rs w).

(** The reading of "no object of the destination is overwritten" for a
    pass: no upload goes to a path that holds an object, and every object
    keeps its bytes. *)
Definition neverOverwrites (rs : replicationScheme) (w : World) : Prop :=
  ∀ p c, toBkt w !! p = Some c →
    (ToUpload p ∉ evts (execute IsBlockDir rs w))
    ∧ toBkt (post (execute IsBlockDir rs w)) !! p = Some c.

End PassObservations.

(** The object at [p], if there is one, keeps its bytes. *)
Definition keepsBytes (p : string) : relation World :=
  λ w w', ∀ c, toBkt w !! p = Some c → toBkt w' !! p = Some c.


(** ** A concrete bucket pair

    Two blocks in the source, D (minTime 50) listed before E (minTime 10),
    each with one chunk, an index and a meta file; used to run the
    definitions on. *)
Module Scenario.

Definition bytesOf (s : string) : bytes := list_byte_of_string s.

Definition idD : ULID := 1%N.
Definition idE : ULID := 2%N.

Definition labelsX : gmap string string := {[ "cluster" := "x" ]}.

Definition metaD : Meta :=
  mkMeta (mkBlockMeta idD 50 150 1) (mkThanos labelsX 0).
Definition metaE : Meta :=
  mkMeta (mkBlockMeta idE 10 110 1) (mkThanos labelsX 0).

(** A block-directory test that knows the given blocks. *)
Definition IsBlockDirOf (ids : list ULID) (name : string) : option ULID :=
  find (λ id, bool_decide (name = ULID_String id +:+ "/")) ids.

Definition IsBlockDir : string → option ULID := IsBlockDirOf [idD; idE].

Definition listing (dir : string) : list string :=
  if bool_decide (dir = "") then [ULID_String idD +:+ "/"; ULID_String idE +:+ "/"]
  else if bool_decide (dir = chunksDirOf idD) then ["000001"]
  else if bool_decide (dir = chunksDirOf idE) then ["000001"]
  else [].

Definition chunkOf (id : ULID) : string := chunksDirOf id +:+ "/000001".

Definition origin : BucketReader :=
  mkBucketReader listing
    (list_to_map
       [(metaFileOf idD, bytesOf "meta D"); (indexFileOf idD, bytesOf "index D");
        (chunkOf idD, bytesOf "chunk D");
        (metaFileOf idE, bytesOf "meta E"); (indexFileOf idE, bytesOf "index E");
        (chunkOf idE, bytesOf "chunk E")]).

Definition selector : list Matcher :=
  [mkMatcher MatchEqual "cluster" "x" (λ _, false)].

Definition bf : BlockFilter := NewBlockFilter selector [0%Z] [1%Z].

Definition rs : replicationScheme :=
  mkScheme origin (λ b, fst (Filter bf b)) {[ idD := metaD; idE := metaE ]}.

(** An empty destination, no counts, nothing fails. *)
Definition w0 : World := mkWorld ∅ newReplicationMetrics [].

Definition injected : error := errOther "injected".

(** The first transfer of an index file fails at its existence check: the
    three reads of the meta files, the listing of the chunk, the three
    calls of its transfer and the end of the listing go through. *)
Definition wIndexFails : World :=
  mkWorld ∅ newReplicationMetrics
    (replicate 8 None ++ [Some injected]).

(** The same during a pass, after the listing of the two blocks and the
    two fetches. *)
Definition wPassIndexFails : World :=
  mkWorld ∅ newReplicationMetrics
    (replicate 5 None ++ replicate 8 None ++ [Some injected]).

(** The destination holds the meta file of D already. *)
Definition wCommitted : World :=
  mkWorld {[ metaFileOf idD := bytesOf "meta D" ]} newReplicationMetrics [].

(** The destination holds another meta file for D. *)
Definition wStale : World :=
  mkWorld {[ metaFileOf idD := bytesOf "stale" ]} newReplicationMetrics [].

(** The destination holds the chunk of D, with other bytes. *)
Definition wChunk : World :=
  mkWorld {[ chunkOf idD := bytesOf "other" ]} newReplicationMetrics [].

(** The fetch of the metas fails for the first block directory. *)
Definition wFetchFails : World :=
  mkWorld ∅ newReplicationMetrics [None; Some injected].

(** The fetch reports the first block as not yet synced. *)
Definition wFetchPartial : World :=
  mkWorld ∅ newReplicationMetrics
    [None; Some (withMessage ErrorSyncMetaNotFound "sync")].

End Scenario.


(** ** The objects of a block *)

(** The objects that a block transfer ensures before its commit: the
    entries that the source lists under the chunks directory of the block,
    then its index file. *)
Definition chunkFilesOf (rs : replicationScheme) (id : ULID) : list string :=
  map (entryName (chunksDirOf id)) (entries (fromBkt rs) (chunksDirOf id)).

Definition objectFilesOf (rs : replicationScheme) (id : ULID) : list string :=
  chunkFilesOf rs id ++ [indexFileOf id].

(** The bucket [bkt] holds every object of the block. *)
Definition holdsObjects (rs : replicationScheme) (id : ULID)
    (bkt : gmap string bytes) : Prop :=
  Forall (λ p, is_Some (bkt !! p)) (objectFilesOf rs id).

(** The source holds the meta file and every object of the block. *)
Definition inSource (rs : replicationScheme) (id : ULID) : Prop :=
  is_Some (objects (fromBkt rs) !! metaFileOf id)
  ∧ holdsObjects rs id (objects (fromBkt rs)).

(** The destination is committed consistently: a block whose meta file it
    holds has all its objects there. *)
Definition committedComplete (rs : replicationScheme) (w : World) : Prop :=
  ∀ id, is_Some (toBkt w !! metaFileOf id) → holdsObjects rs id (toBkt w).

(** Every object of the destination after was there before, or is the
    object that the source holds at the same path. *)
Definition fromSourceOnly (rs : replicationScheme) : relation World :=
  λ w w', ∀ p c, toBkt w' !! p = Some c →
    toBkt w !! p = Some c ∨ objects (fromBkt rs) !! p = Some c.

(** The destination gains objects and keeps the meta files as they are. *)
Definition addsObjects : relation World :=
  λ w w', toBkt w ⊆ toBkt w'
    ∧ ∀ id, toBkt w' !! metaFileOf id = toBkt w !! metaFileOf id.

(** The three counters of the discovery. *)
Definition originCounters (w : World) : nat * nat * nat :=
  (originIterations (metrics w), originMetaLoads (metrics w),
   originPartialMeta (metrics w)).

(** The uploads that the counters account for: objects and blocks
    replicated. *)
Definition replicated (w : World) : nat :=
  (objectsReplicated (metrics w) + blocksReplicated (metrics w))%nat.

(** An error that a run did not make up.  The run started with the script
    of outcomes [script], left [rest] of it and had the events [evs].  The
    cause of the error is the cause of the failure of the call that the
    run made last on a bucket or on the fetcher (the entry of the script
    it took last, just before [rest]); or it is the not-found error of
    the source, the last event of the run being the read of an object
    that the source does not hold. *)
Definition blamed (rs : replicationScheme) (script rest : list (option error))
    (evs : list Event) (e : error) : Prop :=
  (∃ f, (Some f :: rest) `suffix_of` script ∧ Cause e = Cause f)
  ∨ (Cause e = errNotFound
     ∧ ∃ name, last evs = Some (FromGet name)
         ∧ objects (fromBkt rs) !! name = None).

(** A block that the discovery of a pass can make available: a block
    directory of the listing of the source, for which the fetcher has the
    meta, with external labels. *)
Definition discoverable (IsBlockDir : string → option ULID)
    (rs : replicationScheme) (b : Meta) : Prop :=
  Labels (Meta_Thanos b) ≠ ∅
  ∧ ∃ name id, name ∈ entries (fromBkt rs) ""
      ∧ IsBlockDir name = Some id ∧ fetcher rs !! id = Some b.

(** The script of outcomes only gets shorter. *)
Definition scriptShrinks : relation World :=
  λ w w', faults w' `suffix_of` faults w.

(** A step keeps the destination consistently committed. *)
Definition keepsCommitted (rs : replicationScheme) : relation World :=
  λ w w', committedComplete rs w → committedComplete rs w'.

(** The uploads of a run are accounted for by the counters: each one is
    counted as an object or as a block replicated, but for the last one of
    a run that fails. *)
Definition accounted {A} (w : World) (o : Out A) (ok : Prop) : Prop :=
  ∃ k, k ≤ 1
    ∧ (replicated w + length (uploads (evts o)) = replicated (post o) + k)%nat
    ∧ (ok → k = 0%nat).

(** Every error that a computation returns is one that its run did not
    make up. *)
Definition blames (rs : replicationScheme) (m : M (option error)) : Prop :=
  ∀ w e, res (m w) = Some e →
    blamed rs (faults w) (faults (post (m w))) (evts (m w)) e.

(** The files of a block at a bucket: its meta file and its objects. *)
Definition blockFilesOf (rs : replicationScheme) (id : ULID) : list string :=
  metaFileOf id :: objectFilesOf rs id.

(** An event that is no upload, or an upload to one of the paths. *)
Definition uploadsWithin (paths : string → Prop) (e : Event) : Prop :=
  ∀ p, e = ToUpload p → paths p.

(** Outside the paths the destination is as before. *)
Definition changesWithin (paths : string → Prop) : relation World :=
  λ w w', ∀ p, ¬ paths p → toBkt w' !! p = toBkt w !! p.

(** ** The commits of a run *)

(** The commit of a block is the upload of its meta file.  The block
    commits of a run, in order: for every call of Upload on a path that is
    26 characters (the text form of an identifier) followed by
    "/meta.json", those 26 characters.  The call is recorded when it is
    made: the last commit of a run that fails may not have gone through. *)
Definition blockCommit (e : Event) : option string :=
  match e with
  | ToUpload name =>
      let blockID := substring 0 26 name in
      if bool_decide (name = path_Join blockID MetaFilename) then Some blockID else None
  | _ => None
  end.

Definition blockCommits (evs : list Event) : list string := omap blockCommit evs.


(** * Probes and the remote-write handler

    Package prober (the readiness and health status of a component, with
    the two HTTP handlers that report it) and package receive (the handler
    of remote-write requests, which serves only when the prober says
    ready).  The methods run on one prober: the pointer receivers, the
    closures registered as handlers and the pointer that the receive
    handler keeps all denote it.  Calls are run one at a time; a mutex is
    a flag, and taking a mutex that is held blocks for ever.

    Package http, the loggers of go-kit, the router, the snappy and
    protobuf decoders and the writer behind the receive handler are not
    among the sources; they are modelled at their interface. *)

(** An [error] as these two packages use it: they keep it, test it against
    nil and print it.  It is modelled by the text that its method [Error]
    returns ([errors.errorString] for the errors made by [fmt.Errorf]). *)
Definition errorString : Type := string.

(** [fmt.Errorf] with a format that has been filled in. *)
Definition fmt_Errorf (text : string) : errorString := text.

(** A [log.Logger] that is not nil: the no-op logger, or a logger that
    writes to a named sink. *)
Inductive Logger : Type :=
| NopLogger
| sinkLogger (sink : string).

(** A value of a log record. *)
Inductive LogValue : Type :=
| Str (s : string)
| ErrValue (err : option errorString).

(** The four mutexes of a prober. *)
Inductive Mutex : Type := LoggerMtx | ComponentMtx | ReadyMtx | HealthyMtx.

#[global] Instance Mutex_eq_dec : EqDecision Mutex.
Proof. solve_decision. Defined.

(** What a call leaves behind: log records (with the level that package
    level adds, if any), the operations on the mutexes, and the
    observations on the histograms of package receive, with the value of
    the label "handler" and the value observed; the value of a duration is
    read off the clock and left open. *)
Inductive SrvEvent : Type :=
| Logged (sink : string) (lvl : option Level) (keyvals : list (string * LogValue))
| Locked (m : Mutex)
| Unlocked (m : Mutex)
| Observed (histogram : string) (handler : string) (value : option nat).

(** ** The prober *)

Definition healthyEndpointPath : string := "/-/healthy".
Definition readyEndpointPath : string := "/-/ready".
Definition probeErrorHTTPStatus : Z := 500.

(** The three formats, filled in by [fmt.Sprintf] and [fmt.Errorf]. *)
Definition okProbeText (component probeType : string) : string :=
  "thanos " +:+ component +:+ " is " +:+ probeType.
Definition errorProbeText (component probeType : string) (err : errorString) : string :=
  "thanos " +:+ component +:+ " is not " +:+ probeType +:+ ". Reason: " +:+ err.
Definition initialErrorText (component : string) : string :=
  "thanos " +:+ component +:+ " is initializing".

(** [Prober]; a [sync.Mutex] is the flag that says whether it is held. *)
Record Prober : Type := mkProber {
  logger : option Logger;
  loggerMtx : bool;
  componentMtx : bool;
  component : string;
  readyMtx : bool;
  readiness : option errorString;
  healthyMtx : bool;
  healthiness : option errorString
}.

(** [&Prober{}]. *)
Definition zeroProber : Prober := mkProber None false false "" false None false None.

(** How a call ends. *)
Inductive Outcome (A : Type) : Type :=
| Returns (a : A)
| Panics (v : string)
| Blocks (m : Mutex).
Arguments Returns {A} _.
Arguments Panics {A} _.
Arguments Blocks {A} _.

(** A run of a call: how it ends, the prober after it, its events. *)
Record Run (A : Type) : Type := mkRun {
  outcome : Outcome A;
  final : Prober;
  trace : list SrvEvent
}.
Arguments mkRun {A} _ _ _.
Arguments outcome {A} _.
Arguments final {A} _.
Arguments trace {A} _.

Definition Srv (A : Type) : Type := Prober → Run A.

Definition retS {A} (a : A) : Srv A := fun p => mkRun (Returns a) p [].

Definition bindS {A B} (m : Srv A) (f : A → Srv B) : Srv B :=
  fun p =>
    let r := m p in
    match outcome r with
    | Returns a =>
        let r2 := f a (final r) in
        mkRun (outcome r2) (final r2) (trace r ++ trace r2)
    | Panics v => mkRun (Panics v) (final r) (trace r)
    | Blocks m => mkRun (Blocks m) (final r) (trace r)
    end.

Declare Scope srv_scope.
Delimit Scope srv_scope with srv.
Notation "'let*' x ':=' m 'in' k" := (bindS m (fun x => k))
  (at level 10, x pattern, m at level 100, k at level 200) : srv_scope.
Notation "m ';;' k" := (bindS m (fun _ => k))
  (at level 100, k at level 200, right associativity) : srv_scope.

(** [defer]: the deferred call runs when the body returns and when it
    panics; a body that blocks does not get there. *)
Definition defer {A} (deferred : Srv unit) (body : Srv A) : Srv A :=
  fun p =>
    let r := body p in
    match outcome r with
    | Blocks m => r
    | _ =>
        let d := deferred (final r) in
        mkRun (match outcome d with
               | Returns _ => outcome r
               | Panics v => Panics v
               | Blocks m => Blocks m
               end)
          (final d) (trace r ++ trace d)
    end.

Definition panic {A} (v : string) : Srv A := fun p => mkRun (Panics v) p [].

Definition gets {A} (f : Prober → A) : Srv A := fun p => mkRun (Returns (f p)) p [].

Definition modify (f : Prober → Prober) : Srv unit :=
  fun p => mkRun (Returns tt) (f p) [].

Definition isLocked (m : Mutex) (p : Prober) : bool :=
  match m with
  | LoggerMtx => loggerMtx p
  | ComponentMtx => componentMtx p
  | ReadyMtx => readyMtx p
  | HealthyMtx => healthyMtx p
  end.

Definition setLocked (m : Mutex) (b : bool) (p : Prober) : Prober :=
  match m with
  | LoggerMtx =>
      mkProber (logger p) b (componentMtx p) (component p) (readyMtx p) (readiness p)
        (healthyMtx p) (healthiness p)
  | ComponentMtx =>
      mkProber (logger p) (loggerMtx p) b (component p) (readyMtx p) (readiness p)
        (healthyMtx p) (healthiness p)
  | ReadyMtx =>
      mkProber (logger p) (loggerMtx p) (componentMtx p) (component p) b (readiness p)
        (healthyMtx p) (healthiness p)
  | HealthyMtx =>
      mkProber (logger p) (loggerMtx p) (componentMtx p) (component p) (readyMtx p)
        (readiness p) b (healthiness p)
  end.

(** [sync.Mutex.Lock] and [Unlock]. *)
Definition Lock (m : Mutex) : Srv unit :=
  fun p =>
    if isLocked m p then mkRun (Blocks m) p []
    else mkRun (Returns tt) (setLocked m true p) [Locked m].

Definition Unlock (m : Mutex) : Srv unit :=
  fun p =>
    if isLocked m p then mkRun (Returns tt) (setLocked m false p) [Unlocked m]
    else mkRun (Panics "sync: unlock of unlocked mutex") p [].

(** [Log] on a logger, with the level that [level.Debug] or [level.Error]
    has put in front if one has: a nil logger is a nil pointer, the no-op
    logger drops the record. *)
Definition Logger_Log (l : option Logger) (lvl : option Level)
    (keyvals : list (string * LogValue)) : Srv unit :=
  fun p =>
    match l with
    | None => mkRun (Panics "invalid memory address or nil pointer dereference") p []
    | Some NopLogger => mkRun (Returns tt) p []
    | Some (sinkLogger sink) => mkRun (Returns tt) p [Logged sink lvl keyvals]
    end.

(** The assignments to the fields of the prober. *)
Definition set_logger (l : option Logger) (p : Prober) : Prober :=
  mkProber l (loggerMtx p) (componentMtx p) (component p) (readyMtx p) (readiness p)
    (healthyMtx p) (healthiness p).
Definition set_component (c : string) (p : Prober) : Prober :=
  mkProber (logger p) (loggerMtx p) (componentMtx p) c (readyMtx p) (readiness p)
    (healthyMtx p) (healthiness p).
Definition set_readiness (err : option errorString) (p : Prober) : Prober :=
  mkProber (logger p) (loggerMtx p) (componentMtx p) (component p) (readyMtx p) err
    (healthyMtx p) (healthiness p).
Definition set_healthiness (err : option errorString) (p : Prober) : Prober :=
  mkProber (logger p) (loggerMtx p) (componentMtx p) (component p) (readyMtx p)
    (readiness p) (healthyMtx p) err.

(** [SetLogger]. *)
Definition SetLogger (l : option Logger) : Srv unit :=
  (Lock LoggerMtx;;
   defer (Unlock LoggerMtx)
     (modify (set_logger l)))%srv.

Definition getLogger : Srv (option Logger) :=
  (Lock LoggerMtx;;
   defer (Unlock LoggerMtx)
     (gets logger))%srv.

(** [SetComponent]. *)
Definition SetComponent (c : string) : Srv unit :=
  (Lock ComponentMtx;;
   defer (Unlock ComponentMtx)
     (modify (set_component c)))%srv.

Definition getComponent : Srv string :=
  (Lock ComponentMtx;;
   defer (Unlock ComponentMtx)
     (gets component))%srv.

(** [IsReady]. *)
Definition IsReady : Srv (option errorString) :=
  (Lock ReadyMtx;;
   defer (Unlock ReadyMtx)
     (gets readiness))%srv.

(** [SetNotReady]. *)
Definition SetNotReady (err : option errorString) : Srv unit :=
  (Lock ReadyMtx;;
   defer (Unlock ReadyMtx)
     (match err with
      | Some e =>
          let* l := getLogger in
          Logger_Log l (Some levelDebug)
            [("msg", Str "changing probe status"); ("status", Str "not-ready");
             ("reason", ErrValue err)]
      | None => retS tt
      end;;
      modify (set_readiness err)))%srv.

(** [SetReady]. *)
Definition SetReady : Srv unit :=
  (let* l := getLogger in
   Logger_Log l (Some levelDebug)
     [("msg", Str "changing probe status"); ("status", Str "ready")];;
   SetNotReady None)%srv.

(** [IsHealthy]. *)
Definition IsHealthy : Srv (option errorString) :=
  (Lock HealthyMtx;;
   defer (Unlock HealthyMtx)
     (gets healthiness))%srv.

(** [SetNotHealthy]. *)
Definition SetNotHealthy (err : option errorString) : Srv unit :=
  (Lock HealthyMtx;;
   defer (Unlock HealthyMtx)
     (match err with
      | Some e =>
          let* l := getLogger in
          Logger_Log l (Some levelDebug)
            [("msg", Str "changing probe status"); ("status", Str "unhealthy");
             ("reason", ErrValue err)]
      | None => retS tt
      end;;
      modify (set_healthiness err)))%srv.

(** [SetHealthy]. *)
Definition SetHealthy : Srv unit :=
  (let* l := getLogger in
   Logger_Log l (Some levelDebug)
     [("msg", Str "changing probe status"); ("status", Str "healthy")];;
   SetNotHealthy None)%srv.

(** [NewProber]: the run of the four calls on [&Prober{}]; the new prober
    is the one the run ends with. *)
Definition NewProber (component : string) (logger : option Logger) : Run unit :=
  let initialErr := fmt_Errorf (initialErrorText component) in
  (SetComponent component;;
   SetLogger logger;;
   SetNotHealthy (Some initialErr);;
   SetNotReady (Some initialErr))%srv zeroProber.

(** ** Responses *)

(** An [http.ResponseWriter]: the header map, the status code once the
    header has been written, the body written so far, and the error with
    which a write on it fails, if writes fail. *)
Record ResponseWriter : Type := mkResponseWriter {
  Header : gmap string string;
  status : option Z;
  body : string;
  writeErr : option errorString
}.

Definition http_StatusOK : Z := 200.
Definition http_StatusBadRequest : Z := 400.
Definition http_StatusInternalServerError : Z := 500.
Definition http_StatusServiceUnavailable : Z := 503.

(** [WriteHeader]: a second call changes nothing. *)
Definition WriteHeader (w : ResponseWriter) (code : Z) : ResponseWriter :=
  match status w with
  | Some _ => w
  | None => mkResponseWriter (Header w) (Some code) (body w) (writeErr w)
  end.

(** [Write]: writes the header with status 200 if it has not been
    written, then the data. *)
Definition Write (w : ResponseWriter) (data : string)
    : ResponseWriter * option errorString :=
  match writeErr w with
  | Some e => (WriteHeader w http_StatusOK, Some e)
  | None =>
      let w := WriteHeader w http_StatusOK in
      (mkResponseWriter (Header w) (status w) (body w +:+ data) None, None)
  end.

(** [io.WriteString] on a response writer. *)
Definition io_WriteString (w : ResponseWriter) (s : string)
    : ResponseWriter * option errorString :=
  Write w s.

Definition newline : string := String "010"%char EmptyString.

(** [http.Error]: sets the two headers, writes the header with the code and
    the text on a line. *)
Definition http_Error (w : ResponseWriter) (error : string) (code : Z)
    : ResponseWriter :=
  let w := mkResponseWriter
             (<["X-Content-Type-Options" := "nosniff"]>
                (<["Content-Type" := "text/plain; charset=utf-8"]> (Header w)))
             (status w) (body w) (writeErr w) in
  let w := WriteHeader w code in
  fst (Write w (error +:+ newline)).

(** An [http.Request], of which the handlers read the body: its bytes, and
    the error with which reading it fails, if it does. *)
Record Request : Type := mkRequest {
  Body : bytes;
  BodyErr : option errorString
}.

(** [ioutil.ReadAll] on the body of a request. *)
Definition ioutil_ReadAll_Body (req : Request) : bytes * option errorString :=
  match BodyErr req with
  | Some e => ([], Some e)
  | None => (Body req, None)
  end.

(** [http.HandlerFunc]; the response writer is handed back as the handler
    leaves it. *)
Definition http_HandlerFunc : Type := ResponseWriter → Request → Srv ResponseWriter.

(** ** The two probe handlers *)

(** [probeHandlerFunc]. *)
Definition probeHandlerFunc (probeFunc : Srv (option errorString)) (probeType : string)
    : http_HandlerFunc :=
  fun w _ =>
    (let* err := probeFunc in
     match err with
     | None =>
         let* c := getComponent in
         let wr := io_WriteString w (okProbeText c probeType) in
         match snd wr with
         | None =>
             let* l := getLogger in
             Logger_Log l (Some levelError)
               [("msg", Str "failed to write probe response");
                ("probe type", Str probeType); ("err", ErrValue err)];;
             retS (fst wr)
         | Some _ => retS (fst wr)
         end
     | Some e =>
         let* c := getComponent in
         retS (http_Error w (errorProbeText c probeType e) probeErrorHTTPStatus)
     end)%srv.

(** An [http.ServeMux]: the patterns registered, with their handlers;
    registering a pattern twice panics. *)
Definition ServeMux : Type := list (string * http_HandlerFunc).

Definition ServeMux_HandleFunc (mux : ServeMux) (pattern : string)
    (handler : http_HandlerFunc) : Srv ServeMux :=
  if bool_decide (pattern ∈ map fst mux)
  then panic ("http: multiple registrations for " +:+ pattern)
  else retS (mux ++ [(pattern, handler)]).

(** A [route.Router]: the routes registered, by method and path;
    registering a route twice panics. *)
Definition Router : Type := list (string * string * http_HandlerFunc).

Definition Router_Handle (router : Router) (method path : string)
    (handler : http_HandlerFunc) : Srv Router :=
  if bool_decide ((method, path) ∈ map fst router)
  then panic ("a handle is already registered for path '" +:+ path +:+ "'")
  else retS (router ++ [(method, path, handler)]).

Definition Router_Get (router : Router) (path : string) (handler : http_HandlerFunc)
    : Srv Router :=
  Router_Handle router "GET" path handler.

Definition Router_Post (router : Router) (path : string) (handler : http_HandlerFunc)
    : Srv Router :=
  Router_Handle router "POST" path handler.

(** [RegisterInRouter]; the router is handed back with the two routes. *)
Definition RegisterInRouter (router : Router) : Srv Router :=
  (let* router := Router_Get router healthyEndpointPath
                    (probeHandlerFunc IsHealthy "healthy") in
   Router_Get router readyEndpointPath (probeHandlerFunc IsReady "ready"))%srv.

(** [RegisterInMux]. *)
Definition RegisterInMux (mux : ServeMux) : Srv ServeMux :=
  (let* mux := ServeMux_HandleFunc mux healthyEndpointPath
                 (probeHandlerFunc IsHealthy "healthy") in
   ServeMux_HandleFunc mux readyEndpointPath (probeHandlerFunc IsReady "ready"))%srv.

(** [NewProbeInRouter] and [NewProbeInMux]. *)
Definition NewProbeInRouter (component : string) (router : Router)
    (logger : option Logger) : Run Router :=
  let prober := NewProber component logger in
  match outcome prober with
  | Returns _ =>
      let r := RegisterInRouter router (final prober) in
      mkRun (outcome r) (final r) (trace prober ++ trace r)
  | Panics v => mkRun (Panics v) (final prober) (trace prober)
  | Blocks m => mkRun (Blocks m) (final prober) (trace prober)
  end.

Definition NewProbeInMux (component : string) (mux : ServeMux)
    (logger : option Logger) : Run ServeMux :=
  let prober := NewProber component logger in
  match outcome prober with
  | Returns _ =>
      let r := RegisterInMux mux (final prober) in
      mkRun (outcome r) (final r) (trace prober ++ trace r)
  | Panics v => mkRun (Panics v) (final prober) (trace prober)
  | Blocks m => mkRun (Blocks m) (final prober) (trace prober)
  end.

(** ** The earlier version of package prober

    The sources hold package prober in a second, earlier version.  Its
    status methods are the ones above; it has no [RegisterInRouter] and no
    [RegisterInMux], its constructors register the handlers themselves, and
    its handler answers a failed probe with the text of the error alone.
    Its [okProbeText] has the verbs %s where the later has %v, which print
    a string alike. *)
Module Earlier.

(** [probeHandlerFunc]. *)
Definition probeHandlerFunc (probeFunc : Srv (option errorString)) (probeType : string)
    : http_HandlerFunc :=
  fun w _ =>
    (let* err := probeFunc in
     match err with
     | None =>
         let* c := getComponent in
         let wr := io_WriteString w (okProbeText c probeType) in
         match snd wr with
         | None =>
             let* l := getLogger in
             Logger_Log l (Some levelError)
               [("msg", Str "failed to write probe response");
                ("probe type", Str probeType); ("err", ErrValue err)];;
             retS (fst wr)
         | Some _ => retS (fst wr)
         end
     | Some e => retS (http_Error w e probeErrorHTTPStatus)
     end)%srv.

(** [NewProbeInRouter] and [NewProbeInMux]. *)
Definition NewProbeInRouter (component : string) (router : Router)
    (logger : option Logger) : Run Router :=
  let prober := NewProber component logger in
  match outcome prober with
  | Returns _ =>
      let r := (let* router := Router_Get router healthyEndpointPath
                                 (probeHandlerFunc IsHealthy "healthy") in
                Router_Get router readyEndpointPath
                  (probeHandlerFunc IsReady "ready"))%srv (final prober) in
      mkRun (outcome r) (final r) (trace prober ++ trace r)
  | Panics v => mkRun (Panics v) (final prober) (trace prober)
  | Blocks m => mkRun (Blocks m) (final prober) (trace prober)
  end.

Definition NewProbeInMux (component : string) (mux : ServeMux)
    (logger : option Logger) : Run ServeMux :=
  let prober := NewProber component logger in
  match outcome prober with
  | Returns _ =>
      let r := (let* mux := ServeMux_HandleFunc mux healthyEndpointPath
                              (probeHandlerFunc IsHealthy "healthy") in
                ServeMux_HandleFunc mux readyEndpointPath
                  (probeHandlerFunc IsReady "ready"))%srv (final prober) in
      mkRun (outcome r) (final r) (trace prober ++ trace r)
  | Panics v => mkRun (Panics v) (final prober) (trace prober)
  | Blocks m => mkRun (Blocks m) (final prober) (trace prober)
  end.

End Earlier.

(** ** Metrics of the receive handler *)

(** The two histograms of package receive, by their names. *)
Definition requestDuration : string := "thanos_http_request_duration_seconds".
Definition responseSize : string := "thanos_http_response_size_bytes".

(** A [prometheus.Registerer]: the names of the collectors registered with
    it; [None] is the nil interface. *)
Definition Registerer : Type := option (list string).

(** [Registerer.MustRegister]: registers the collectors one after the
    other and panics at the first one whose name is registered already;
    on the nil interface the call is a nil pointer dereference.  The
    result is the registry with the collectors. *)
Fixpoint registerAll (registered cs : list string) : Srv (list string) :=
  match cs with
  | [] => retS registered
  | c :: cs =>
      if bool_decide (c ∈ registered)
      then panic "duplicate metrics collector registration attempted"
      else registerAll (registered ++ [c]) cs
  end.

Definition Registerer_MustRegister (r : Registerer) (cs : list string)
    : Srv (list string) :=
  match r with
  | None => panic "invalid memory address or nil pointer dereference"
  | Some registered => registerAll registered cs
  end.

(** An observation on a histogram. *)
Definition observe (histogram handlerName : string) (value : option nat) : Srv unit :=
  fun p => mkRun (Returns tt) p [Observed histogram handlerName value].

(** The bytes that a handler has written on a response writer
    ([Written] of the delegator that promhttp puts around it). *)
Definition written (before after : ResponseWriter) : nat :=
  String.length (body after) - String.length (body before).

(** [instrumentHandler]: [promhttp.InstrumentHandlerDuration] around
    [promhttp.InstrumentHandlerResponseSize] around the handler.  The
    handler runs; when it has returned, the bytes it wrote are observed on
    [responseSize], then the time it took on [requestDuration], both with
    the label handler set to [handlerName]. *)
Definition instrumentHandler (handlerName : string) (handler : http_HandlerFunc)
    : http_HandlerFunc :=
  fun w r =>
    (let* w' := handler w r in
     observe responseSize handlerName (Some (written w w'));;
     observe requestDuration handlerName None;;
     retS w')%srv.

(** ** The receive handler *)

Section Receive.

(** [prompb.WriteRequest]; the handler does not look into it. *)
Context {WriteRequest : Type}.

(** [snappy.Decode], and [proto.Unmarshal] into a new write request. *)
Variable snappy_Decode : bytes → bytes * option errorString.
Variable proto_Unmarshal : bytes → WriteRequest * option errorString.

(** [fmt.Sprintf] of a format without operands. *)
Variable fmt_Sprintf_format : string → string.

(** [Writer], by its method [Receive]. *)
Record Writer : Type := mkWriter {
  Receive : WriteRequest → Srv (option errorString)
}.

(** [Handler]: the fields that its methods read; the prober that
    [readinessProber] points to is the prober of the run. *)
Record Handler : Type := mkHandler {
  h_logger : option Logger;
  receiver : Writer
}.

(** [Options]: the fields that [NewHandler] reads; [ReadinessProber]
    points to the prober of the run. *)
Record Options : Type := mkOptions {
  Receiver : Writer;
  Registry : Registerer
}.

(** [Healthy], [Ready] and [isReady]. *)
Definition Healthy (h : Handler) : Srv unit := SetHealthy.
Definition Ready (h : Handler) : Srv unit := SetReady.
Definition isReady (h : Handler) : Srv (option errorString) := IsReady.

(** [fmt.Fprintf] of a format without operands on a response writer. *)
Definition fmt_Fprintf (w : ResponseWriter) (format : string)
    : ResponseWriter * option errorString :=
  Write w (fmt_Sprintf_format format).

(** [testReady]. *)
Definition testReady (h : Handler) (f : http_HandlerFunc) : http_HandlerFunc :=
  fun w r =>
    (let* ready_err := isReady h in
     match ready_err with
     | None => f w r
     | Some e =>
         let w := WriteHeader w http_StatusServiceUnavailable in
         let wr := fmt_Fprintf w ("Service Unavailable. Reason: " +:+ e) in
         match snd wr with
         | Some err =>
             Logger_Log (h_logger h) None
               [("msg", Str "failed to write to response body");
                ("err", ErrValue (Some err))];;
             retS (fst wr)
         | None => retS (fst wr)
         end
     end)%srv.

(** [receive]. *)
Definition receive (h : Handler) : http_HandlerFunc :=
  fun w req =>
    let rd := ioutil_ReadAll_Body req in
    let compressed := fst rd in
    match snd rd with
    | Some err => retS (http_Error w err http_StatusInternalServerError)
    | None =>
        let dec := snappy_Decode compressed in
        let reqBuf := fst dec in
        match snd dec with
        | Some err =>
            (Logger_Log (h_logger h) (Some levelError)
               [("msg", Str "snappy decode error"); ("err", ErrValue (Some err))];;
             retS (http_Error w err http_StatusBadRequest))%srv
        | None =>
            let um := proto_Unmarshal reqBuf in
            let wreq := fst um in
            match snd um with
            | Some err => retS (http_Error w err http_StatusBadRequest)
            | None =>
                (let* err := Receive (receiver h) wreq in
                 match err with
                 | Some err => retS (http_Error w err http_StatusBadRequest)
                 | None => retS w
                 end)%srv
            end
        end
    end.

(** [testReadyHandler]. *)
Definition testReadyHandler (h : Handler) (f : http_HandlerFunc) : http_HandlerFunc :=
  testReady h f.

(** [NewHandler]: the handler, its router with the one route, and the
    registry of [o] as the call leaves it.  The router is made with
    [WithInstrumentation]: it passes a handler through
    [instrumentHandler], with the path as the name of the handler, before
    it registers it.  A nil logger is replaced by the no-op logger.  [o]
    itself is not nil. *)
Definition NewHandler (logger : option Logger) (o : Options)
    : Srv (Handler * Router * list string) :=
  let logger := match logger with None => Some NopLogger | Some _ => logger end in
  let h := mkHandler logger (Receiver o) in
  let readyf := testReady h in
  (let* router := Router_Post [] "/api/v1/receive"
                    (instrumentHandler "/api/v1/receive" (readyf (receive h))) in
   let* registry := Registerer_MustRegister (Registry o)
                      [requestDuration; responseSize] in
   retS (h, router, registry))%srv.

End Receive.

(** ** Observations on probers *)

(** No mutex of the prober is held. *)
Definition unlocked (p : Prober) : Prop :=
  loggerMtx p = false ∧ componentMtx p = false
  ∧ readyMtx p = false ∧ healthyMtx p = false.

(** The log records among events. *)
Definition isLogged (e : SrvEvent) : bool :=
  match e with Logged _ _ _ => true | _ => false end.

Definition records (tr : list SrvEvent) : list SrvEvent := List.filter isLogged tr.

(** A use of a prober by its owner or by a client of its endpoints: a call
    of an exported method with a logger that is not nil, or a request on
    one of the two endpoints. *)
Inductive Call : Type :=
| CallSetLogger (l : Logger)
| CallSetComponent (c : string)
| CallSetReady
| CallSetNotReady (err : option errorString)
| CallIsReady
| CallSetHealthy
| CallSetNotHealthy (err : option errorString)
| CallIsHealthy
| CallProbe (endpoint : string) (w : ResponseWriter) (r : Request).

(** The handler that [RegisterInMux] and [RegisterInRouter] put behind a
    path. *)
Definition endpointHandler (path : string) : option http_HandlerFunc :=
  if bool_decide (path = healthyEndpointPath)
  then Some (probeHandlerFunc IsHealthy "healthy")
  else if bool_decide (path = readyEndpointPath)
  then Some (probeHandlerFunc IsReady "ready")
  else None.

Definition call (c : Call) : Srv unit :=
  match c with
  | CallSetLogger l => SetLogger (Some l)
  | CallSetComponent c => SetComponent c
  | CallSetReady => SetReady
  | CallSetNotReady err => SetNotReady err
  | CallIsReady => (IsReady;; retS tt)%srv
  | CallSetHealthy => SetHealthy
  | CallSetNotHealthy err => SetNotHealthy err
  | CallIsHealthy => (IsHealthy;; retS tt)%srv
  | CallProbe path w r =>
      match endpointHandler path with
      | Some handler => (handler w r;; retS tt)%srv
      | None => retS tt
      end
  end.

Fixpoint calls (cs : list Call) : Srv unit :=
  match cs with
  | [] => retS tt
  | c :: cs => (call c;; calls cs)%srv
  end.

(** The status that a call sets: the last one set stands. *)
Definition readinessAfter (r : option errorString) (c : Call) : option errorString :=
  match c with
  | CallSetReady => None
  | CallSetNotReady err => err
  | _ => r
  end.

Definition healthinessAfter (h : option errorString) (c : Call) : option errorString :=
  match c with
  | CallSetHealthy => None
  | CallSetNotHealthy err => err
  | _ => h
  end.

(** The order in which mutexes may be taken: a status mutex ([readyMtx],
    [healthyMtx]) when none is held, and under it a field mutex
    ([loggerMtx], [componentMtx]); a field mutex also when none is held;
    nothing under a field mutex; the mutex taken last is released first.
    [lockDiscipline held tr] is the mutexes held after the events [tr],
    innermost first, if the events keep to that order. *)
Definition isStatusMtx (m : Mutex) : bool :=
  match m with ReadyMtx | HealthyMtx => true | _ => false end.

Fixpoint lockDiscipline (held : list Mutex) (tr : list SrvEvent)
    : option (list Mutex) :=
  match tr with
  | [] => Some held
  | Locked m :: tr =>
      match held with
      | [] => lockDiscipline [m] tr
      | [outer] =>
          if isStatusMtx outer && negb (isStatusMtx m)
          then lockDiscipline [m; outer] tr
          else None
      | _ => None
      end
  | Unlocked m :: tr =>
      match held with
      | m' :: rest => if bool_decide (m = m') then lockDiscipline rest tr else None
      | [] => None
      end
  | Logged _ _ _ :: tr => lockDiscipline held tr
  | Observed _ _ _ :: tr => lockDiscipline held tr
  end.

(** ** A concrete server *)
Module Serving.

Definition sink : Logger := sinkLogger "stderr".

(** The prober of the receive component, as [NewProber] leaves it. *)
Definition fresh : Prober := final (NewProber "receive" (Some sink)).

(** A response writer on which nothing has been written. *)
Definition blank : ResponseWriter := mkResponseWriter ∅ None "" None.

(** The same on a connection that is gone. *)
Definition gone : ResponseWriter :=
  mkResponseWriter ∅ None "" (Some "broken pipe").

Definition request (b : string) : Request := mkRequest (list_byte_of_string b) None.

(** Decoders that take any bytes but the empty ones. *)
Definition decode (b : bytes) : bytes * option errorString :=
  match b with
  | [] => ([], Some "snappy: corrupt input")
  | _ => (b, None)
  end.

Definition unmarshal (b : bytes) : bytes * option errorString := (b, None).

(** A writer that takes every request. *)
Definition writer : Writer (WriteRequest := bytes) := mkWriter (λ _, retS None).

Definition handler : Handler (WriteRequest := bytes) :=
  mkHandler (Some NopLogger) writer.

End Serving.


(** * Properties *)

#[global] Arguments ULID_String : simpl never.
#[global] Arguments path_Join : simpl never.
#[global] Arguments nextFault : simpl never.
#[global] Arguments ensureObjectReplicated : simpl never.
#[global] Arguments fromBkt_Iter : simpl never.
#[global] Arguments transferAndCommit : simpl never.
#[global] Arguments ensureBlockIsReplicated : simpl never.
#[global] Arguments loadMeta : simpl never.
#[global] Arguments replicateChunk : simpl never.
#[global] Arguments transfersStarted : simpl never.
#[global] Arguments transfersCompleted : simpl never.
#[global] Arguments blockTransfers : simpl never.

Lemma bind_res {A B} (m : M A) (f : A → M B) w :
  res (bind m f w) = res (f (res (m w)) (post (m w))).
Proof. reflexivity. Qed.

Lemma bind_post {A B} (m : M A) (f : A → M B) w :
  post (bind m f w) = post (f (res (m w)) (post (m w))).
Proof. reflexivity. Qed.

Lemma bind_evts {A B} (m : M A) (f : A → M B) w :
  evts (bind m f w) = evts (m w) ++ evts (f (res (m w)) (post (m w))).
Proof. reflexivity. Qed.

Lemma World_eta w : mkWorld (toBkt w) (metrics w) (faults w) = w.
Proof. by destruct w. Qed.

Lemma suffix_tail {A} (fs l : list A) : fs `suffix_of` l → tail fs `suffix_of` l.
Proof.
  intros H. etrans; [|exact H]. destruct fs as [|x fs]; [done|].
  by apply suffix_cons_r.
Qed.

(** The script after some steps is a suffix of the script before. *)
Ltac tails := repeat apply suffix_tail; reflexivity.

(** Case analysis on the outcome of the next fallible call. *)
Ltac next_fault e H :=
  match goal with
  | |- context [nextFault ?w] => destruct (nextFault w) as [e|] eqn:H; cbn
  end.

(** ** Frame rules *)

Section FrameRules.
Context (R : relation World) `{!Frame R}.

Lemma frame_suffix w fs :
  fs `suffix_of` faults w → R w (mkWorld (toBkt w) (metrics w) fs).
Proof.
  intros [k Hk]. revert w Hk. induction k as [|x k IH]; intros w Hk.
  - simpl in Hk. rewrite <- Hk, World_eta. apply frame_refl.
  - eapply frame_trans; [apply (frame_tail w)|].
    apply (IH (advance w)). simpl. by rewrite Hk.
Qed.

Lemma preserves_ret {A} (a : A) : preserves R (ret a).
Proof. intros w. apply frame_refl. Qed.

Lemma preserves_bind {A B} (m : M A) (f : A → M B) :
  preserves R m → (∀ a, preserves R (f a)) → preserves R (bind m f).
Proof.
  intros Hm Hf w. rewrite bind_post.
  eapply frame_trans; [apply Hm | apply Hf].
Qed.

Lemma preserves_emit e : preserves R (emit e).
Proof. intros w. apply frame_refl. Qed.

Lemma preserves_logf l m k v : preserves R (logf l m k v).
Proof. apply preserves_emit. Qed.

Lemma preserves_consult : preserves R consult.
Proof. intros w. apply frame_tail. Qed.

Lemma preserves_getToBkt : preserves R getToBkt.
Proof. intros w. apply frame_refl. Qed.

Lemma preserves_fromBkt_Get rs name : preserves R (fromBkt_Get rs name).
Proof.
  unfold fromBkt_Get.
  apply preserves_bind; [apply preserves_emit|intros _].
  apply preserves_bind; [apply preserves_consult|intros [e|]].
  - apply preserves_ret.
  - destruct (objects (fromBkt rs) !! name); apply preserves_ret.
Qed.

Lemma preserves_toBkt_Get name : preserves R (toBkt_Get name).
Proof.
  unfold toBkt_Get.
  apply preserves_bind; [apply preserves_emit|intros _].
  apply preserves_bind; [apply preserves_consult|intros [e|]].
  - apply preserves_ret.
  - apply preserves_bind; [apply preserves_getToBkt|intros bkt].
    destruct (bkt !! name); apply preserves_ret.
Qed.

Lemma preserves_toBkt_Exists name : preserves R (toBkt_Exists name).
Proof.
  unfold toBkt_Exists.
  apply preserves_bind; [apply preserves_emit|intros _].
  apply preserves_bind; [apply preserves_consult|intros [e|]].
  - apply preserves_ret.
  - apply preserves_bind; [apply preserves_getToBkt|intros bkt].
    apply preserves_ret.
Qed.

Lemma preserves_ReadAll r : preserves R (ioutil_ReadAll r).
Proof.
  unfold ioutil_ReadAll. destruct r; [|apply preserves_ret].
  apply preserves_bind; [apply preserves_consult|intros [e|]];
    apply preserves_ret.
Qed.

Lemma preserves_Fetch rs : preserves R (fetcher_Fetch rs).
Proof.
  unfold fetcher_Fetch.
  apply preserves_bind; [apply preserves_emit|intros _].
  apply preserves_bind; [apply preserves_consult|intros [e|]];
    apply preserves_ret.
Qed.

Lemma preserves_visitEntries {A} (f : string → A → M (option error * A)) names :
  (∀ n acc, n ∈ names → preserves R (f n acc)) →
  ∀ acc, preserves R (visitEntries f names acc).
Proof.
  induction names as [|n names IH]; intros Hf acc; simpl.
  - apply preserves_ret.
  - apply preserves_bind; [apply preserves_consult|intros [e|]].
    + apply preserves_ret.
    + apply preserves_bind; [apply Hf; left|intros [[e|] acc']]; simpl.
      * apply preserves_ret.
      * apply IH. intros; apply Hf. by right.
Qed.

Lemma preserves_Iter {A} rs dir (f : string → A → M (option error * A)) acc :
  (∀ n acc, n ∈ map (entryName dir) (entries (fromBkt rs) dir) →
     preserves R (f n acc)) →
  preserves R (fromBkt_Iter rs dir f acc).
Proof.
  intros Hf. unfold fromBkt_Iter.
  apply preserves_bind; [apply preserves_emit|intros _].
  apply preserves_bind; [by apply preserves_visitEntries|intros [[e|] acc']]; simpl.
  - apply preserves_ret.
  - apply preserves_bind; [apply preserves_consult|intros fl].
    apply preserves_ret.
Qed.

Lemma preserves_loadMeta rs id : preserves R (loadMeta rs id).
Proof.
  unfold loadMeta.
  apply preserves_bind; [apply preserves_Fetch|intros [metas [e|]]]; simpl.
  - case_bool_decide; apply preserves_ret.
  - destruct (metas !! id); apply preserves_ret.
Qed.
End FrameRules.

(** ** Event rules *)

Section EmitRules.
Context (P : Event → Prop).

Lemma emits_ret {A} (a : A) : emits P (ret a).
Proof. intros w. constructor. Qed.

Lemma emits_bind {A B} (m : M A) (f : A → M B) :
  emits P m → (∀ a, emits P (f a)) → emits P (bind m f).
Proof.
  intros Hm Hf w. rewrite bind_evts. apply Forall_app. split; [apply Hm|apply Hf].
Qed.

Lemma emits_emit e : P e → emits P (emit e).
Proof. intros He w. by repeat constructor. Qed.

Lemma emits_logf l m k v : P (Log l m k v) → emits P (logf l m k v).
Proof. apply emits_emit. Qed.

Lemma emits_consult : emits P consult.
Proof. intros w. constructor. Qed.

Lemma emits_getToBkt : emits P getToBkt.
Proof. intros w. constructor. Qed.

Lemma emits_putObject n c : emits P (putObject n c).
Proof. intros w. constructor. Qed.

Lemma emits_updMetrics f : emits P (updMetrics f).
Proof. intros w. constructor. Qed.

Lemma emits_visitEntries {A} (f : string → A → M (option error * A)) names :
  (∀ n acc, n ∈ names → emits P (f n acc)) →
  ∀ acc, emits P (visitEntries f names acc).
Proof.
  induction names as [|n names IH]; intros Hf acc; simpl.
  - apply emits_ret.
  - apply emits_bind; [apply emits_consult|intros [e|]].
    + apply emits_ret.
    + apply emits_bind; [apply Hf; left|intros [[e|] acc']]; simpl.
      * apply emits_ret.
      * apply IH. intros; apply Hf. by right.
Qed.

Lemma emits_Iter {A} rs dir (f : string → A → M (option error * A)) acc :
  P (FromIter dir) →
  (∀ n acc, n ∈ map (entryName dir) (entries (fromBkt rs) dir) → emits P (f n acc)) →
  emits P (fromBkt_Iter rs dir f acc).
Proof.
  intros Hd Hf. unfold fromBkt_Iter.
  apply emits_bind; [by apply emits_emit|intros _].
  apply emits_bind; [by apply emits_visitEntries|intros [[e|] acc']]; simpl.
  - apply emits_ret.
  - apply emits_bind; [apply emits_consult|intros fl]. apply emits_ret.
Qed.
End EmitRules.

(** One step of a proof that a run emits only events with a property. *)
Ltac emits_step :=
  first
    [ apply emits_ret | apply emits_consult | apply emits_getToBkt
    | apply emits_putObject | apply emits_updMetrics
    | apply emits_emit | apply emits_logf
    | apply emits_bind; [|intros ?]
    | match goal with
      | |- emits _ (match ?x with _ => _ end) => destruct x
      | |- emits _ (if ?x then _ else _) => destruct x
      end ].

(** ** Frames *)

Lemma Frame_sameOn {A} (f : World → A) :
  (∀ w, f (advance w) = f w) → Frame (sameOn f).
Proof.
  intros Hf. split; unfold sameOn.
  - done.
  - intros w1 w2 w3 H12 H23. by rewrite H23.
  - intros w. apply Hf.
Qed.

#[global] Instance Frame_blockCounters : Frame (sameOn blockCounters).
Proof. by apply Frame_sameOn. Qed.

#[global] Instance Frame_replicationCounters : Frame (sameOn replicationCounters).
Proof. by apply Frame_sameOn. Qed.

#[global] Instance Frame_toBkt : Frame (sameOn toBkt).
Proof. by apply Frame_sameOn. Qed.

#[global] Instance Frame_lookup p : Frame (sameOn (λ w, toBkt w !! p)).
Proof. by apply Frame_sameOn. Qed.

#[global] Instance Frame_grows : Frame growsToBkt.
Proof.
  split; unfold growsToBkt.
  - done.
  - intros w1 w2 w3 H12 H23. by etrans.
  - done.
Qed.

#[global] Instance Frame_staysFaultFree : Frame staysFaultFree.
Proof.
  split; unfold staysFaultFree.
  - done.
  - auto.
  - intros w Hw. simpl. by rewrite Hw.
Qed.

#[global] Instance Frame_keepsAgree rs p : Frame (keepsAgree rs p).
Proof.
  split; unfold keepsAgree.
  - done.
  - auto.
  - done.
Qed.

#[global] Instance Frame_keepsObjects rs : Frame (keepsObjects rs).
Proof.
  split; unfold keepsObjects.
  - auto.
  - intros w1 w2 w3 H12 H23 p c Hp.
    destruct (H12 p c Hp) as [H2|[Hm (c2 & H2 & Hs)]].
    + by apply H23.
    + destruct (H23 p c2 H2) as [H3|[_ H3]].
      * right. split; [done|]. by exists c2.
      * by right.
  - auto.
Qed.


(** ** Paths *)

Lemma append_cons x (a b : string) : String x a +:+ b = String x (a +:+ b).
Proof. reflexivity. Qed.

Lemma append_assoc (a b c : string) : (a +:+ b) +:+ c = a +:+ (b +:+ c).
Proof. induction a as [|x a IH]; [done|]. rewrite !append_cons. by rewrite IH. Qed.

Lemma append_inj_r (a b c : string) : a +:+ b = a +:+ c → b = c.
Proof. apply String.app_inj. Qed.

Lemma path_Join_nonempty a b : path_Join a b ≠ "".
Proof. unfold path_Join. by destruct a. Qed.

(** No entry of the chunks directory of a block, and not its index file, is
    its meta file. *)
Lemma chunk_not_meta id e :
  entryName (chunksDirOf id) e ≠ metaFileOf id.
Proof.
  unfold entryName, chunksDirOf, metaFileOf.
  pose proof (path_Join_nonempty (ULID_String id) ChunksDirname) as Hne.
  destruct (path_Join (ULID_String id) ChunksDirname) as [|x s] eqn:Hj; [done|].
  rewrite <- Hj. unfold path_Join. rewrite !append_assoc.
  intros H%append_inj_r. discriminate H.
Qed.

Lemma index_not_meta id : indexFileOf id ≠ metaFileOf id.
Proof.
  unfold indexFileOf, metaFileOf, path_Join.
  intros H%append_inj_r. discriminate H.
Qed.

(** ** The object transfer *)

Lemma EOR_cases rs name w :
  let o := ensureObjectReplicated rs name w in
  faults (post o) `suffix_of` faults w
  ∧ (uploads (evts o) = []
     ∨ uploads (evts o) = [ToUpload name] ∧ toBkt w !! name = None)
  ∧ ((toBkt (post o) = toBkt w ∧ metrics (post o) = metrics w
      ∧ (res o = None → is_Some (toBkt w !! name)))
     ∨ (res o = None ∧ toBkt w !! name = None
        ∧ ∃ c, objects (fromBkt rs) !! name = Some c
           ∧ toBkt (post o) = <[name := c]> (toBkt w)
           ∧ metrics (post o) = objInc (metrics w))).
Proof.
  unfold ensureObjectReplicated. cbn.
  next_fault e1 H1.
  { split; [tails|]. split; [by left|]. left. done. }
  destruct (toBkt w !! name) as [c'|] eqn:Hd; cbn.
  { split; [tails|]. split; [by left|]. left. eauto. }
  next_fault e2 H2.
  { split; [tails|]. split; [by left|]. left. done. }
  destruct (objects (fromBkt rs) !! name) as [c|] eqn:Hs; cbn.
  2: { split; [tails|]. split; [by left|]. left. done. }
  next_fault e3 H3.
  { split; [tails|]. split; [by right|]. left. done. }
  split; [tails|]. split; [by right|]. right.
  repeat split; eauto.
Qed.

(** The object transfer keeps every frame relation that its one copy step
    keeps. *)
Lemma EOR_preserves R `{!Frame R} rs name :
  (∀ w c, toBkt w !! name = None → objects (fromBkt rs) !! name = Some c →
     R w (mkWorld (<[name := c]> (toBkt w)) (objInc (metrics w)) (faults w))) →
  preserves R (ensureObjectReplicated rs name).
Proof.
  intros Hcopy w.
  destruct (EOR_cases rs name w) as (Hk & _ & [(Hb & Hm & _)|(_ & Hn & c & Hc & Hb & Hm)]).
  - rewrite <- (World_eta (post _)), Hb, Hm. by apply frame_suffix.
  - rewrite <- (World_eta (post _)), Hb, Hm.
    eapply frame_trans; [by apply (frame_suffix R w _ Hk)|].
    by apply (Hcopy (mkWorld (toBkt w) (metrics w) _)).
Qed.

Lemma EOR_blockCounters rs name :
  preserves (sameOn blockCounters) (ensureObjectReplicated rs name).
Proof. apply EOR_preserves; [apply _|]. by intros w c _ _; unfold sameOn. Qed.

Lemma EOR_lookup rs name p :
  p ≠ name → preserves (sameOn (λ w, toBkt w !! p)) (ensureObjectReplicated rs name).
Proof.
  intros Hp. apply EOR_preserves; [apply _|].
  intros w c _ _. unfold sameOn. cbn. by rewrite lookup_insert_ne.
Qed.

Lemma EOR_grows rs name : preserves growsToBkt (ensureObjectReplicated rs name).
Proof.
  apply EOR_preserves; [apply _|].
  intros w c Hn _. unfold growsToBkt. simpl. apply insert_subseteq, Hn.
Qed.

Lemma EOR_staysFaultFree rs name :
  preserves staysFaultFree (ensureObjectReplicated rs name).
Proof. apply EOR_preserves; [apply _|]. by intros w c _ _; unfold staysFaultFree. Qed.

Lemma grows_keepsObjects rs w w' : growsToBkt w w' → keepsObjects rs w w'.
Proof.
  intros H p c Hp. left. by eapply lookup_weaken.
Qed.

Lemma grows_keepsAgree rs p w w' : growsToBkt w w' → keepsAgree rs p w w'.
Proof.
  intros H (c & Hd & Hs). exists c. split; [|done].
  eapply lookup_weaken; [exact Hd|exact H].
Qed.

Lemma EOR_keepsObjects rs name : preserves (keepsObjects rs) (ensureObjectReplicated rs name).
Proof. intros w. apply grows_keepsObjects, EOR_grows. Qed.

Lemma EOR_keepsAgree rs p name : preserves (keepsAgree rs p) (ensureObjectReplicated rs name).
Proof. intros w. apply grows_keepsAgree, EOR_grows. Qed.

Lemma EOR_notBlockStart rs name : emits notBlockStart (ensureObjectReplicated rs name).
Proof.
  unfold ensureObjectReplicated, toBkt_Exists, fromBkt_Get, toBkt_Upload,
    objectsReplicated_Inc.
  repeat emits_step; reflexivity.
Qed.

(** Counting the records of object transfers. *)
Lemma transfersStarted_app a b :
  transfersStarted (a ++ b) = (transfersStarted a + transfersStarted b)%nat.
Proof. unfold transfersStarted. by rewrite List.filter_app, length_app. Qed.

Lemma transfersCompleted_app a b :
  transfersCompleted (a ++ b) = (transfersCompleted a + transfersCompleted b)%nat.
Proof. unfold transfersCompleted. by rewrite List.filter_app, length_app. Qed.

(** An object transfer writes its opening record once, and a closing record
    exactly when it succeeds. *)
Lemma EOR_counts rs name w :
  let o := ensureObjectReplicated rs name w in
  transfersStarted (evts o) = 1%nat
  ∧ transfersCompleted (evts o) = match res o with None => 1%nat | Some _ => 0%nat end.
Proof.
  unfold ensureObjectReplicated. cbn.
  next_fault e1 H1; [done|].
  destruct (toBkt w !! name) as [c'|] eqn:Hd; cbn; [done|].
  next_fault e2 H2; [done|].
  destruct (objects (fromBkt rs) !! name) as [c|] eqn:Hs; cbn; [|done].
  next_fault e3 H3; done.
Qed.


(** ** The chunks of a block *)

Lemma replicateChunk_preserves R `{!Frame R} rs name u :
  preserves R (ensureObjectReplicated rs name) →
  preserves R (replicateChunk rs name u).
Proof.
  intros H. unfold replicateChunk.
  apply preserves_bind; [done..|intros [e|]]; by apply preserves_ret.
Qed.

Lemma chunks_preserves R `{!Frame R} rs id :
  (∀ name, name ≠ metaFileOf id → preserves R (ensureObjectReplicated rs name)) →
  preserves R (fromBkt_Iter rs (chunksDirOf id) (replicateChunk rs) tt).
Proof.
  intros H. apply preserves_Iter; [done|].
  intros n u [e [-> _]]%list_elem_of_fmap.
  apply replicateChunk_preserves; [done|]. apply H, chunk_not_meta.
Qed.

Lemma replicateChunk_notBlockStart rs name u :
  emits notBlockStart (replicateChunk rs name u).
Proof.
  unfold replicateChunk.
  apply emits_bind; [apply EOR_notBlockStart|intros [e|]]; apply emits_ret.
Qed.

Lemma replicateChunk_counts rs name u w :
  let o := replicateChunk rs name u w in
  transfersStarted (evts o) = 1%nat
  ∧ transfersCompleted (evts o)
    = match fst (res o) with None => 1%nat | Some _ => 0%nat end.
Proof.
  destruct (EOR_counts rs name w) as [Hs Hc]. unfold replicateChunk.
  cbv zeta. rewrite bind_evts, bind_res.
  destruct (res (ensureObjectReplicated rs name w)); cbn; by rewrite app_nil_r.
Qed.

(** Of the object transfers of an iteration over chunks, all but possibly
    the last one complete; all do when the iteration succeeds. *)
Lemma visitChunks_counts rs names w :
  let o := visitEntries (replicateChunk rs) names tt w in
  transfersCompleted (evts o) ≤ transfersStarted (evts o)
  ∧ (fst (res o) = None → transfersCompleted (evts o) = transfersStarted (evts o)).
Proof.
  revert w. induction names as [|n names IH]; intros w; cbn.
  - done.
  - next_fault e H; [done|].
    destruct (replicateChunk_counts rs n tt (advance w)) as [Hs Hc].
    rewrite transfersStarted_app, transfersCompleted_app, Hs, Hc.
    destruct (res (replicateChunk rs n tt (advance w))) as [[e|] []]; cbn.
    + unfold transfersStarted, transfersCompleted; simpl. split; [lia|done].
    + destruct (IH (post (replicateChunk rs n tt (advance w)))) as [IH1 IH2].
      split; [lia|]. intros Hn. by rewrite (IH2 Hn).
Qed.

Lemma chunks_counts rs dir w :
  let o := fromBkt_Iter rs dir (replicateChunk rs) tt w in
  transfersCompleted (evts o) ≤ transfersStarted (evts o)
  ∧ (fst (res o) = None → transfersCompleted (evts o) = transfersStarted (evts o)).
Proof.
  unfold fromBkt_Iter. cbn.
  set (names := map (entryName dir) (entries (fromBkt rs) dir)).
  destruct (visitChunks_counts rs names w) as [H1 H2].
  destruct (res (visitEntries (replicateChunk rs) names tt w)) as [[e|] []] eqn:Hr;
    cbn; rewrite ?app_nil_r.
  - split; [done|]. discriminate.
  - split; [done|]. intros _. by apply H2.
Qed.

Lemma chunks_notBlockStart rs dir :
  emits notBlockStart (fromBkt_Iter rs dir (replicateChunk rs) tt).
Proof.
  apply emits_Iter; [done|]. intros n acc _. apply replicateChunk_notBlockStart.
Qed.

(** ** The transfer of the objects of a block and its commit *)

Lemma TC_preserves R `{!Frame R} rs id c :
  (∀ name, name ≠ metaFileOf id → preserves R (ensureObjectReplicated rs name)) →
  (∀ w, R w (mkWorld (<[metaFileOf id := c]> (toBkt w)) (replicatedInc (metrics w))
               (faults w))) →
  preserves R (transferAndCommit rs id c).
Proof.
  intros Hobj Hcommit. unfold transferAndCommit.
  apply preserves_bind; [done|by apply chunks_preserves|intros [[e|] []]]; simpl.
  { by apply preserves_ret. }
  apply preserves_bind; [done|apply Hobj, index_not_meta|intros [e|]].
  { by apply preserves_ret. }
  apply preserves_bind; [done|by apply preserves_logf|intros _].
  intros w. cbn. next_fault e H.
  - apply frame_tail.
  - eapply frame_trans; [apply (frame_tail w)|]. apply (Hcommit (advance w)).
Qed.

Lemma TC_notBlockStart rs id c : emits notBlockStart (transferAndCommit rs id c).
Proof.
  unfold transferAndCommit.
  apply emits_bind; [apply chunks_notBlockStart|intros [[e|] []]]; simpl.
  { apply emits_ret. }
  apply emits_bind; [apply EOR_notBlockStart|intros [e|]].
  { apply emits_ret. }
  unfold toBkt_Upload, blocksReplicated_Inc.
  repeat emits_step; reflexivity.
Qed.

(** What the commit does to the block counters and to the meta file,
    according to its result. *)
Lemma TC_result rs id c w :
  let o := transferAndCommit rs id c w in
  match res o with
  | None =>
      blockCounters (post o)
        = (blocksAlreadyReplicated (metrics w), S (blocksReplicated (metrics w)))
      ∧ toBkt (post o) !! metaFileOf id = Some c
  | Some _ => blockCounters (post o) = blockCounters w
  end.
Proof.
  unfold transferAndCommit. cbn.
  set (o1 := fromBkt_Iter _ _ _ _ w).
  assert (H1 : blockCounters (post o1) = blockCounters w).
  { apply (chunks_preserves (sameOn blockCounters)). intros; apply EOR_blockCounters. }
  destruct (res o1) as [[e|] []]; cbn; [done|].
  set (o2 := ensureObjectReplicated _ _ (post o1)).
  assert (H2 : blockCounters (post o2) = blockCounters (post o1)).
  { apply EOR_blockCounters. }
  destruct (res o2) as [e|]; cbn; [congruence|].
  unfold blockCounters in *.
  next_fault e H; [congruence|].
  split; [|apply lookup_insert_eq]. congruence.
Qed.

(** The commit-last discipline: an object transfer that does not complete
    ends the block transfer with an error before the meta file is touched. *)
Lemma TC_counts rs id c w :
  let o := transferAndCommit rs id c w in
  transfersCompleted (evts o) < transfersStarted (evts o) →
  res o ≠ None ∧ toBkt (post o) !! metaFileOf id = toBkt w !! metaFileOf id.
Proof.
  unfold transferAndCommit. cbn.
  set (o1 := fromBkt_Iter _ _ _ _ w).
  assert (H1 : toBkt (post o1) !! metaFileOf id = toBkt w !! metaFileOf id).
  { apply (chunks_preserves (sameOn (λ w, toBkt w !! metaFileOf id))).
    intros name Hn. by apply EOR_lookup. }
  destruct (chunks_counts rs (path_Join (ULID_String id) ChunksDirname) w) as [C1 C2].
  fold o1 in C1, C2.
  destruct (res o1) as [[e|] []] eqn:Hr1; cbn; rewrite ?app_nil_r; [done|].
  set (o2 := ensureObjectReplicated _ _ (post o1)).
  assert (H2 : toBkt (post o2) !! metaFileOf id = toBkt (post o1) !! metaFileOf id).
  { apply (EOR_lookup rs _ (metaFileOf id)). apply not_eq_sym, index_not_meta. }
  destruct (EOR_counts rs (path_Join (ULID_String id) IndexFilename) (post o1)) as [E1 E2].
  fold o2 in E1, E2.
  destruct (res o2) as [e|] eqn:Hr2; cbn; rewrite ?app_nil_r.
  { intros _. split; [done|congruence]. }
  rewrite !transfersStarted_app, !transfersCompleted_app, E1, E2, (C2 eq_refl).
  next_fault e H; cbn; intros Hlt; exfalso; revert Hlt;
    rewrite ?transfersStarted_app, ?transfersCompleted_app;
    repeat match goal with
    | |- context [transfersCompleted (?a :: ?l)] =>
        replace (transfersCompleted (a :: l)) with 0%nat by reflexivity
    | |- context [transfersStarted (?a :: ?l)] =>
        replace (transfersStarted (a :: l)) with 0%nat by reflexivity
    end; lia.
Qed.

(** Where the upload of the meta file stands among the events of the
    commit: nowhere, or last, after object transfers that have all
    completed. *)
Lemma EOR_no_upload_at rs name p :
  name ≠ p → emits (λ e, e ≠ ToUpload p) (ensureObjectReplicated rs name).
Proof.
  intros Hn. unfold ensureObjectReplicated, toBkt_Exists, fromBkt_Get, toBkt_Upload,
    objectsReplicated_Inc.
  repeat emits_step; try discriminate. congruence.
Qed.

Lemma chunks_no_upload_of_meta rs id :
  emits (λ e, e ≠ ToUpload (metaFileOf id))
    (fromBkt_Iter rs (chunksDirOf id) (replicateChunk rs) tt).
Proof.
  apply emits_Iter; [done|].
  intros n u [e [-> _]]%list_elem_of_fmap. unfold replicateChunk.
  apply emits_bind; [apply EOR_no_upload_at, chunk_not_meta|intros [e'|]];
    apply emits_ret.
Qed.

Lemma TC_upload_last rs id c w :
  let o := transferAndCommit rs id c w in
  ∃ evs, Forall (λ e, e ≠ ToUpload (metaFileOf id)) evs
    ∧ (evts o = evs
       ∨ (evts o = evs ++ [ToUpload (metaFileOf id)]
          ∧ transfersCompleted evs = transfersStarted evs)).
Proof.
  unfold transferAndCommit. cbn.
  set (o1 := fromBkt_Iter _ _ _ _ w).
  pose proof (chunks_no_upload_of_meta rs id w) as P1. fold o1 in P1.
  destruct (chunks_counts rs (path_Join (ULID_String id) ChunksDirname) w) as [_ C2].
  fold o1 in C2.
  destruct (res o1) as [[e|] []] eqn:Hr1; cbn; rewrite ?app_nil_r.
  { exists (evts o1). split; [done|by left]. }
  set (o2 := ensureObjectReplicated _ _ (post o1)).
  pose proof (EOR_no_upload_at rs _ (metaFileOf id) (index_not_meta id) (post o1)) as P2.
  fold o2 in P2.
  destruct (EOR_counts rs (path_Join (ULID_String id) IndexFilename) (post o1)) as [E1 E2].
  fold o2 in E1, E2.
  destruct (res o2) as [e|] eqn:Hr2; cbn; rewrite ?app_nil_r.
  { exists (evts o1 ++ evts o2). split; [by apply Forall_app|by left]. }
  exists (evts o1 ++ evts o2
          ++ [Log levelDebug "replicating meta file" "object" (metaFileOf id)]).
  split.
  { apply Forall_app. split; [done|]. apply Forall_app. split; [done|].
    by repeat constructor. }
  right. split.
  - rewrite <- !app_assoc. do 2 f_equal. by destruct (nextFault (post o2)).
  - rewrite !transfersStarted_app, !transfersCompleted_app, E1, E2, (C2 eq_refl).
    reflexivity.
Qed.


(** ** The block transfer *)

(** The three ways a block transfer can go: it stops with an error before
    any object is transferred; it finds the block already replicated; it
    goes on to transfer the objects and commit, from a world that differs
    from the initial one only in its script. *)
Lemma EBR_cases rs id w :
  let o := ensureBlockIsReplicated rs id w in
  let opening := [blockStartLog id; FromGet (metaFileOf id)] in
  (∃ e fs, res o = Some e ∧ fs `suffix_of` faults w
     ∧ post o = mkWorld (toBkt w) (metrics w) fs
     ∧ (evts o = opening ∨ evts o = opening ++ [ToGet (metaFileOf id)]))
  ∨ (∃ fs, res o = None ∧ agrees rs (metaFileOf id) w ∧ fs `suffix_of` faults w
     ∧ post o = mkWorld (toBkt w) (alreadyInc (metrics w)) fs
     ∧ evts o = opening ++ [ToGet (metaFileOf id);
         Log levelDebug "skipping block as already replicated" "block_uuid" (ULID_String id)])
  ∨ (∃ c fs, objects (fromBkt rs) !! metaFileOf id = Some c ∧ fs `suffix_of` faults w
     ∧ let o1 := transferAndCommit rs id c (mkWorld (toBkt w) (metrics w) fs) in
       res o = res o1 ∧ post o = post o1
       ∧ evts o = opening ++ ToGet (metaFileOf id) :: evts o1).
Proof.
  unfold ensureBlockIsReplicated, agrees, metaFileOf, blockStartLog.
  set (mf := path_Join (ULID_String id) MetaFilename).
  set (bid := ULID_String id).
  cbn.
  next_fault e1 H1.
  { left. eexists _, _. split; [reflexivity|]. split; [|split; [reflexivity|auto]]. tails. }
  destruct (objects (fromBkt rs) !! mf) as [c|] eqn:Hsrc; cbn.
  2: { left. eexists _, _. split; [reflexivity|]. split; [|split; [reflexivity|auto]]. tails. }
  assert (Hgo : ∀ fs, fs `suffix_of` faults w →
    ∃ c0 fs0, Some c = Some c0 ∧ fs0 `suffix_of` faults w ∧
      let o1 := transferAndCommit rs id c0 (mkWorld (toBkt w) (metrics w) fs0) in
      res (transferAndCommit rs id c (mkWorld (toBkt w) (metrics w) fs)) = res o1
      ∧ post (transferAndCommit rs id c (mkWorld (toBkt w) (metrics w) fs)) = post o1
      ∧ Log levelDebug "ensuring block is replicated" "block_uuid" bid :: FromGet mf :: ToGet mf
          :: evts (transferAndCommit rs id c (mkWorld (toBkt w) (metrics w) fs))
        = [Log levelDebug "ensuring block is replicated" "block_uuid" bid; FromGet mf]
          ++ ToGet mf :: evts o1).
  { intros fs Hfs. exists c, fs. repeat split; auto. }
  next_fault e2 H2.
  - (* the Get on the target fails *)
    destruct (decide (Cause e2 = errNotFound)) as [Hc|Hc];
      [rewrite (bool_decide_true _ Hc)|rewrite (bool_decide_false _ Hc)]; cbn.
    + next_fault e3 H3.
      { left. eexists _, _. split; [reflexivity|]. split; [|split; [reflexivity|auto]]. tails. }
      right; right. apply Hgo. tails.
    + destruct (decide (Some e2 ≠ Some io_EOF)) as [He|He];
        [rewrite (bool_decide_true _ He)|rewrite (bool_decide_false _ He)]; cbn.
      { left. eexists _, _. split; [reflexivity|]. split; [|split; [reflexivity|auto]]. tails. }
      next_fault e3 H3.
      { left. eexists _, _. split; [reflexivity|]. split; [|split; [reflexivity|auto]]. tails. }
      right; right. apply Hgo. tails.
  - destruct (toBkt w !! mf) as [c'|] eqn:Hdst; cbn.
    + next_fault e3 H3.
      { left. eexists _, _. split; [reflexivity|]. split; [|split; [reflexivity|auto]]. tails. }
      next_fault e4 H4.
      { left. eexists _, _. split; [reflexivity|]. split; [|split; [reflexivity|auto]]. tails. }
      case_bool_decide; cbn.
      * right; left. eexists. subst c'. split; [reflexivity|]. split; [eauto|].
        split; [|split; reflexivity]. tails.
      * right; right. apply Hgo. tails.
    + rewrite (bool_decide_true (errNotFound = errNotFound)) by done. cbn.
      next_fault e3 H3.
      { left. eexists _, _. split; [reflexivity|]. split; [|split; [reflexivity|auto]]. tails. }
      right; right. apply Hgo. tails.
Qed.

(** The block transfer keeps every frame relation that the object transfers
    it runs, its commit and its already-replicated count keep. *)
Lemma EBR_preserves R `{!Frame R} rs id :
  (∀ name, name ≠ metaFileOf id → preserves R (ensureObjectReplicated rs name)) →
  (∀ c w, objects (fromBkt rs) !! metaFileOf id = Some c →
     R w (mkWorld (<[metaFileOf id := c]> (toBkt w)) (replicatedInc (metrics w))
            (faults w))) →
  (∀ w, agrees rs (metaFileOf id) w →
     R w (mkWorld (toBkt w) (alreadyInc (metrics w)) (faults w))) →
  preserves R (ensureBlockIsReplicated rs id).
Proof.
  intros Hobj Hcommit Halready w.
  destruct (EBR_cases rs id w)
    as [(e & fs & _ & Hfs & -> & _)
       |[(fs & _ & Ha & Hfs & -> & _)|(c & fs & Hc & Hfs & _ & -> & _)]].
  - by apply frame_suffix.
  - eapply frame_trans; [by apply (frame_suffix R w fs)|].
    by apply (Halready (mkWorld (toBkt w) (metrics w) fs)).
  - eapply frame_trans; [by apply (frame_suffix R w fs)|].
    apply TC_preserves; auto.
Qed.

Lemma blockTransfers_app a b : blockTransfers (a ++ b) = blockTransfers a ++ blockTransfers b.
Proof. apply omap_app. Qed.

Lemma blockTransfers_none evs : Forall notBlockStart evs → blockTransfers evs = [].
Proof.
  induction 1 as [|e evs He _ IH]; [done|].
  unfold blockTransfers in *. simpl. by rewrite He.
Qed.

(** A block transfer writes the opening record of its block and of no
    other block. *)
Lemma EBR_blockTransfers rs id w :
  blockTransfers (evts (ensureBlockIsReplicated rs id w)) = [ULID_String id].
Proof.
  destruct (EBR_cases rs id w)
    as [(e & fs & _ & _ & _ & [-> | ->])
       |[(fs & _ & _ & _ & _ & ->)|(c & fs & _ & _ & _ & _ & ->)]];
    try reflexivity.
  rewrite blockTransfers_app. cbn [app].
  change (ToGet (metaFileOf id) :: ?l) with ([ToGet (metaFileOf id)] ++ l).
  rewrite blockTransfers_app, (blockTransfers_none (evts _)); [reflexivity|].
  apply TC_notBlockStart.
Qed.

(** A block transfer that succeeds leaves the destination with the meta
    file of the source. *)
Lemma EBR_success_agrees rs id w :
  res (ensureBlockIsReplicated rs id w) = None →
  agrees rs (metaFileOf id) (post (ensureBlockIsReplicated rs id w)).
Proof.
  destruct (EBR_cases rs id w)
    as [(e & fs & -> & _)
       |[(fs & _ & Ha & _ & -> & _)|(c & fs & Hc & _ & -> & -> & _)]].
  - discriminate.
  - intros _. exact Ha.
  - intros Hr.
    pose proof (TC_result rs id c (mkWorld (toBkt w) (metrics w) fs)) as Ht.
    cbv zeta in Ht. rewrite Hr in Ht. destruct Ht as [_ Ht].
    exists c. done.
Qed.

Lemma Out_eq {A} (o : Out A) a w evs :
  res o = a → post o = w → evts o = evs → o = mkOut a w evs.
Proof. destruct o. simpl. congruence. Qed.

Lemma noFaults_S n w : noFaults (S n) w ↔ nextFault w = None ∧ noFaults n (advance w).
Proof.
  unfold noFaults, nextFault, advance. simpl.
  destruct (faults w) as [|f fs]; simpl.
  - rewrite take_nil. split; [done|constructor].
  - rewrite Forall_cons. done.
Qed.

Lemma noFaults_nil n w : faults w = [] → noFaults n w.
Proof. unfold noFaults. intros ->. rewrite take_nil. constructor. Qed.

(** With the meta file of the source already at the destination and the
    four reads going through, the block transfer only counts the block. *)
Lemma EBR_already rs id w c :
  objects (fromBkt rs) !! metaFileOf id = Some c →
  toBkt w !! metaFileOf id = Some c →
  noFaults 4 w →
  ensureBlockIsReplicated rs id w
  = mkOut None
      (mkWorld (toBkt w) (alreadyInc (metrics w)) (tail (tail (tail (tail (faults w))))))
      [blockStartLog id; FromGet (metaFileOf id); ToGet (metaFileOf id);
       Log levelDebug "skipping block as already replicated" "block_uuid" (ULID_String id)].
Proof.
  intros Hs Hd (H1 & (H2 & (H3 & (H4 & _)%noFaults_S)%noFaults_S)%noFaults_S)%noFaults_S.
  apply Out_eq; unfold ensureBlockIsReplicated, metaFileOf, blockStartLog in *.
  all: cbn; rewrite H1; cbn; rewrite Hs; cbn; rewrite H2; cbn; rewrite Hd; cbn.
  all: rewrite H3; cbn; rewrite H4; cbn; rewrite bool_decide_true by done.
  all: reflexivity.
Qed.

(** An element that occurs once, at the end: every split of the list at an
    occurrence is the split at the end. *)
Lemma split_at_last {A} (x : A) evs before after :
  Forall (λ e, e ≠ x) evs → evs ++ [x] = before ++ x :: after →
  before = evs ∧ after = [].
Proof.
  intros Hne. revert before.
  induction Hne as [|e evs He _ IH]; intros [|y before] Heq; simpl in Heq.
  - by injection Heq as <-.
  - injection Heq as _ Heq. by destruct before.
  - injection Heq as ->. done.
  - injection Heq as <- Heq. destruct (IH _ Heq) as [-> ->]. done.
Qed.

Lemma no_split_at {A} (x : A) evs before after :
  Forall (λ e, e ≠ x) evs → evs ≠ before ++ x :: after.
Proof.
  intros Hne ->. apply Forall_app in Hne as [_ Hne].
  apply Forall_cons in Hne as [Hx _]. done.
Qed.

(** A block transfer uploads the meta file, if at all, as its last step,
    after object transfers that have all completed. *)
Lemma EBR_upload_last rs id w before after :
  evts (ensureBlockIsReplicated rs id w) = before ++ ToUpload (metaFileOf id) :: after →
  after = [] ∧ transfersCompleted before = transfersStarted before.
Proof.
  destruct (EBR_cases rs id w)
    as [(e & fs & _ & _ & _ & [-> | ->])
       |[(fs & _ & _ & _ & _ & ->)|(c & fs & _ & _ & _ & _ & ->)]].
  - intros H. exfalso. revert H. apply no_split_at. by repeat constructor.
  - intros H. exfalso. revert H. apply no_split_at. by repeat constructor.
  - intros H. exfalso. revert H. apply no_split_at. by repeat constructor.
  - destruct (TC_upload_last rs id c (mkWorld (toBkt w) (metrics w) fs))
      as (evs & Hevs & [-> | [-> Hc]]).
    + intros H. exfalso. revert H. apply no_split_at.
      apply Forall_app. split; [by repeat constructor|].
      constructor; [done|exact Hevs].
    + change (ToGet (metaFileOf id) :: ?l) with ([ToGet (metaFileOf id)] ++ l).
      rewrite !app_assoc. intros H.
      apply split_at_last in H as [-> ->].
      * split; [done|].
        rewrite !transfersStarted_app, !transfersCompleted_app, Hc. reflexivity.
      * apply Forall_app. split; [by repeat constructor|exact Hevs].
Qed.


(** ** Claims on the object transfer and the block transfer *)

(** C8.  When the existence check on the destination reports the object
    present, whatever its bytes, [ensureObjectReplicated] returns success,
    makes no call on the source and no upload, and leaves the destination
    and every counter as they were.  A call on the source, an upload, a
    change of the destination or of [objectsReplicated] happens only when
    the check reported the object absent; the object is then read from the
    source and, if the transfer succeeds, stored under the same path with
    the bytes of the source, and [objectsReplicated] is incremented. *)
Theorem C8_object_present_is_skipped rs objectName w :
  let o := ensureObjectReplicated rs objectName w in
  (res (toBkt_Exists objectName w) = (true, None) →
     res o = None ∧ fromBktCalls (evts o) = [] ∧ uploads (evts o) = []
     ∧ toBktCalls (evts o) = [ToExists objectName]
     ∧ toBkt (post o) = toBkt w ∧ metrics (post o) = metrics w)
  ∧ (fromBktCalls (evts o) ≠ [] ∨ uploads (evts o) ≠ []
     ∨ toBkt (post o) ≠ toBkt w
     ∨ objectsReplicated (metrics (post o)) ≠ objectsReplicated (metrics w) →
     res (toBkt_Exists objectName w) = (false, None))
  ∧ (res (toBkt_Exists objectName w) = (false, None) →
     fromBktCalls (evts o) = [FromGet objectName]
     ∧ (res o = None →
        ∃ c, objects (fromBkt rs) !! objectName = Some c
          ∧ toBkt (post o) = <[objectName := c]> (toBkt w)
          ∧ metrics (post o) = objInc (metrics w)
          ∧ uploads (evts o) = [ToUpload objectName])).
Proof.
  unfold ensureObjectReplicated, toBkt_Exists. cbn.
  next_fault e1 H1.
  { split; [discriminate|]. split; [|discriminate]. intros [?|[?|[?|?]]]; done. }
  destruct (toBkt w !! objectName) as [c'|] eqn:Hd; cbn.
  { split; [done|]. split; [|discriminate]. intros [?|[?|[?|?]]]; done. }
  split; [discriminate|]. split; [done|]. intros _.
  next_fault e2 H2; [done|].
  destruct (objects (fromBkt rs) !! objectName) as [c|] eqn:Hs; cbn; [|done].
  next_fault e3 H3; [done|].
  split; [done|]. intros _. by exists c.
Qed.

(** The check reports the chunk of D present, with other bytes than the
    source has. *)
Lemma C8_witness :
  let o := ensureObjectReplicated Scenario.rs (Scenario.chunkOf Scenario.idD)
             Scenario.wChunk in
  res o = None ∧ fromBktCalls (evts o) = [] ∧ uploads (evts o) = []
  ∧ toBktCalls (evts o) = [ToExists (Scenario.chunkOf Scenario.idD)]
  ∧ toBkt (post o) = toBkt Scenario.wChunk
  ∧ metrics (post o) = metrics Scenario.wChunk.
Proof.
  apply (C8_object_present_is_skipped Scenario.rs
           (Scenario.chunkOf Scenario.idD) Scenario.wChunk).
  vm_compute. reflexivity.
Defined.

(** C6.  When the destination holds, for the block, a meta file equal byte
    for byte to the one of the source, and the reads of the two files go
    through, [ensureBlockIsReplicated] returns success, increments
    [blocksAlreadyReplicated] and no other counter, and its only call on the
    destination is the Get of the meta file: no existence check, no copy,
    no upload; the destination is unchanged. *)
Theorem C6_committed_block_is_skipped rs id w c :
  objects (fromBkt rs) !! metaFileOf id = Some c →
  toBkt w !! metaFileOf id = Some c →
  noFaults 4 w →
  let o := ensureBlockIsReplicated rs id w in
  res o = None
  ∧ metrics (post o) = alreadyInc (metrics w)
  ∧ toBkt (post o) = toBkt w
  ∧ toBktCalls (evts o) = [ToGet (metaFileOf id)]
  ∧ fromBktCalls (evts o) = [FromGet (metaFileOf id)]
  ∧ uploads (evts o) = [].
Proof.
  intros Hs Hd Hf. cbv zeta. rewrite (EBR_already rs id w c Hs Hd Hf). done.
Qed.

Lemma C6_witness :
  let o := ensureBlockIsReplicated Scenario.rs Scenario.idD Scenario.wCommitted in
  res o = None
  ∧ metrics (post o) = alreadyInc (metrics Scenario.wCommitted)
  ∧ toBkt (post o) = toBkt Scenario.wCommitted
  ∧ toBktCalls (evts o) = [ToGet (metaFileOf Scenario.idD)]
  ∧ fromBktCalls (evts o) = [FromGet (metaFileOf Scenario.idD)]
  ∧ uploads (evts o) = [].
Proof.
  apply (C6_committed_block_is_skipped Scenario.rs Scenario.idD Scenario.wCommitted
           (Scenario.bytesOf "meta D")).
  - vm_compute. reflexivity.
  - vm_compute. reflexivity.
  - vm_compute. constructor.
Defined.

(** C10.  A call of [ensureBlockIsReplicated] that returns success
    increments exactly one of [blocksAlreadyReplicated] and
    [blocksReplicated], by one; a call that returns an error increments
    neither. *)
Theorem C10_one_block_counter_per_success rs id w :
  let o := ensureBlockIsReplicated rs id w in
  let a := blocksAlreadyReplicated (metrics w) in
  let r := blocksReplicated (metrics w) in
  let a' := blocksAlreadyReplicated (metrics (post o)) in
  let r' := blocksReplicated (metrics (post o)) in
  match res o with
  | None => (a' = S a ∧ r' = r) ∨ (a' = a ∧ r' = S r)
  | Some _ => a' = a ∧ r' = r
  end.
Proof.
  cbv zeta.
  destruct (EBR_cases rs id w)
    as [(e & fs & -> & _ & -> & _)
       |[(fs & -> & _ & _ & -> & _)|(c & fs & _ & _ & -> & -> & _)]].
  - done.
  - by left.
  - pose proof (TC_result rs id c (mkWorld (toBkt w) (metrics w) fs)) as Ht.
    cbv zeta in Ht. unfold blockCounters in Ht.
    destruct (res (transferAndCommit rs id c _)) as [e|].
    + by injection Ht.
    + destruct Ht as [Ht _]. right. by injection Ht.
Qed.

(** C1.  If, in a block transfer, the transfer of a chunk object or of the
    index object fails (it is started and does not complete) and the
    destination held no meta file for the block before, then
    [ensureBlockIsReplicated] returns an error and the destination holds no
    meta file for the block after.  The upload of the meta file is the last
    step: wherever it stands among the events of a block transfer, nothing
    follows it and every object transfer started before it has completed. *)
Theorem C1_commit_last rs id w :
  let o := ensureBlockIsReplicated rs id w in
  (toBkt w !! metaFileOf id = None →
   transfersCompleted (evts o) < transfersStarted (evts o) →
   res o ≠ None ∧ toBkt (post o) !! metaFileOf id = None)
  ∧ (∀ before after,
       evts o = before ++ ToUpload (metaFileOf id) :: after →
       after = [] ∧ transfersCompleted before = transfersStarted before).
Proof.
  cbv zeta. split; [|apply EBR_upload_last]. intros Hd.
  destruct (EBR_cases rs id w)
    as [(e & fs & _ & _ & _ & [-> | ->])
       |[(fs & _ & _ & _ & _ & ->)|(c & fs & _ & _ & -> & -> & ->)]].
  - intros H. exfalso. revert H. vm_compute. lia.
  - intros H. exfalso. revert H. vm_compute. lia.
  - intros H. exfalso. revert H. vm_compute. lia.
  - rewrite transfersStarted_app, transfersCompleted_app.
    change (ToGet (metaFileOf id) :: ?l) with ([ToGet (metaFileOf id)] ++ l).
    rewrite transfersStarted_app, transfersCompleted_app.
    replace (transfersStarted [blockStartLog id; FromGet (metaFileOf id)]) with 0%nat
      by reflexivity.
    replace (transfersCompleted [blockStartLog id; FromGet (metaFileOf id)]) with 0%nat
      by reflexivity.
    replace (transfersStarted [ToGet (metaFileOf id)]) with 0%nat by reflexivity.
    replace (transfersCompleted [ToGet (metaFileOf id)]) with 0%nat by reflexivity.
    intros H.
    destruct (TC_counts rs id c (mkWorld (toBkt w) (metrics w) fs) H) as [Hr Hm].
    split; [done|]. by rewrite Hm.
Qed.

(** The transfer of the index of D fails after its chunk has landed. *)
Lemma C1_witness :
  let o := ensureBlockIsReplicated Scenario.rs Scenario.idD Scenario.wIndexFails in
  res o ≠ None ∧ toBkt (post o) !! metaFileOf Scenario.idD = None.
Proof.
  destruct (C1_commit_last Scenario.rs Scenario.idD Scenario.wIndexFails) as [H _].
  apply H.
  - vm_compute. reflexivity.
  - vm_compute. lia.
Defined.


(** ** Sorting by a key *)

Section Sorting.
Context {A : Type} (key : A → Z).

Local Abbreviation less := (λ a b : A, (key a <? key b)%Z).
Local Abbreviation le := (λ a b : A, (key a ≤ key b)%Z).
Local Abbreviation lt := (λ a b : A, (key a < key b)%Z).

Lemma insertSorted_perm x l : insertSorted less x l ≡ₚ x :: l.
Proof.
  induction l as [|y l IH]; simpl; [done|].
  destruct (key x <? key y)%Z; [done|]. rewrite IH. apply Permutation_swap.
Qed.

Lemma insertSorted_sorted x l :
  StronglySorted le l → StronglySorted le (insertSorted less x l).
Proof.
  induction 1 as [|y l Hl IH Hy]; simpl.
  - repeat constructor.
  - destruct (key x <? key y)%Z eqn:Hxy.
    + apply Z.ltb_lt in Hxy. constructor; [by constructor|].
      constructor; [lia|].
      eapply Forall_impl; [exact Hy|]. intros z Hz. simpl in Hz. lia.
    + apply Z.ltb_ge in Hxy. constructor; [done|].
      rewrite insertSorted_perm. by constructor.
Qed.

Lemma foldl_insert_perm l acc :
  foldl (λ acc x, insertSorted less x acc) acc l ≡ₚ acc ++ l.
Proof.
  revert acc. induction l as [|x l IH]; intros acc; simpl.
  - by rewrite app_nil_r.
  - rewrite IH, insertSorted_perm. simpl. apply Permutation_middle.
Qed.

Lemma foldl_insert_sorted l acc :
  StronglySorted le acc →
  StronglySorted le (foldl (λ acc x, insertSorted less x acc) acc l).
Proof.
  revert acc. induction l as [|x l IH]; intros acc Hacc; simpl; [done|].
  by apply IH, insertSorted_sorted.
Qed.

(** [sort.Slice] returns the elements it was given, in ascending order
    of their keys. *)
Lemma sort_Slice_perm l : sort_Slice less l ≡ₚ l.
Proof. apply (foldl_insert_perm l []). Qed.

Lemma sort_Slice_sorted l : StronglySorted le (sort_Slice less l).
Proof. apply foldl_insert_sorted. constructor. Qed.

Lemma sorted_strict l :
  NoDup (map key l) → StronglySorted le l → StronglySorted lt l.
Proof.
  intros Hnd. induction 1 as [|x l Hl IH Hx]; [constructor|].
  simpl in Hnd. apply NoDup_cons in Hnd as [Hnin Hnd].
  constructor; [by apply IH|].
  apply Forall_forall. intros y Hy.
  rewrite Forall_forall in Hx. specialize (Hx y Hy). simpl in Hx.
  assert (key x ≠ key y); [|lia].
  intros Heq. apply Hnin. rewrite Heq. by apply list_elem_of_fmap_2.
Qed.

(** On keys that are pairwise distinct the order is strict. *)
Lemma sort_Slice_strict l :
  NoDup (map key l) → StronglySorted lt (sort_Slice less l).
Proof.
  intros Hnd. apply sorted_strict; [|apply sort_Slice_sorted].
  assert (Hp : map key (sort_Slice less l) ≡ₚ map key l)
    by apply Permutation_map, sort_Slice_perm.
  by rewrite Hp.
Qed.

End Sorting.

(** ** The block filter *)

Lemma forallb_Permutation {A} (f : A → bool) l l' :
  l ≡ₚ l' → forallb f l = forallb f l'.
Proof.
  induction 1 as [|x l l' _ IH|x y l|l l' l'' _ IH1 _ IH2]; simpl.
  - done.
  - by rewrite IH.
  - by destruct (f x), (f y).
  - congruence.
Qed.

Lemma Filter_verdict bf b :
  fst (Filter bf b)
  = negb (bool_decide (size (Labels (Meta_Thanos b)) = 0%nat))
    && Selector_Matches (labelSelector bf) (labels_FromMap (Labels (Meta_Thanos b)))
    && bool_decide (Downsample_Resolution (Meta_Thanos b) ∈ resolutionLevels bf)
    && bool_decide (Compaction_Level (Meta_BlockMeta b) ∈ compactionLevels bf).
Proof.
  unfold Filter.
  destruct (bool_decide (size _ = 0%nat)); [done|].
  destruct (Selector_Matches _ _); [|done].
  destruct (bool_decide (_ ∈ resolutionLevels bf)); [|done].
  by destruct (bool_decide (_ ∈ compactionLevels bf)).
Qed.

(** C5.  [BlockFilter.Filter] returns true exactly when the external labels
    of the block are not empty, the label selector matches them, the
    resolution of the block is among the allowed resolutions and its
    compaction level is among the allowed levels; in whatever order the four
    tests are taken, their conjunction is the verdict. *)
Theorem C5_filter_is_conjunction bf b :
  let labelled := negb (bool_decide (size (Labels (Meta_Thanos b)) = 0%nat)) in
  let matched :=
    Selector_Matches (labelSelector bf) (labels_FromMap (Labels (Meta_Thanos b))) in
  let resolution :=
    bool_decide (Downsample_Resolution (Meta_Thanos b) ∈ resolutionLevels bf) in
  let level :=
    bool_decide (Compaction_Level (Meta_BlockMeta b) ∈ compactionLevels bf) in
  (fst (Filter bf b) = true ↔
     Labels (Meta_Thanos b) ≠ ∅
     ∧ matched = true
     ∧ Downsample_Resolution (Meta_Thanos b) ∈ resolutionLevels bf
     ∧ Compaction_Level (Meta_BlockMeta b) ∈ compactionLevels bf)
  ∧ (∀ order, order ≡ₚ [labelled; matched; resolution; level] →
       forallb id order = fst (Filter bf b)).
Proof.
  cbv zeta. split.
  - rewrite Filter_verdict, !andb_true_iff, negb_true_iff,
      bool_decide_eq_false, !bool_decide_eq_true, map_size_empty_iff.
    tauto.
  - intros order Hp. rewrite (forallb_Permutation id _ _ Hp), Filter_verdict.
    simpl. by rewrite andb_true_r, !andb_assoc.
Qed.

(** Block D passes the filter of the concrete scenario, with the tests taken
    last to first. *)
Lemma C5_witness :
  fst (Filter Scenario.bf Scenario.metaD) = true
  ∧ forallb id [true; true; true; true] = fst (Filter Scenario.bf Scenario.metaD).
Proof.
  destruct (C5_filter_is_conjunction Scenario.bf Scenario.metaD) as [H1 H2].
  split.
  - apply H1. vm_compute. repeat split; try reflexivity. discriminate.
  - apply (H2 [true; true; true; true]). vm_compute. reflexivity.
Defined.


(** ** The discovery of blocks *)

#[global] Instance DiscoveryFrame_toBkt : DiscoveryFrame (sameOn toBkt).
Proof. split; [apply _|done]. Qed.

#[global] Instance DiscoveryFrame_lookup p : DiscoveryFrame (sameOn (λ w, toBkt w !! p)).
Proof. split; [apply _|done]. Qed.

#[global] Instance DiscoveryFrame_counters : DiscoveryFrame (sameOn replicationCounters).
Proof.
  split; [apply _|]. intros w f Hf. unfold sameOn, replicationCounters. simpl.
  destruct (Hf (metrics w)) as (-> & -> & ->). done.
Qed.

#[global] Instance DiscoveryFrame_staysFaultFree : DiscoveryFrame staysFaultFree.
Proof. split; [apply _|]. by intros w f _ H. Qed.

#[global] Instance DiscoveryFrame_keepsObjects rs : DiscoveryFrame (keepsObjects rs).
Proof. split; [apply _|]. intros w f _ p c Hp. by left. Qed.

#[global] Instance DiscoveryFrame_keepsAgree rs p : DiscoveryFrame (keepsAgree rs p).
Proof. split; [apply _|]. by intros w f _ H. Qed.

Section ScriptedRules.

Lemma scripted_ret {A} (a : A) : scripted (ret a).
Proof. by intros w w' H. Qed.

Lemma scripted_bind {A B} (m : M A) (f : A → M B) :
  scripted m → (∀ a, scripted (f a)) → scripted (bind m f).
Proof.
  intros Hm Hf w w' H. rewrite !bind_res, !bind_post.
  destruct (Hm w w' H) as [-> Hp]. by apply Hf.
Qed.

Lemma scripted_emit e : scripted (emit e).
Proof. by intros w w' H. Qed.

Lemma scripted_consult : scripted consult.
Proof. intros w w' H. unfold consult, nextFault. simpl. by rewrite H. Qed.

Lemma scripted_updMetrics f : scripted (updMetrics f).
Proof. by intros w w' H. Qed.

Lemma scripted_visitEntries {A} (f : string → A → M (option error * A)) names :
  (∀ n acc, scripted (f n acc)) → ∀ acc, scripted (visitEntries f names acc).
Proof.
  intros Hf. induction names as [|n names IH]; intros acc; simpl.
  - apply scripted_ret.
  - apply scripted_bind; [apply scripted_consult|intros [e|]].
    + apply scripted_ret.
    + apply scripted_bind; [apply Hf|intros [[e|] acc']]; simpl.
      * apply scripted_ret.
      * apply IH.
Qed.

Lemma scripted_Iter {A} rs dir (f : string → A → M (option error * A)) acc :
  (∀ n acc, scripted (f n acc)) → scripted (fromBkt_Iter rs dir f acc).
Proof.
  intros Hf. unfold fromBkt_Iter.
  apply scripted_bind; [apply scripted_emit|intros _].
  apply scripted_bind; [by apply scripted_visitEntries|intros [[e|] acc']]; simpl.
  - apply scripted_ret.
  - apply scripted_bind; [apply scripted_consult|intros fl]. apply scripted_ret.
Qed.

Lemma scripted_loadMeta rs id : scripted (loadMeta rs id).
Proof.
  unfold loadMeta, fetcher_Fetch.
  apply scripted_bind.
  - apply scripted_bind; [apply scripted_emit|intros _].
    apply scripted_bind; [apply scripted_consult|intros [e|]]; apply scripted_ret.
  - intros [metas [e|]]; simpl.
    + case_bool_decide; apply scripted_ret.
    + destruct (metas !! id); apply scripted_ret.
Qed.
End ScriptedRules.

Section Discovery.
Variable IsBlockDir : string → option ULID.

Lemma preserves_origin R `{!DiscoveryFrame R} f :
  (∀ m, blocksAlreadyReplicated (f m) = blocksAlreadyReplicated m
        ∧ blocksReplicated (f m) = blocksReplicated m
        ∧ objectsReplicated (f m) = objectsReplicated m) →
  preserves R (updMetrics f).
Proof. intros Hf w. by apply df_origin. Qed.

Lemma collectBlock_preserves R `{!DiscoveryFrame R} rs name acc :
  preserves R (collectBlock IsBlockDir rs name acc).
Proof.
  unfold collectBlock, originIterations_Inc, originMetaLoads_Inc,
    originPartialMeta_Inc.
  apply preserves_bind; [apply _|apply preserves_origin; [apply _|by (intros m; repeat split)]|intros _].
  destruct (IsBlockDir name) as [id|]; [|by apply (preserves_ret R)].
  apply preserves_bind; [apply _|apply preserves_origin; [apply _|by (intros m; repeat split)]|intros _].
  apply preserves_bind; [apply _|by apply (preserves_loadMeta R)|intros [[meta part] err]].
  simpl. destruct part.
  - apply preserves_bind; [apply _|apply preserves_origin; [apply _|by (intros m; repeat split)]|intros _].
    apply preserves_bind; [apply _|by apply (preserves_logf R)|intros _].
    by apply (preserves_ret R).
  - destruct err; [by apply (preserves_ret R)|].
    destruct meta; [|by apply (preserves_ret R)].
    case_bool_decide;
      (apply preserves_bind; [apply _|by apply (preserves_logf R)|intros _]);
      by apply (preserves_ret R).
Qed.

Lemma discovery_preserves R `{!DiscoveryFrame R} rs :
  preserves R (discovery IsBlockDir rs).
Proof.
  apply preserves_Iter; [apply _|]. intros n acc _. by apply collectBlock_preserves.
Qed.

Lemma collectBlock_isDiscovery rs name acc :
  emits isDiscovery (collectBlock IsBlockDir rs name acc).
Proof.
  unfold collectBlock, originIterations_Inc, originMetaLoads_Inc,
    originPartialMeta_Inc, loadMeta, fetcher_Fetch.
  repeat emits_step; try done.
Qed.

Lemma discovery_isDiscovery rs : emits isDiscovery (discovery IsBlockDir rs).
Proof.
  apply emits_Iter; [done|]. intros n acc _. apply collectBlock_isDiscovery.
Qed.

Lemma collectBlock_scripted rs name acc : scripted (collectBlock IsBlockDir rs name acc).
Proof.
  unfold collectBlock.
  apply scripted_bind; [apply scripted_updMetrics|intros _].
  destruct (IsBlockDir name) as [id|]; [|by apply scripted_ret].
  apply scripted_bind; [apply scripted_updMetrics|intros _].
  apply scripted_bind; [apply scripted_loadMeta|intros [[meta part] err]].
  simpl. destruct part.
  - apply scripted_bind; [apply scripted_updMetrics|intros _].
    apply scripted_bind; [apply scripted_emit|intros _].
    by apply scripted_ret.
  - destruct err; [by apply scripted_ret|].
    destruct meta; [|by apply scripted_ret].
    case_bool_decide;
      (apply scripted_bind; [apply scripted_emit|intros _]);
      by apply scripted_ret.
Qed.

Lemma discovery_scripted rs : scripted (discovery IsBlockDir rs).
Proof. apply scripted_Iter. intros n acc. apply collectBlock_scripted. Qed.

(** The loop that keeps the accepted blocks computes a filter. *)
Lemma selectCandidates_spec rs avail cands w :
  let o := selectCandidates rs avail cands w in
  res o = cands ++ List.filter (blockFilter rs) avail
  ∧ post o = w ∧ Forall isDiscovery (evts o).
Proof.
  revert cands. induction avail as [|b avail IH]; intros cands; simpl.
  - by rewrite app_nil_r.
  - destruct (blockFilter rs b); [|apply IH].
    destruct (IH (cands ++ [b])) as (Hr & Hp & He). cbn.
    rewrite Hr, Hp, <- app_assoc. repeat split.
    constructor; [done|]. exact He.
Qed.
End Discovery.


(** ** The loop over the candidates *)

Lemma RB_preserves R `{!Frame R} rs l :
  (∀ id, preserves R (ensureBlockIsReplicated rs id)) →
  preserves R (replicateBlocks rs l).
Proof.
  intros H. induction l as [|b l IH]; simpl.
  - by apply (preserves_ret R).
  - apply preserves_bind; [done..|intros [e|]]; [by apply (preserves_ret R)|done].
Qed.

(** The block transfers of the loop are those of a prefix of the
    candidates, in order: all of them when the loop succeeds. *)
Lemma RB_transfers rs l w :
  let o := replicateBlocks rs l w in
  ∃ transferred, transferred `prefix_of` l
    ∧ blockTransfers (evts o) = map blockIDOf transferred
    ∧ (res o = None → transferred = l).
Proof.
  revert w. induction l as [|b l IH]; intros w; cbn.
  - exists []. done.
  - rewrite blockTransfers_app, EBR_blockTransfers.
    destruct (res (ensureBlockIsReplicated rs _ w)) as [e|]; cbn.
    + exists [b]. split; [by apply prefix_cons, prefix_nil|]. done.
    + destruct (IH (post (ensureBlockIsReplicated rs (bm_ULID (Meta_BlockMeta b)) w)))
        as (tr & Hp & Ht & Hr).
      exists (b :: tr). split; [by apply prefix_cons|].
      split; [by rewrite Ht|]. intros Hn. by rewrite (Hr Hn).
Qed.


Lemma EBR_keepsAgree rs id p : preserves (keepsAgree rs p) (ensureBlockIsReplicated rs id).
Proof.
  apply EBR_preserves; [apply _|..].
  - intros name _. apply EOR_keepsAgree.
  - intros c w Hc (c' & Hd & Hs). unfold agrees. simpl.
    destruct (decide (p = metaFileOf id)) as [->|Hne].
    + exists c. by rewrite lookup_insert_eq.
    + exists c'. by rewrite lookup_insert_ne.
  - by intros w _ H.
Qed.

Lemma EBR_keepsObjects rs id : preserves (keepsObjects rs) (ensureBlockIsReplicated rs id).
Proof.
  apply EBR_preserves; [apply _|..].
  - intros name _. apply EOR_keepsObjects.
  - intros c w Hc p c' Hp. unfold agrees. simpl.
    destruct (decide (p = metaFileOf id)) as [->|Hne].
    + right. split; [by exists id|]. exists c. by rewrite lookup_insert_eq.
    + left. by rewrite lookup_insert_ne.
  - intros w _ p c Hp. by left.
Qed.

Lemma EBR_staysFaultFree rs id : preserves staysFaultFree (ensureBlockIsReplicated rs id).
Proof.
  apply EBR_preserves; [apply _|..].
  - intros name _. apply EOR_staysFaultFree.
  - by intros c w _ H.
  - by intros w _ H.
Qed.

(** After a loop that succeeds the destination has the meta file of the
    source for every candidate. *)
Lemma RB_success_agrees rs l w :
  res (replicateBlocks rs l w) = None →
  Forall (λ b, agrees rs (metaFileOf (bm_ULID (Meta_BlockMeta b)))
                 (post (replicateBlocks rs l w))) l.
Proof.
  revert w. induction l as [|b l IH]; intros w; cbn; [constructor|].
  destruct (res (ensureBlockIsReplicated rs (bm_ULID (Meta_BlockMeta b)) w)) as [e|] eqn:Hb;
    cbn; [discriminate|].
  intros Hl. constructor; [|by apply IH].
  apply (RB_preserves (keepsAgree rs (metaFileOf (bm_ULID (Meta_BlockMeta b)))) rs l
           (λ id, EBR_keepsAgree rs id _)).
  by apply EBR_success_agrees.
Qed.

(** Over candidates that are all committed, with a script that is
    exhausted, the loop only counts. *)
Lemma RB_idle rs l w :
  faults w = [] →
  Forall (λ b, agrees rs (metaFileOf (bm_ULID (Meta_BlockMeta b))) w) l →
  let o := replicateBlocks rs l w in
  res o = None ∧ toBkt (post o) = toBkt w ∧ faults (post o) = []
  ∧ uploads (evts o) = []
  ∧ blocksAlreadyReplicated (metrics (post o))
    = (blocksAlreadyReplicated (metrics w) + length l)%nat
  ∧ blocksReplicated (metrics (post o)) = blocksReplicated (metrics w)
  ∧ objectsReplicated (metrics (post o)) = objectsReplicated (metrics w).
Proof.
  revert w. induction l as [|b l IH]; intros w Hf Ha; cbn.
  - repeat split; first [done|simpl; lia].
  - apply Forall_cons in Ha as [(c & Hd & Hs) Ha].
    rewrite (EBR_already rs _ w c Hs Hd (noFaults_nil 4 w Hf)). simpl.
    set (w1 := mkWorld _ _ _).
    destruct (IH w1) as (Hr & Hb & Hfs & Hu & Hc1 & Hc2 & Hc3).
    { unfold w1. simpl. by rewrite Hf. }
    { eapply Forall_impl; [exact Ha|]. by intros b' Hb'. }
    rewrite Hr, Hb, Hfs, Hc1, Hc2, Hc3. unfold uploads in *.
    repeat split; first [done|simpl; lia].
Qed.


(** ** The replication pass *)

Section PassClaims.
Variable IsBlockDir : string → option ULID.

(** A pass is its discovery and, when that succeeds, the loop over the
    sorted candidates from the world the discovery left. *)
Lemma execute_cases rs w :
  let o := execute IsBlockDir rs w in
  let od := discovery IsBlockDir rs w in
  let opening :=
    Log levelDebug "scanning blocks available blocks for replication" "" "" in
  match fst (res od) with
  | Some e =>
      res o = Some (withMessage e "iterate over origin bucket")
      ∧ post o = post od ∧ evts o = opening :: evts od
  | None =>
      let ob := replicateBlocks rs (sortedCandidates IsBlockDir rs w) (post od) in
      ∃ evs, Forall isDiscovery evs
        ∧ res o = res ob ∧ post o = post ob
        ∧ evts o = opening :: evts od ++ evs ++ evts ob
  end.
Proof.
  unfold execute, sortedCandidates, candidates, discovery. cbn.
  set (od := fromBkt_Iter rs "" (collectBlock IsBlockDir rs) [] w).
  destruct (res od) as [[e|] avail]; cbn; [by rewrite app_nil_r|].
  destruct (selectCandidates_spec rs avail [] (post od)) as (Hr & Hp & He).
  rewrite Hr, Hp. simpl. eexists. split; [exact He|]. repeat split; reflexivity.
Qed.

Lemma isDiscovery_blockTransfers evs :
  Forall isDiscovery evs → blockTransfers evs = [].
Proof.
  intros H. apply blockTransfers_none.
  eapply Forall_impl; [exact H|]. by intros e [He _].
Qed.

Lemma isDiscovery_uploads evs : Forall isDiscovery evs → uploads evs = [].
Proof.
  induction 1 as [|e evs [_ He] _ IH]; [done|].
  unfold uploads in *. simpl. rewrite IH. by destruct e.
Qed.

Lemma uploads_app a b : uploads (a ++ b) = uploads a ++ uploads b.
Proof. apply List.filter_app. Qed.

(** The block transfers of a pass: none when the discovery fails, else
    those of the loop. *)
Lemma execute_blockTransfers rs w :
  let o := execute IsBlockDir rs w in
  let od := discovery IsBlockDir rs w in
  blockTransfers (evts o)
  = match fst (res od) with
    | Some _ => []
    | None => blockTransfers
                (evts (replicateBlocks rs (sortedCandidates IsBlockDir rs w) (post od)))
    end.
Proof.
  cbv zeta. pose proof (execute_cases rs w) as H. cbv zeta in H.
  pose proof (isDiscovery_blockTransfers _ (discovery_isDiscovery IsBlockDir rs w)) as Hd.
  destruct (fst (res (discovery IsBlockDir rs w))) as [e|].
  - destruct H as (_ & _ & ->).
    change (?a :: ?l) with ([a] ++ l). by rewrite blockTransfers_app, Hd.
  - destruct H as (evs & He & _ & _ & ->).
    change (?a :: ?l) with ([a] ++ l).
    rewrite !blockTransfers_app, Hd, (isDiscovery_blockTransfers _ He). done.
Qed.

End PassClaims.



(** ** Missing or partial metadata *)

(** [Iter] ends with the error of the first visit that fails. *)
Lemma visitEntries_stops {A} (f : string → A → M (option error * A))
    pre n rest acc w e :
  let o1 := visitEntries f pre acc w in
  fst (res o1) = None → nextFault (post o1) = None →
  fst (res (f n (snd (res o1)) (advance (post o1)))) = Some e →
  fst (res (visitEntries f (pre ++ n :: rest) acc w)) = Some e.
Proof.
  revert acc w. induction pre as [|x pre IH]; intros acc w; cbn.
  - intros _ -> He. cbn. by rewrite He.
  - destruct (nextFault w); cbn; [discriminate|].
    destruct (res (f x acc (advance w))) as [[e'|] acc']; cbn; [discriminate|].
    apply IH.
Qed.

Lemma loadMeta_cases rs id w :
  let f := fetcher_Fetch rs w in
  res (loadMeta rs id w)
  = match snd (res f) with
    | Some e =>
        (None, bool_decide (Cause e = ErrorSyncMetaNotFound),
         Some (withMessage e "fetch meta"))
    | None =>
        match fst (res f) !! id with
        | None => (None, true, None)
        | Some m => (Some m, false, None)
        end
    end.
Proof.
  unfold loadMeta, fetcher_Fetch. cbn.
  destruct (nextFault w) as [e|]; cbn.
  - by case_bool_decide.
  - by destruct (fetcher rs !! id).
Qed.

(** [loadMeta] never returns a nil meta without the partial flag or an
    error. *)
Lemma loadMeta_meta rs id w :
  snd (fst (res (loadMeta rs id w))) = false →
  snd (res (loadMeta rs id w)) = None →
  is_Some (fst (fst (res (loadMeta rs id w)))).
Proof.
  rewrite loadMeta_cases. cbv zeta.
  destruct (snd (res (fetcher_Fetch rs w))); [discriminate|].
  destruct (_ !! id); [eauto|discriminate].
Qed.

Opaque loadMeta fetcher_Fetch.

Section MetadataClaims.
Variable IsBlockDir : string → option ULID.

(** A pass whose discovery fails returns the error wrapped, transfers no
    block and leaves the destination as it was. *)
Lemma execute_discovery_fails rs w e :
  fst (res (discovery IsBlockDir rs w)) = Some e →
  let o := execute IsBlockDir rs w in
  res o = Some (withMessage e "iterate over origin bucket")
  ∧ blockTransfers (evts o) = [] ∧ uploads (evts o) = []
  ∧ toBkt (post o) = toBkt w.
Proof.
  intros Hd. cbv zeta. rewrite execute_blockTransfers.
  pose proof (execute_cases IsBlockDir rs w) as H. cbv zeta in H.
  rewrite Hd in H |- *. destruct H as (-> & -> & ->).
  repeat split.
  - change (?a :: ?l) with ([a] ++ l).
    by rewrite uploads_app, (isDiscovery_uploads _ (discovery_isDiscovery IsBlockDir rs w)).
  - apply (discovery_preserves IsBlockDir (sameOn toBkt)).
Qed.

(** C7.  [loadMeta] returns [isPartialOrMissing = true] exactly when the
    fetch fails with the sync-meta-not-found cause, or succeeds with a
    mapping that lacks the identifier; the visitor of the pass then skips
    the block: it returns no error, adds nothing to the available blocks
    and increments the partial-metadata counter.  Any other failure of the
    fetch makes [loadMeta] return that error without the flag; the
    visitor returns it wrapped, and a visit that returns an error ends the
    pass: [execute] returns the error, no block is transferred and the
    destination is untouched. *)
Theorem C7_missing_meta_is_skipped rs id w :
  let f := fetcher_Fetch rs w in
  let lm := loadMeta rs id w in
  let isPartialOrMissing := snd (fst (res lm)) in
  (isPartialOrMissing = true ↔
     (∃ e, snd (res f) = Some e ∧ Cause e = ErrorSyncMetaNotFound)
     ∨ (snd (res f) = None ∧ fst (res f) !! id = None))
  ∧ (∀ e, snd (res f) = Some e → Cause e ≠ ErrorSyncMetaNotFound →
       res lm = (None, false, Some (withMessage e "fetch meta")))
  ∧ (∀ name acc, IsBlockDir name = Some id →
       let v := collectBlock IsBlockDir rs name acc w in
       (isPartialOrMissing = true →
          res v = (None, acc)
          ∧ originPartialMeta (metrics (post v)) = S (originPartialMeta (metrics w)))
       ∧ (∀ e, snd (res f) = Some e → Cause e ≠ ErrorSyncMetaNotFound →
            res v = (Some (withMessage (withMessage e "fetch meta")
                             ("load meta for block " +:+ ULID_String id
                              +:+ " from origin bucket")), acc)))
  ∧ (∀ w0 pre name rest e,
       map (entryName "") (entries (fromBkt rs) "") = pre ++ name :: rest →
       let o1 := visitEntries (collectBlock IsBlockDir rs) pre [] w0 in
       fst (res o1) = None → nextFault (post o1) = None →
       fst (res (collectBlock IsBlockDir rs name (snd (res o1)) (advance (post o1))))
         = Some e →
       let o := execute IsBlockDir rs w0 in
       res o = Some (withMessage e "iterate over origin bucket")
       ∧ blockTransfers (evts o) = [] ∧ uploads (evts o) = []
       ∧ toBkt (post o) = toBkt w0).
Proof.
  cbv zeta. rewrite loadMeta_cases. cbv zeta.
  split; [|split; [|split]].
  - destruct (snd (res (fetcher_Fetch rs w))) as [e|]; simpl.
    + rewrite bool_decide_eq_true. split.
      * intros He. left. eauto.
      * intros [(e' & [= <-] & He)|[? _]]; done.
    + destruct (_ !! id) eqn:Hid; simpl.
      * split; [done|]. intros [(e' & ? & _)|[_ ?]]; done.
      * split; [|done]. intros _. by right.
  - intros e -> He. simpl. by rewrite bool_decide_false.
  - intros name acc Hname.
    assert (Hlm : ∀ w', faults w' = faults w →
              res (loadMeta rs id w') = res (loadMeta rs id w)).
    { intros w' Hw'. by apply scripted_loadMeta. }
    unfold collectBlock. cbn. rewrite Hname. cbn.
    rewrite (Hlm (mkWorld (toBkt w) (metaLoadsInc (iterationsInc (metrics w)))
                    (faults w)) eq_refl), loadMeta_cases. cbv zeta.
    assert (Hm : originPartialMeta
                   (metrics
                      (post (loadMeta rs id
                               (mkWorld (toBkt w)
                                  (metaLoadsInc (iterationsInc (metrics w)))
                                  (faults w)))))
                 = originPartialMeta (metrics w)).
    { assert (Hf : Frame (sameOn (λ w, originPartialMeta (metrics w))))
        by (by apply Frame_sameOn).
      apply (preserves_loadMeta (sameOn (λ w, originPartialMeta (metrics w))) rs id
               (mkWorld (toBkt w) (metaLoadsInc (iterationsInc (metrics w)))
                  (faults w))). }
    destruct (snd (res (fetcher_Fetch rs w))) as [e|]; simpl.
    + case_bool_decide; cbn.
      * split; [|by intros e0 [= <-] Hne]. intros _. by rewrite Hm.
      * split; [done|]. by intros e0 [= <-] _.
    + destruct (_ !! id); cbn.
      * done.
      * split; [|done]. intros _. by rewrite Hm.
  - intros w0 pre name rest e Hl H1 Hn He.
    apply execute_discovery_fails.
    unfold discovery, fromBkt_Iter. cbn. rewrite Hl.
    by rewrite (visitEntries_stops _ pre name rest [] w0 e H1 Hn He).
Qed.
End MetadataClaims.

Transparent loadMeta fetcher_Fetch.

(** The fetch for the first block directory fails: the pass ends with that
    error; when it reports the metas as not yet synced, the block is
    skipped. *)
Lemma C7_witness :
  res (execute Scenario.IsBlockDir Scenario.rs Scenario.wFetchFails)
  = Some (withMessage
            (withMessage (withMessage Scenario.injected "fetch meta")
               ("load meta for block " +:+ ULID_String Scenario.idD
                +:+ " from origin bucket"))
            "iterate over origin bucket")
  ∧ res (collectBlock Scenario.IsBlockDir Scenario.rs
           (ULID_String Scenario.idD +:+ "/") [] (advance Scenario.wFetchPartial))
    = (None, []).
Proof.
  split.
  - destruct (C7_missing_meta_is_skipped Scenario.IsBlockDir Scenario.rs Scenario.idD
                (advance Scenario.wFetchFails)) as (_ & _ & _ & H).
    apply (H Scenario.wFetchFails [] (ULID_String Scenario.idD +:+ "/")
             [ULID_String Scenario.idE +:+ "/"]).
    + vm_compute. reflexivity.
    + vm_compute. reflexivity.
    + vm_compute. reflexivity.
    + vm_compute. reflexivity.
  - destruct (C7_missing_meta_is_skipped Scenario.IsBlockDir Scenario.rs Scenario.idD
                (advance Scenario.wFetchPartial)) as (H1 & _ & H & _).
    apply (H (ULID_String Scenario.idD +:+ "/") []).
    + vm_compute. reflexivity.
    + apply H1. left. eexists. split; vm_compute; reflexivity.
Defined.


(** ** What a pass does to the objects of the destination *)

#[global] Instance Frame_keepsBytes p : Frame (keepsBytes p).
Proof.
  split; unfold keepsBytes.
  - auto.
  - auto.
  - auto.
Qed.

Lemma grows_keepsBytes p w w' : growsToBkt w w' → keepsBytes p w w'.
Proof. intros H c Hc. eapply lookup_weaken; [exact Hc|exact H]. Qed.

(** A block transfer changes the bytes of no object but the meta file of
    its block. *)
Lemma EBR_keepsBytes rs id p :
  p ≠ metaFileOf id → preserves (keepsBytes p) (ensureBlockIsReplicated rs id).
Proof.
  intros Hp. apply EBR_preserves; [apply _|..].
  - intros name _ w. apply grows_keepsBytes, EOR_grows.
  - intros c w _ c' Hc'. simpl. by rewrite lookup_insert_ne.
  - by intros w _ c Hc.
Qed.

Lemma keepsObjects_is_Some rs w w' p :
  keepsObjects rs w w' → is_Some (toBkt w !! p) → is_Some (toBkt w' !! p).
Proof.
  intros H [c Hc]. destruct (H p c Hc) as [H'|[_ (c' & H' & _)]]; eauto.
Qed.

Section ObjectClaims.
Variable IsBlockDir : string → option ULID.

Lemma execute_preserves R `{!DiscoveryFrame R} rs :
  (∀ id, preserves R (ensureBlockIsReplicated rs id)) →
  preserves R (execute IsBlockDir rs).
Proof.
  intros Hb w.
  pose proof (execute_cases IsBlockDir rs w) as H. cbv zeta in H.
  pose proof (discovery_preserves IsBlockDir R rs w) as Hd.
  destruct (fst (res (discovery IsBlockDir rs w))) as [e|].
  - destruct H as (_ & -> & _). exact Hd.
  - destruct H as (evs & _ & _ & -> & _).
    eapply frame_trans; [exact Hd|]. by apply RB_preserves; [apply _|].
Qed.

(** C9, amended.  A pass deletes no object of the destination, and an
    object that is there keeps its bytes unless it is the meta file of a
    block, which the commit of that block may replace with the meta file
    of the source.  [ensureBlockIsReplicated] changes no object other than
    the meta file of its block, and [ensureObjectReplicated] changes no
    object at all: it uploads only to a path that holds no object. *)
Theorem C9_objects_kept_except_meta rs w :
  let o := execute IsBlockDir rs w in
  (∀ p, is_Some (toBkt w !! p) → is_Some (toBkt (post o) !! p))
  ∧ (∀ p c, toBkt w !! p = Some c →
       toBkt (post o) !! p = Some c
       ∨ ((∃ id, p = metaFileOf id) ∧ agrees rs p (post o)))
  ∧ (∀ id w' p c,
       let ob := ensureBlockIsReplicated rs id w' in
       toBkt w' !! p = Some c →
       (p ≠ metaFileOf id → toBkt (post ob) !! p = Some c)
       ∧ (p = metaFileOf id → toBkt (post ob) !! p = Some c ∨ agrees rs p (post ob)))
  ∧ (∀ name w',
       let oo := ensureObjectReplicated rs name w' in
       toBkt w' ⊆ toBkt (post oo)
       ∧ (uploads (evts oo) ≠ [] → toBkt w' !! name = None)).
Proof.
  cbv zeta.
  assert (Hk : keepsObjects rs w (post (execute IsBlockDir rs w))).
  { apply execute_preserves; [apply _|]. intros id. apply EBR_keepsObjects. }
  split; [|split; [|split]].
  - intros p. by apply (keepsObjects_is_Some rs).
  - exact Hk.
  - intros id w' p c Hc. split.
    + intros Hp. by apply (EBR_keepsBytes rs id p Hp w').
    + intros ->. destruct (EBR_keepsObjects rs id w' _ c Hc) as [?|[_ ?]]; auto.
  - intros name w'. split; [apply EOR_grows|].
    destruct (EOR_cases rs name w') as (_ & [->|[_ Hn]] & _); done.
Qed.

(** ** Idempotence *)

(** C2.  For a source and a fetcher that answer without failure, after a
    pass that succeeds a second pass succeeds too, leaves the content of
    the destination as the first pass left it, performs no upload, and of
    the three replication counters increments only
    [blocksAlreadyReplicated], once for every candidate, each of which it
    finds committed: it attempts every candidate once, and after the first
    pass the destination holds the meta file of the source for each.
    Nothing here depends on the order in which the candidates are
    taken. *)
Theorem C2_second_pass_is_idle rs w :
  let o1 := execute IsBlockDir rs w in
  let o2 := execute IsBlockDir rs (post o1) in
  faults w = [] →
  res o1 = None →
  res o2 = None
  ∧ toBkt (post o2) = toBkt (post o1)
  ∧ uploads (evts o2) = []
  ∧ blocksAlreadyReplicated (metrics (post o2))
    = (blocksAlreadyReplicated (metrics (post o1))
       + length (candidates IsBlockDir rs w))%nat
  ∧ blocksReplicated (metrics (post o2)) = blocksReplicated (metrics (post o1))
  ∧ objectsReplicated (metrics (post o2)) = objectsReplicated (metrics (post o1))
  ∧ blockTransfers (evts o2) ≡ₚ map blockIDOf (candidates IsBlockDir rs w)
  ∧ Forall (λ b, agrees rs (metaFileOf (bm_ULID (Meta_BlockMeta b))) (post o1))
      (candidates IsBlockDir rs w).
Proof.
  cbv zeta. intros Hf Hr1.
  assert (Hperm : sortedCandidates IsBlockDir rs w ≡ₚ candidates IsBlockDir rs w)
    by apply (sort_Slice_perm minTimeOf).
  rewrite <- Hperm.
  (* the first pass *)
  pose proof (execute_cases IsBlockDir rs w) as H1. cbv zeta in H1.
  destruct (fst (res (discovery IsBlockDir rs w))) as [e|] eqn:Hd1.
  { destruct H1 as (H1 & _). by rewrite H1 in Hr1. }
  destruct H1 as (evs1 & _ & Hres1 & Hpost1 & _).
  set (sc := sortedCandidates IsBlockDir rs w) in *.
  set (w1 := post (discovery IsBlockDir rs w)) in *.
  assert (Hf1 : faults w1 = []).
  { by apply (discovery_preserves IsBlockDir staysFaultFree rs w). }
  rewrite Hres1 in Hr1.
  pose proof (RB_success_agrees rs sc w1 Hr1) as Ha.
  set (w2 := post (execute IsBlockDir rs w)) in *.
  assert (Hf2 : faults w2 = []).
  { rewrite Hpost1.
    apply (RB_preserves staysFaultFree rs sc (EBR_staysFaultFree rs)). exact Hf1. }
  rewrite <- Hpost1 in Ha.
  (* the second pass discovers the same candidates *)
  destruct (discovery_scripted IsBlockDir rs w w2) as [Hsame _]; [congruence|].
  assert (Hsc : sortedCandidates IsBlockDir rs w2 = sc).
  { unfold sc, sortedCandidates, candidates. by rewrite Hsame. }
  pose proof (execute_cases IsBlockDir rs w2) as H2. cbv zeta in H2.
  pose proof (execute_blockTransfers IsBlockDir rs w2) as Hbt. cbv zeta in Hbt.
  rewrite <- Hsame, Hd1, Hsc in H2, Hbt.
  rewrite Hbt. clear Hbt.
  destruct H2 as (evs2 & He2 & -> & -> & ->).
  set (w3 := post (discovery IsBlockDir rs w2)) in *.
  assert (Hf3 : faults w3 = []).
  { by apply (discovery_preserves IsBlockDir staysFaultFree rs w2). }
  assert (Hb3 : toBkt w3 = toBkt w2).
  { apply (discovery_preserves IsBlockDir (sameOn toBkt) rs w2). }
  assert (Hc3 : replicationCounters w3 = replicationCounters w2).
  { apply (discovery_preserves IsBlockDir (sameOn replicationCounters) rs w2). }
  assert (Ha3 : Forall (λ b, agrees rs (metaFileOf (bm_ULID (Meta_BlockMeta b))) w3) sc).
  { eapply Forall_impl; [exact Ha|]. intros b Hb.
    by apply (discovery_preserves IsBlockDir (keepsAgree rs _) rs w2). }
  destruct (RB_idle rs sc w3 Hf3 Ha3) as (Hr & Hb & _ & Hu & Hc1 & Hc2 & Hc3').
  unfold replicationCounters in Hc3. injection Hc3 as Hx1 Hx2 Hx3.
  rewrite Hr, Hb, Hb3, Hc1, Hc2, Hc3', Hx1, Hx2, Hx3.
  repeat split; try done.
  - change (?a :: ?l) with ([a] ++ l).
    rewrite !uploads_app, Hu, (isDiscovery_uploads _ He2),
      (isDiscovery_uploads _ (discovery_isDiscovery IsBlockDir rs w2)).
    reflexivity.
  - destruct (RB_transfers rs sc w3) as (tr & _ & -> & Htr). by rewrite (Htr Hr).
Qed.
End ObjectClaims.

(** The destination holds another meta file for block D than the source:
    the pass uploads to that path and replaces the bytes. *)
Lemma C9_counterexample :
  ¬ neverOverwrites Scenario.IsBlockDir Scenario.rs Scenario.wStale.
Proof.
  intros H.
  destruct (H (metaFileOf Scenario.idD) (Scenario.bytesOf "stale")) as [_ H2].
  - vm_compute. reflexivity.
  - vm_compute in H2. discriminate H2.
Qed.

(** The stale meta file of D is not deleted by a pass, and the chunk of D,
    which the destination holds with other bytes than the source, keeps
    them through the transfer of D. *)
Lemma C9_witness :
  is_Some (toBkt (post (execute Scenario.IsBlockDir Scenario.rs Scenario.wStale))
             !! metaFileOf Scenario.idD)
  ∧ toBkt (post (ensureBlockIsReplicated Scenario.rs Scenario.idD Scenario.wChunk))
      !! Scenario.chunkOf Scenario.idD = Some (Scenario.bytesOf "other").
Proof.
  split.
  - destruct (C9_objects_kept_except_meta Scenario.IsBlockDir Scenario.rs Scenario.wStale)
      as (H & _).
    apply H. vm_compute. eauto.
  - destruct (C9_objects_kept_except_meta Scenario.IsBlockDir Scenario.rs Scenario.wStale)
      as (_ & _ & H & _).
    apply (H Scenario.idD Scenario.wChunk (Scenario.chunkOf Scenario.idD)
             (Scenario.bytesOf "other")).
    + vm_compute. reflexivity.
    + vm_compute. discriminate.
Defined.

(** Two passes over the concrete source, from an empty destination. *)
Lemma C2_witness :
  let o1 := execute Scenario.IsBlockDir Scenario.rs Scenario.w0 in
  let o2 := execute Scenario.IsBlockDir Scenario.rs (post o1) in
  res o2 = None ∧ toBkt (post o2) = toBkt (post o1) ∧ uploads (evts o2) = []
  ∧ blocksAlreadyReplicated (metrics (post o2)) = 2%nat.
Proof.
  destruct (C2_second_pass_is_idle Scenario.IsBlockDir Scenario.rs Scenario.w0)
    as (H1 & H2 & H3 & H4 & _).
  - vm_compute. reflexivity.
  - vm_compute. reflexivity.
  - split; [exact H1|]. split; [exact H2|]. split; [exact H3|].
    rewrite H4. vm_compute. reflexivity.
Defined.


(** * Further properties of the replication engine *)

(** ** Where the bytes of the destination come from *)

#[global] Instance Frame_fromSourceOnly rs : Frame (fromSourceOnly rs).
Proof.
  split; unfold fromSourceOnly.
  - auto.
  - intros w1 w2 w3 H12 H23 p c H3. destruct (H23 p c H3) as [H2|H2]; auto.
  - auto.
Qed.

#[global] Instance DiscoveryFrame_fromSourceOnly rs : DiscoveryFrame (fromSourceOnly rs).
Proof. split; [apply _|]. intros w f _ p c Hp. by left. Qed.

Lemma insert_fromSourceOnly rs w name c m fs :
  objects (fromBkt rs) !! name = Some c →
  fromSourceOnly rs w (mkWorld (<[name := c]> (toBkt w)) m fs).
Proof.
  intros Hc p c' Hp. simpl in Hp.
  destruct (decide (p = name)) as [->|Hne].
  - rewrite lookup_insert_eq in Hp. right. congruence.
  - rewrite lookup_insert_ne in Hp by done. by left.
Qed.

Lemma EOR_fromSourceOnly rs name :
  preserves (fromSourceOnly rs) (ensureObjectReplicated rs name).
Proof.
  apply EOR_preserves; [apply _|]. intros w c _ Hc. by apply insert_fromSourceOnly.
Qed.

Lemma EBR_fromSourceOnly rs id :
  preserves (fromSourceOnly rs) (ensureBlockIsReplicated rs id).
Proof.
  apply EBR_preserves; [apply _|..].
  - intros name _. apply EOR_fromSourceOnly.
  - intros c w Hc. by apply insert_fromSourceOnly.
  - intros w _ p c Hp. by left.
Qed.

(** ** The paths of a block *)

Lemma length_string_of_list_ascii l :
  String.length (string_of_list_ascii l) = length l.
Proof. induction l as [|x l IH]; simpl; [done|]. by rewrite IH. Qed.

Lemma ULID_String_length id : String.length (ULID_String id) = 26%nat.
Proof.
  unfold ULID_String. rewrite length_string_of_list_ascii, length_map, length_seq.
  reflexivity.
Qed.

Lemma append_inj_length (a b s t : string) :
  String.length a = String.length b → a +:+ s = b +:+ t → a = b ∧ s = t.
Proof.
  revert b. induction a as [|x a IH]; intros [|y b] Hl H; try discriminate Hl.
  - done.
  - rewrite !append_cons in H. injection H as -> H. injection Hl as Hl.
    destruct (IH b Hl H) as [-> ->]. done.
Qed.

(** Two blocks with the same meta file have the same text identifier. *)
Lemma metaFileOf_inj id id' :
  metaFileOf id = metaFileOf id' → ULID_String id = ULID_String id'.
Proof.
  unfold metaFileOf, path_Join. intros H.
  apply append_inj_length in H as [H _]; [done|].
  by rewrite !ULID_String_length.
Qed.

Lemma same_meta_same_objects rs id id' :
  metaFileOf id = metaFileOf id' → objectFilesOf rs id = objectFilesOf rs id'.
Proof.
  intros H%metaFileOf_inj.
  unfold objectFilesOf, chunkFilesOf, chunksDirOf, indexFileOf. by rewrite H.
Qed.

(** No object of a block is the meta file of a block. *)
Lemma objectFile_not_meta rs id p id' :
  p ∈ objectFilesOf rs id → p ≠ metaFileOf id'.
Proof.
  unfold objectFilesOf, chunkFilesOf. rewrite elem_of_app, list_elem_of_fmap.
  intros [(e & -> & _)|Hp%list_elem_of_singleton]; [|subst p].
  - unfold entryName, chunksDirOf, metaFileOf.
    pose proof (path_Join_nonempty (ULID_String id) ChunksDirname) as Hne.
    destruct (path_Join (ULID_String id) ChunksDirname) as [|x s] eqn:Hj; [done|].
    rewrite <- Hj. unfold path_Join. rewrite !append_assoc. intros H.
    apply append_inj_length in H as [_ H]; [discriminate H|].
    by rewrite !ULID_String_length.
  - unfold indexFileOf, metaFileOf, path_Join. intros H.
    apply append_inj_length in H as [_ H]; [discriminate H|].
    by rewrite !ULID_String_length.
Qed.

(** ** The two phases of a block transfer *)

#[global] Instance Frame_addsObjects : Frame addsObjects.
Proof.
  split; unfold addsObjects.
  - done.
  - intros w1 w2 w3 [H12 M12] [H23 M23]. split; [by etrans|].
    intros id. by rewrite M23.
  - done.
Qed.

Lemma EOR_addsObjects rs id name :
  name ∈ objectFilesOf rs id → preserves addsObjects (ensureObjectReplicated rs name).
Proof.
  intros Hn. apply EOR_preserves; [apply _|].
  intros w c Hd _. split; simpl.
  - by apply insert_subseteq.
  - intros id'. rewrite lookup_insert_ne; [done|].
    by apply (objectFile_not_meta rs id).
Qed.

Lemma replicateChunk_res rs name u w :
  fst (res (replicateChunk rs name u w)) = None
  ↔ res (ensureObjectReplicated rs name w) = None.
Proof.
  unfold replicateChunk. rewrite bind_res.
  by destruct (res (ensureObjectReplicated rs name w)).
Qed.

Lemma replicateChunk_post rs name u w :
  post (replicateChunk rs name u w) = post (ensureObjectReplicated rs name w).
Proof.
  unfold replicateChunk. rewrite bind_post.
  by destruct (res (ensureObjectReplicated rs name w)).
Qed.

(** An object transfer that succeeds leaves the object at the
    destination. *)
Lemma EOR_success_present rs name w :
  res (ensureObjectReplicated rs name w) = None →
  is_Some (toBkt (post (ensureObjectReplicated rs name w)) !! name).
Proof.
  destruct (EOR_cases rs name w) as (_ & _ & [(Hb & _ & Hp)|(_ & _ & c & _ & Hb & _)]).
  - intros Hr. rewrite Hb. auto.
  - intros _. rewrite Hb, lookup_insert_eq. eauto.
Qed.

Lemma grows_is_Some w w' p :
  growsToBkt w w' → is_Some (toBkt w !! p) → is_Some (toBkt w' !! p).
Proof. intros H [c Hc]. exists c. eapply lookup_weaken; [exact Hc|exact H]. Qed.

Lemma visitChunks_grows rs names u :
  preserves growsToBkt (visitEntries (replicateChunk rs) names u).
Proof.
  apply preserves_visitEntries; [apply _|]. intros n acc _.
  apply replicateChunk_preserves; [apply _|]. apply EOR_grows.
Qed.

(** After an iteration over chunks that succeeds every chunk is at the
    destination. *)
Lemma visitChunks_present rs names w :
  let o := visitEntries (replicateChunk rs) names tt w in
  fst (res o) = None → Forall (λ n, is_Some (toBkt (post o) !! n)) names.
Proof.
  revert w. induction names as [|n names IH]; intros w; cbn; [constructor|].
  next_fault e H; [discriminate|].
  pose proof (replicateChunk_res rs n tt (advance w)) as Hres.
  pose proof (replicateChunk_post rs n tt (advance w)) as Hpost.
  destruct (res (replicateChunk rs n tt (advance w))) as [[e|] []] eqn:Hr; cbn;
    [discriminate|].
  intros Hrest. constructor; [|by apply IH].
  apply (grows_is_Some (post (replicateChunk rs n tt (advance w)))).
  - apply visitChunks_grows.
  - rewrite Hpost. apply EOR_success_present. by apply Hres.
Qed.

Lemma chunks_present rs id w :
  let o := fromBkt_Iter rs (chunksDirOf id) (replicateChunk rs) tt w in
  fst (res o) = None → Forall (λ n, is_Some (toBkt (post o) !! n)) (chunkFilesOf rs id).
Proof.
  unfold fromBkt_Iter, chunkFilesOf. cbn.
  set (names := map (entryName (chunksDirOf id)) (entries (fromBkt rs) (chunksDirOf id))).
  pose proof (visitChunks_present rs names w) as H. cbv zeta in H.
  destruct (res (visitEntries (replicateChunk rs) names tt w)) as [[e|] []] eqn:Hr;
    cbn; [discriminate|].
  intros _. by apply H.
Qed.

Lemma chunks_addsObjects rs id :
  preserves addsObjects (fromBkt_Iter rs (chunksDirOf id) (replicateChunk rs) tt).
Proof.
  apply preserves_Iter; [apply _|]. intros n u Hn.
  apply replicateChunk_preserves; [apply _|].
  apply (EOR_addsObjects rs id). unfold objectFilesOf, chunkFilesOf.
  apply elem_of_app. by left.
Qed.

(** The transfer of the objects and the commit: objects are added while
    the meta files stay as they are; then, only when every object of the
    block is there, the meta file is put. *)
Lemma TC_shape rs id c w :
  let o := transferAndCommit rs id c w in
  ∃ w1, addsObjects w w1
    ∧ ((res o ≠ None ∧ toBkt (post o) = toBkt w1)
       ∨ (res o = None ∧ holdsObjects rs id (toBkt w1)
          ∧ toBkt (post o) = <[metaFileOf id := c]> (toBkt w1))).
Proof.
  unfold transferAndCommit. cbn.
  fold (chunksDirOf id) (indexFileOf id) (metaFileOf id).
  set (o1 := fromBkt_Iter _ _ _ _ w).
  pose proof (chunks_addsObjects rs id w) as A1. fold o1 in A1.
  pose proof (chunks_present rs id w) as P1. cbv zeta in P1. fold o1 in P1.
  destruct (res o1) as [[e|] []] eqn:Hr1; cbn.
  { exists (post o1). split; [done|]. by left. }
  set (o2 := ensureObjectReplicated rs (indexFileOf id) (post o1)).
  assert (A2 : addsObjects (post o1) (post o2)).
  { apply (EOR_addsObjects rs id). unfold objectFilesOf.
    apply elem_of_app. right. by apply list_elem_of_singleton. }
  pose proof (EOR_success_present rs (indexFileOf id) (post o1)) as P2. fold o2 in P2.
  assert (A : addsObjects w (post o2)) by (by eapply (frame_trans (R:=addsObjects))).
  destruct (res o2) as [e|] eqn:Hr2; cbn.
  { exists (post o2). split; [done|]. by left. }
  exists (post o2). split; [done|].
  next_fault e H; [by left|]. right. split; [done|]. split; [|done].
  unfold holdsObjects, objectFilesOf. apply Forall_app. split.
  - eapply Forall_impl; [by apply P1|]. intros p Hp. simpl in Hp.
    eapply grows_is_Some; [|exact Hp]. apply EOR_grows.
  - constructor; [by apply P2|constructor].
Qed.

(** ** The commit invariant of the destination *)

Lemma holdsObjects_mono rs id (b b' : gmap string bytes) :
  b ⊆ b' → holdsObjects rs id b → holdsObjects rs id b'.
Proof.
  intros Hb Hh. eapply Forall_impl; [exact Hh|]. intros p [c Hc]. exists c.
  by eapply lookup_weaken.
Qed.

Lemma holdsObjects_insert rs id (b : gmap string bytes) p c :
  holdsObjects rs id b → holdsObjects rs id (<[p := c]> b).
Proof.
  intros Hh. eapply Forall_impl; [exact Hh|]. intros q Hq. simpl in Hq.
  destruct (decide (q = p)) as [->|Hne].
  - rewrite lookup_insert_eq. eauto.
  - by rewrite lookup_insert_ne.
Qed.

#[global] Instance Frame_keepsCommitted rs : Frame (keepsCommitted rs).
Proof.
  split; unfold keepsCommitted.
  - auto.
  - auto.
  - auto.
Qed.

#[global] Instance DiscoveryFrame_keepsCommitted rs : DiscoveryFrame (keepsCommitted rs).
Proof. split; [apply _|]. by intros w f _ H. Qed.

Lemma addsObjects_keepsCommitted rs w w' :
  addsObjects w w' → keepsCommitted rs w w'.
Proof.
  intros [Hsub Hmeta] Hinv id Hid. rewrite Hmeta in Hid.
  eapply holdsObjects_mono; [exact Hsub|]. by apply Hinv.
Qed.

Lemma sameBkt_keepsCommitted rs w w' :
  toBkt w' = toBkt w → keepsCommitted rs w w'.
Proof. intros Hb Hinv id. rewrite Hb. apply Hinv. Qed.

Lemma TC_keepsCommitted rs id c : preserves (keepsCommitted rs) (transferAndCommit rs id c).
Proof.
  intros w.
  destruct (TC_shape rs id c w) as (w1 & A & [(_ & Hb)|(_ & Hh & Hb)]).
  - eapply (frame_trans (R:=keepsCommitted rs)); [by apply addsObjects_keepsCommitted|].
    by apply sameBkt_keepsCommitted.
  - intros Hinv. apply (addsObjects_keepsCommitted rs) in A. specialize (A Hinv).
    intros id'. rewrite Hb. intros Hid'.
    apply holdsObjects_insert.
    destruct (decide (metaFileOf id' = metaFileOf id)) as [Heq|Hne].
    + unfold holdsObjects. by rewrite (same_meta_same_objects rs id' id Heq).
    + rewrite lookup_insert_ne in Hid' by done. by apply A.
Qed.

Lemma EBR_keepsCommitted rs id :
  preserves (keepsCommitted rs) (ensureBlockIsReplicated rs id).
Proof.
  intros w.
  destruct (EBR_cases rs id w)
    as [(e & fs & _ & _ & -> & _)
       |[(fs & _ & _ & _ & -> & _)|(c & fs & _ & _ & _ & -> & _)]].
  - by apply sameBkt_keepsCommitted.
  - by apply sameBkt_keepsCommitted.
  - eapply (frame_trans (R:=keepsCommitted rs));
      [|apply TC_keepsCommitted]. by apply sameBkt_keepsCommitted.
Qed.


Lemma execute_fromSourceOnly IsBlockDir rs :
  preserves (fromSourceOnly rs) (execute IsBlockDir rs).
Proof. apply execute_preserves; [apply _|]. apply EBR_fromSourceOnly. Qed.

Lemma execute_keepsCommitted IsBlockDir rs :
  preserves (keepsCommitted rs) (execute IsBlockDir rs).
Proof. apply execute_preserves; [apply _|]. apply EBR_keepsCommitted. Qed.

(** X1.  Whatever fails, every object that the destination holds after a
    pass was there before the pass with the same bytes, or is byte for byte
    the object that the source holds at the same path; the same holds for
    one block transfer and for one object transfer.  The engine never
    writes bytes of its own making, and never writes the bytes of an object
    under another path. *)
Theorem execute_uploads_source_bytes IsBlockDir rs w :
  (∀ p c, toBkt (post (execute IsBlockDir rs w)) !! p = Some c →
     toBkt w !! p = Some c ∨ objects (fromBkt rs) !! p = Some c)
  ∧ (∀ id p c, toBkt (post (ensureBlockIsReplicated rs id w)) !! p = Some c →
       toBkt w !! p = Some c ∨ objects (fromBkt rs) !! p = Some c)
  ∧ (∀ name p c, toBkt (post (ensureObjectReplicated rs name w)) !! p = Some c →
       toBkt w !! p = Some c ∨ objects (fromBkt rs) !! p = Some c).
Proof.
  split; [|split].
  - apply execute_fromSourceOnly.
  - intros id. apply EBR_fromSourceOnly.
  - intros name. apply EOR_fromSourceOnly.
Qed.

(** After a pass from an empty destination the chunk of D has the bytes of
    the source. *)
Lemma execute_uploads_source_bytes_witness :
  toBkt Scenario.w0 !! Scenario.chunkOf Scenario.idD = Some (Scenario.bytesOf "chunk D")
  ∨ objects (fromBkt Scenario.rs) !! Scenario.chunkOf Scenario.idD
    = Some (Scenario.bytesOf "chunk D").
Proof.
  destruct (execute_uploads_source_bytes Scenario.IsBlockDir Scenario.rs Scenario.w0)
    as (H & _).
  apply H. vm_compute. reflexivity.
Defined.

(** X2.  A pass keeps the destination consistently committed: if, before the
    pass, every block whose meta file the destination holds has its index
    file and every chunk that the source lists for it at the destination,
    then the same is true after the pass, whether the pass succeeds or
    fails and wherever it fails. *)
Theorem execute_keeps_commit_invariant IsBlockDir rs w :
  committedComplete rs w →
  committedComplete rs (post (execute IsBlockDir rs w)).
Proof. apply execute_keepsCommitted. Qed.

Lemma committedComplete_empty rs m fs : committedComplete rs (mkWorld ∅ m fs).
Proof. intros id [c Hc]. simpl in Hc. by rewrite lookup_empty in Hc. Qed.

(** After the pass over the concrete source into an empty destination the
    meta file of D is there, and so are the objects of D. *)
Lemma execute_keeps_commit_invariant_witness :
  holdsObjects Scenario.rs Scenario.idD
    (toBkt (post (execute Scenario.IsBlockDir Scenario.rs Scenario.w0))).
Proof.
  pose proof (execute_keeps_commit_invariant Scenario.IsBlockDir Scenario.rs
                Scenario.w0 (committedComplete_empty _ _ _)) as H.
  apply (H Scenario.idD). vm_compute. eauto.
Defined.

(** X4.  A block transfer that returns no error leaves at the destination
    the meta file of the source; and unless it found that meta file already
    there (it then only counts the block as already replicated), it leaves
    there the index file and every chunk that the source lists for the
    block. *)
Theorem EBR_success_complete rs id w :
  let o := ensureBlockIsReplicated rs id w in
  res o = None →
  agrees rs (metaFileOf id) (post o)
  ∧ (blocksAlreadyReplicated (metrics (post o)) = blocksAlreadyReplicated (metrics w) →
     holdsObjects rs id (toBkt (post o))).
Proof.
  cbv zeta. intros Hr. split; [by apply EBR_success_agrees|]. revert Hr.
  destruct (EBR_cases rs id w)
    as [(e & fs & -> & _)
       |[(fs & _ & _ & _ & -> & _)|(c & fs & _ & _ & -> & -> & _)]].
  - discriminate.
  - intros _ H. simpl in H. lia.
  - intros Hr _.
    destruct (TC_shape rs id c (mkWorld (toBkt w) (metrics w) fs))
      as (w1 & _ & [(Hn & _)|(_ & Hh & ->)]); [done|].
    by apply holdsObjects_insert.
Qed.

Lemma EBR_success_complete_witness :
  let o := ensureBlockIsReplicated Scenario.rs Scenario.idD Scenario.w0 in
  agrees Scenario.rs (metaFileOf Scenario.idD) (post o)
  ∧ holdsObjects Scenario.rs Scenario.idD (toBkt (post o)).
Proof.
  destruct (EBR_success_complete Scenario.rs Scenario.idD Scenario.w0) as [H1 H2].
  - vm_compute. reflexivity.
  - split; [exact H1|]. apply H2. vm_compute. reflexivity.
Defined.

(** X3.  A pass that returns no error, run on a destination that is
    consistently committed and holds only copies of objects of the source,
    leaves every candidate block replicated: the meta file, the index file
    and every chunk that the source lists for the block are at the
    destination, each with the bytes that the source holds at that path. *)
Theorem execute_success_replicates IsBlockDir rs w :
  let o := execute IsBlockDir rs w in
  res o = None →
  toBkt w ⊆ objects (fromBkt rs) →
  committedComplete rs w →
  Forall (λ b,
            Forall (λ p, is_Some (toBkt (post o) !! p)
                         ∧ toBkt (post o) !! p = objects (fromBkt rs) !! p)
              (metaFileOf (bm_ULID (Meta_BlockMeta b))
               :: objectFilesOf rs (bm_ULID (Meta_BlockMeta b))))
    (candidates IsBlockDir rs w).
Proof.
  cbv zeta. intros Hr Hsub Hinv.
  pose proof (execute_keepsCommitted IsBlockDir rs w Hinv) as Hc.
  pose proof (execute_fromSourceOnly IsBlockDir rs w) as Hs.
  pose proof (execute_cases IsBlockDir rs w) as H. cbv zeta in H.
  destruct (fst (res (discovery IsBlockDir rs w))) as [e|] eqn:Hd.
  { destruct H as (H & _). rewrite H in Hr. discriminate. }
  destruct H as (evs & _ & Hres & Hpost & _).
  rewrite Hres in Hr. pose proof (RB_success_agrees rs _ _ Hr) as Ha.
  rewrite <- Hpost in Ha.
  assert (Hperm : sortedCandidates IsBlockDir rs w ≡ₚ candidates IsBlockDir rs w)
    by apply (sort_Slice_perm minTimeOf).
  rewrite <- Hperm.
  eapply Forall_impl; [exact Ha|]. intros b (c & Hb & _). simpl.
  assert (Hcopy : ∀ p, is_Some (toBkt (post (execute IsBlockDir rs w)) !! p) →
            is_Some (toBkt (post (execute IsBlockDir rs w)) !! p)
            ∧ toBkt (post (execute IsBlockDir rs w)) !! p = objects (fromBkt rs) !! p).
  { intros p [c' Hp]. split; [eauto|]. rewrite Hp.
    destruct (Hs p c' Hp) as [H0|H0]; [|done].
    symmetry. eapply lookup_weaken; [exact H0|exact Hsub]. }
  constructor; [apply Hcopy; eauto|].
  eapply Forall_impl; [apply Hc; eauto|]. intros p Hp. by apply Hcopy.
Qed.

(** Both blocks of the concrete source, replicated into an empty
    destination. *)
Lemma execute_success_replicates_witness :
  let o := execute Scenario.IsBlockDir Scenario.rs Scenario.w0 in
  Forall (λ b,
            Forall (λ p, is_Some (toBkt (post o) !! p)
                         ∧ toBkt (post o) !! p = objects (fromBkt Scenario.rs) !! p)
              (metaFileOf (bm_ULID (Meta_BlockMeta b))
               :: objectFilesOf Scenario.rs (bm_ULID (Meta_BlockMeta b))))
    (candidates Scenario.IsBlockDir Scenario.rs Scenario.w0).
Proof.
  apply (execute_success_replicates Scenario.IsBlockDir Scenario.rs Scenario.w0).
  - vm_compute. reflexivity.
  - apply map_empty_subseteq.
  - apply committedComplete_empty.
Defined.


(** ** Runs in which no external call fails *)

Lemma nextFault_nil w : faults w = [] → nextFault w = None.
Proof. unfold nextFault. by intros ->. Qed.

Lemma advance_nil w : faults w = [] → faults (advance w) = [].
Proof. simpl. by intros ->. Qed.

Lemma visitEntries_ok {A} (f : string → A → M (option error * A)) names :
  (∀ n acc w, n ∈ names → faults w = [] →
     fst (res (f n acc w)) = None ∧ faults (post (f n acc w)) = []) →
  ∀ acc w, faults w = [] →
    fst (res (visitEntries f names acc w)) = None
    ∧ faults (post (visitEntries f names acc w)) = [].
Proof.
  induction names as [|n names IH]; intros Hok acc w Hf; cbn; [done|].
  rewrite (nextFault_nil w Hf). cbn.
  destruct (Hok n acc (advance w)) as [Hr Hp]; [by left|by apply advance_nil|].
  destruct (res (f n acc (advance w))) as [[e|] acc']; simpl in Hr; [discriminate|].
  cbn. apply IH; [|done]. intros n' acc0 w0 Hn'. apply Hok. by right.
Qed.

Lemma Iter_ok {A} rs dir (f : string → A → M (option error * A)) acc w :
  (∀ n acc w, n ∈ map (entryName dir) (entries (fromBkt rs) dir) → faults w = [] →
     fst (res (f n acc w)) = None ∧ faults (post (f n acc w)) = []) →
  faults w = [] →
  fst (res (fromBkt_Iter rs dir f acc w)) = None
  ∧ faults (post (fromBkt_Iter rs dir f acc w)) = [].
Proof.
  intros Hok Hf. unfold fromBkt_Iter. cbn.
  destruct (visitEntries_ok f _ Hok acc w Hf) as [Hr Hp].
  destruct (res (visitEntries f _ acc w)) as [[e|] acc']; simpl in Hr; [discriminate|].
  cbn. rewrite (nextFault_nil _ Hp). split; [done|]. by apply advance_nil.
Qed.

(** With nothing failing, an object that the source holds is transferred
    or found in place. *)
Lemma EOR_ok rs name w :
  faults w = [] → is_Some (objects (fromBkt rs) !! name) →
  res (ensureObjectReplicated rs name w) = None.
Proof.
  intros Hf [c Hc]. destruct w as [b m fs]. simpl in Hf. subst fs.
  unfold ensureObjectReplicated. cbn. unfold nextFault. cbn.
  destruct (b !! name); cbn; [done|].
  unfold nextFault. cbn. rewrite Hc. cbn. unfold nextFault. by cbn.
Qed.

Lemma replicateChunk_ok rs name u w :
  faults w = [] → is_Some (objects (fromBkt rs) !! name) →
  fst (res (replicateChunk rs name u w)) = None
  ∧ faults (post (replicateChunk rs name u w)) = [].
Proof.
  intros Hf Hs. split.
  - apply replicateChunk_res. by apply EOR_ok.
  - rewrite replicateChunk_post. by apply EOR_staysFaultFree.
Qed.

Lemma TC_ok rs id c w :
  faults w = [] → holdsObjects rs id (objects (fromBkt rs)) →
  res (transferAndCommit rs id c w) = None.
Proof.
  intros Hf Hh. unfold holdsObjects, objectFilesOf in Hh.
  apply Forall_app in Hh as [Hchunks Hindex]. apply Forall_cons in Hindex as [Hindex _].
  unfold transferAndCommit. cbn.
  fold (chunksDirOf id) (indexFileOf id) (metaFileOf id).
  destruct (Iter_ok rs (chunksDirOf id) (replicateChunk rs) tt w) as [Hr1 Hp1]; [|done|].
  { intros n u w' Hn Hf'. apply replicateChunk_ok; [done|].
    rewrite Forall_forall in Hchunks. by apply Hchunks. }
  set (o1 := fromBkt_Iter _ _ _ _ w) in *.
  destruct (res o1) as [[e|] []]; simpl in Hr1; [discriminate|]. cbn.
  pose proof (EOR_ok rs (indexFileOf id) (post o1) Hp1 Hindex) as Hr2.
  pose proof (EOR_staysFaultFree rs (indexFileOf id) (post o1) Hp1) as Hp2.
  set (o2 := ensureObjectReplicated _ _ (post o1)) in *.
  rewrite Hr2. cbn. by rewrite (nextFault_nil _ Hp2).
Qed.

Lemma EBR_ok rs id w :
  faults w = [] → inSource rs id → res (ensureBlockIsReplicated rs id w) = None.
Proof.
  intros Hf [[c Hc] Hh]. destruct w as [b m fs]. simpl in Hf. subst fs.
  unfold ensureBlockIsReplicated. fold (metaFileOf id).
  cbn. unfold nextFault. cbn. rewrite Hc. cbn. unfold nextFault. cbn.
  destruct (b !! metaFileOf id) as [c'|] eqn:Hd; cbn.
  - unfold nextFault. cbn. unfold nextFault. cbn.
    case_bool_decide; cbn; [done|]. by apply TC_ok.
  - rewrite (bool_decide_true (errNotFound = errNotFound)) by done. cbn.
    unfold nextFault. cbn. by apply TC_ok.
Qed.

Lemma RB_ok rs l w :
  faults w = [] → Forall (λ b, inSource rs (bm_ULID (Meta_BlockMeta b))) l →
  res (replicateBlocks rs l w) = None.
Proof.
  revert w. induction l as [|b l IH]; intros w Hf Hl; cbn; [done|].
  apply Forall_cons in Hl as [Hb Hl].
  rewrite (EBR_ok rs _ w Hf Hb). cbn. apply IH; [|done].
  by apply EBR_staysFaultFree.
Qed.

Section FaultFree.
Variable IsBlockDir : string → option ULID.

Lemma collectBlock_ok rs name acc w :
  faults w = [] →
  fst (res (collectBlock IsBlockDir rs name acc w)) = None
  ∧ faults (post (collectBlock IsBlockDir rs name acc w)) = [].
Proof.
  intros Hf. split; [|by apply (collectBlock_preserves IsBlockDir staysFaultFree)].
  destruct w as [b m fs]. simpl in Hf. subst fs.
  unfold collectBlock. cbn. destruct (IsBlockDir name) as [id|]; cbn; [|done].
  unfold loadMeta, fetcher_Fetch. cbn. unfold nextFault. cbn.
  destruct (fetcher rs !! id) as [meta|]; cbn; [|done].
  by case_bool_decide.
Qed.

Lemma discovery_ok rs w :
  faults w = [] → fst (res (discovery IsBlockDir rs w)) = None.
Proof.
  intros Hf. apply Iter_ok; [|done]. intros n acc w' _. apply collectBlock_ok.
Qed.

(** X5.  A pass in which no call on a bucket or on the fetcher fails
    returns no error, whatever the destination holds at its start (the
    remains of a pass that failed, for one), provided the source holds,
    for every candidate block, the meta file, the index file and the
    chunks that it lists for the block. *)
Theorem execute_succeeds_without_faults rs w :
  faults w = [] →
  Forall (λ b, inSource rs (bm_ULID (Meta_BlockMeta b))) (candidates IsBlockDir rs w) →
  res (execute IsBlockDir rs w) = None.
Proof.
  intros Hf Hc.
  pose proof (execute_cases IsBlockDir rs w) as H. cbv zeta in H.
  rewrite (discovery_ok rs w Hf) in H. destruct H as (evs & _ & -> & _).
  apply RB_ok.
  - by apply (discovery_preserves IsBlockDir staysFaultFree).
  - assert (Hperm : sortedCandidates IsBlockDir rs w ≡ₚ candidates IsBlockDir rs w)
      by apply (sort_Slice_perm minTimeOf).
    by rewrite Hperm.
Qed.
End FaultFree.

(** The destination holds a chunk of D with other bytes and nothing else:
    the pass goes through. *)
Lemma execute_succeeds_without_faults_witness :
  res (execute Scenario.IsBlockDir Scenario.rs Scenario.wChunk) = None.
Proof.
  apply (execute_succeeds_without_faults Scenario.IsBlockDir Scenario.rs Scenario.wChunk).
  - reflexivity.
  - apply (bool_decide_unpack _). vm_compute. exact I.
Defined.


(** ** What the discovery collects *)

Lemma visitEntries_acc {A} (I : A → Prop) (f : string → A → M (option error * A)) names :
  (∀ n acc w, n ∈ names → I acc → I (snd (res (f n acc w)))) →
  ∀ acc w, I acc → I (snd (res (visitEntries f names acc w))).
Proof.
  induction names as [|n names IH]; intros Hf acc w Hacc; cbn; [done|].
  destruct (nextFault w); cbn; [done|].
  pose proof (Hf n acc (advance w) ltac:(by left) Hacc) as Hn.
  destruct (res (f n acc (advance w))) as [[e|] acc']; cbn; [done|].
  apply IH; [|done]. intros n' acc0 w0 Hn'. apply Hf. by right.
Qed.

Lemma Iter_acc {A} (I : A → Prop) rs dir (f : string → A → M (option error * A)) acc w :
  (∀ n acc w, n ∈ map (entryName dir) (entries (fromBkt rs) dir) → I acc →
     I (snd (res (f n acc w)))) →
  I acc → I (snd (res (fromBkt_Iter rs dir f acc w))).
Proof.
  intros Hf Hacc. unfold fromBkt_Iter. cbn.
  pose proof (visitEntries_acc I f _ Hf acc w Hacc) as H.
  by destruct (res (visitEntries f _ acc w)) as [[e|] acc'].
Qed.

Lemma map_entryName_root l : map (entryName "") l = l.
Proof. induction l as [|x l IH]; simpl; [done|]. by rewrite IH. Qed.

Section Discovered.
Variable IsBlockDir : string → option ULID.

Lemma collectBlock_discoverable rs name acc w :
  name ∈ entries (fromBkt rs) "" →
  Forall (discoverable IsBlockDir rs) acc →
  Forall (discoverable IsBlockDir rs) (snd (res (collectBlock IsBlockDir rs name acc w))).
Proof.
  intros Hname Hacc. unfold collectBlock. cbn.
  destruct (IsBlockDir name) as [id|] eqn:Hid; cbn; [|done].
  unfold loadMeta, fetcher_Fetch. cbn.
  destruct (nextFault _) as [e|]; cbn.
  { by case_bool_decide. }
  destruct (fetcher rs !! id) as [meta|] eqn:Hm; cbn; [|done].
  case_bool_decide as Hl; cbn; [done|].
  apply Forall_app. split; [done|]. constructor; [|constructor].
  split; [by rewrite <- map_size_empty_iff|]. by exists name, id.
Qed.

Lemma discovery_discoverable rs w :
  Forall (discoverable IsBlockDir rs) (snd (res (discovery IsBlockDir rs w))).
Proof.
  apply (Iter_acc (Forall (discoverable IsBlockDir rs))); [|constructor].
  intros n acc w'. rewrite map_entryName_root. apply collectBlock_discoverable.
Qed.

(** X6.  Every candidate of a pass is a block that the listing of the
    source names as a block directory, whose meta the fetcher holds under
    the identifier of that directory, that carries external labels and
    that the block filter accepts; and every block transfer of the pass is
    the transfer of a candidate, under the identifier written in its
    meta. *)
Theorem execute_transfers_only_eligible rs w :
  Forall (λ b, discoverable IsBlockDir rs b ∧ blockFilter rs b = true)
    (candidates IsBlockDir rs w)
  ∧ ∀ s, s ∈ blockTransfers (evts (execute IsBlockDir rs w)) →
      ∃ b, b ∈ candidates IsBlockDir rs w ∧ s = blockIDOf b.
Proof.
  split.
  - unfold candidates. apply Forall_forall. intros b Hb.
    apply list_elem_of_In, filter_In in Hb as [Hb Hf]. split; [|done].
    pose proof (discovery_discoverable rs w) as Hd. rewrite Forall_forall in Hd.
    by apply Hd, list_elem_of_In.
  - intros s. rewrite execute_blockTransfers.
    destruct (fst (res (discovery IsBlockDir rs w))); [by intros ?%elem_of_nil|].
    destruct (RB_transfers rs (sortedCandidates IsBlockDir rs w)
                (post (discovery IsBlockDir rs w))) as (tr & [rest Hp] & -> & _).
    intros (b & -> & Hb)%list_elem_of_fmap. exists b. split; [|done].
    assert (Hperm : sortedCandidates IsBlockDir rs w ≡ₚ candidates IsBlockDir rs w)
      by apply (sort_Slice_perm minTimeOf).
    rewrite <- Hperm, Hp. apply elem_of_app. by left.
Qed.
End Discovered.

(** The first block that the pass over the concrete source transfers. *)
Lemma execute_transfers_only_eligible_witness :
  ∃ b, b ∈ candidates Scenario.IsBlockDir Scenario.rs Scenario.w0
    ∧ blockIDOf Scenario.metaE = blockIDOf b.
Proof.
  destruct (execute_transfers_only_eligible Scenario.IsBlockDir Scenario.rs Scenario.w0)
    as [_ H].
  apply H. apply (bool_decide_unpack _). vm_compute. exact I.
Defined.


(** ** The counters of the discovery *)

#[global] Instance Frame_originCounters : Frame (sameOn originCounters).
Proof. by apply Frame_sameOn. Qed.

Lemma EBR_originCounters rs id :
  preserves (sameOn originCounters) (ensureBlockIsReplicated rs id).
Proof.
  apply EBR_preserves; [apply _|..].
  - intros name _. apply EOR_preserves; [apply _|]. by intros w c _ _.
  - by intros c w _.
  - by intros w _.
Qed.

Section OriginCounters.
Variable IsBlockDir : string → option ULID.

Local Abbreviation blockDirs := (omap IsBlockDir).

Lemma collectBlock_counters rs name acc w :
  let o := collectBlock IsBlockDir rs name acc w in
  let k := length (blockDirs [name]) in
  originIterations (metrics (post o)) = S (originIterations (metrics w))
  ∧ originMetaLoads (metrics (post o)) = (originMetaLoads (metrics w) + k)%nat
  ∧ originPartialMeta (metrics w) ≤ originPartialMeta (metrics (post o))
  ∧ originPartialMeta (metrics (post o)) ≤ originPartialMeta (metrics w) + k.
Proof.
  unfold collectBlock. cbn.
  destruct (IsBlockDir name) as [id|]; cbn; [|lia].
  unfold loadMeta, fetcher_Fetch. cbn.
  destruct (nextFault _) as [e|]; cbn.
  { case_bool_decide; cbn; lia. }
  destruct (fetcher rs !! id) as [meta|]; cbn; [|lia].
  case_bool_decide; cbn; lia.
Qed.

Lemma collectBlock_nonblock rs name acc w :
  IsBlockDir name = None →
  collectBlock IsBlockDir rs name acc w
  = mkOut (None, acc) (mkWorld (toBkt w) (iterationsInc (metrics w)) (faults w)) [].
Proof. intros H. unfold collectBlock. cbn. by rewrite H. Qed.

Opaque collectBlock.

Lemma blockDirs_cons n l :
  length (blockDirs (n :: l)) = (length (blockDirs [n]) + length (blockDirs l))%nat.
Proof. simpl. by destruct (IsBlockDir n). Qed.

(** The entries on which the visitor of the pass has run are the first
    entries of the listing, all of them when the iteration succeeds; each
    counts as an iteration, each block directory among them as a load of
    meta. *)
Lemma visit_counters rs names acc w :
  let o := visitEntries (collectBlock IsBlockDir rs) names acc w in
  ∃ visited, visited `prefix_of` names
    ∧ originIterations (metrics (post o))
      = (originIterations (metrics w) + length visited)%nat
    ∧ originMetaLoads (metrics (post o))
      = (originMetaLoads (metrics w) + length (blockDirs visited))%nat
    ∧ originPartialMeta (metrics w) ≤ originPartialMeta (metrics (post o))
    ∧ originPartialMeta (metrics (post o))
      ≤ originPartialMeta (metrics w) + length (blockDirs visited)
    ∧ (fst (res o) = None → visited = names).
Proof.
  revert acc w. induction names as [|n names IH]; intros acc w; cbn.
  { exists []. simpl. repeat split; first [done|lia]. }
  next_fault e H.
  { exists []. simpl. repeat split; first [apply prefix_nil|done|lia]. }
  destruct (collectBlock_counters rs n acc (advance w)) as (C1 & C2 & C3 & C4).
  cbv zeta in C1, C2, C3, C4. change (metrics (advance w)) with (metrics w) in *.
  destruct (res (collectBlock IsBlockDir rs n acc (advance w))) as [[e|] acc'] eqn:Hr;
    cbn.
  - exists [n]. repeat split; first [by apply prefix_cons, prefix_nil|simpl; lia|done].
  - destruct (IH acc' (post (collectBlock IsBlockDir rs n acc (advance w))))
      as (v & Hv & I1 & I2 & I3 & I4 & I5).
    exists (n :: v). rewrite blockDirs_cons.
    change (length (n :: v)) with (S (length v)).
    repeat split; first [by apply prefix_cons|lia|idtac].
    intros Hn. by rewrite (I5 Hn).
Qed.

Lemma discovery_counters rs w :
  let o := discovery IsBlockDir rs w in
  ∃ visited, visited `prefix_of` entries (fromBkt rs) ""
    ∧ originIterations (metrics (post o))
      = (originIterations (metrics w) + length visited)%nat
    ∧ originMetaLoads (metrics (post o))
      = (originMetaLoads (metrics w) + length (blockDirs visited))%nat
    ∧ originPartialMeta (metrics w) ≤ originPartialMeta (metrics (post o))
    ∧ originPartialMeta (metrics (post o))
      ≤ originPartialMeta (metrics w) + length (blockDirs visited)
    ∧ (fst (res o) = None → visited = entries (fromBkt rs) "").
Proof.
  unfold discovery, fromBkt_Iter. cbn. rewrite map_entryName_root.
  destruct (visit_counters rs (entries (fromBkt rs) "") [] w)
    as (v & Hv & I1 & I2 & I3 & I4 & I5).
  exists v.
  destruct (res (visitEntries (collectBlock IsBlockDir rs) _ [] w)) as [[e|] acc'];
    cbn; repeat split; try done. intros _. by apply I5.
Qed.

(** X7.  The counters of the discovery after a pass: the visitor has run
    on the first entries of the listing of the source, on all of them when
    the iteration over the source succeeded; [originIterations] has risen
    by their number, [originMetaLoads] by the number of block directories
    among them, and [originPartialMeta] by no more than that.  The block
    transfers that follow leave the three counters as they are. *)
Theorem execute_origin_counters rs w :
  let o := execute IsBlockDir rs w in
  ∃ visited, visited `prefix_of` entries (fromBkt rs) ""
    ∧ originIterations (metrics (post o))
      = (originIterations (metrics w) + length visited)%nat
    ∧ originMetaLoads (metrics (post o))
      = (originMetaLoads (metrics w) + length (omap IsBlockDir visited))%nat
    ∧ originPartialMeta (metrics w) ≤ originPartialMeta (metrics (post o))
    ∧ originPartialMeta (metrics (post o))
      ≤ originPartialMeta (metrics w) + length (omap IsBlockDir visited)
    ∧ (fst (res (discovery IsBlockDir rs w)) = None →
       visited = entries (fromBkt rs) "").
Proof.
  cbv zeta.
  destruct (discovery_counters rs w) as (v & Hv & I1 & I2 & I3 & I4 & I5).
  exists v.
  assert (Hsame : originCounters (post (execute IsBlockDir rs w))
                  = originCounters (post (discovery IsBlockDir rs w))).
  { pose proof (execute_cases IsBlockDir rs w) as H. cbv zeta in H.
    destruct (fst (res (discovery IsBlockDir rs w))) as [e|].
    - destruct H as (_ & -> & _). done.
    - destruct H as (evs & _ & _ & -> & _).
      apply (RB_preserves (sameOn originCounters) rs _ (EBR_originCounters rs)). }
  pose proof (f_equal (λ x, fst (fst x)) Hsame) as E1.
  pose proof (f_equal (λ x, snd (fst x)) Hsame) as E2.
  pose proof (f_equal snd Hsame) as E3.
  unfold originCounters in E1, E2, E3. cbn [fst snd] in E1, E2, E3.
  rewrite E1, E2, E3. repeat split; done.
Qed.

(** ** A source without block directories *)

Lemma visit_nonblocks rs names acc w :
  Forall (λ n, IsBlockDir n = None) names →
  let o := visitEntries (collectBlock IsBlockDir rs) names acc w in
  evts o = [] ∧ snd (res o) = acc.
Proof.
  intros Hn. revert acc w.
  induction Hn as [|n names Hn _ IH]; intros acc w; cbn; [done|].
  next_fault e H; [done|].
  rewrite (collectBlock_nonblock rs n acc _ Hn). cbn. apply IH.
Qed.

(** X10.  When no entry of the listing of the source is a block directory
    (an empty source, for one), a pass asks the fetcher nothing, makes no
    call on the destination and transfers nothing: its only events are its
    opening record and the listing, the destination and the replication
    counters are as before.  If no call fails it returns no error, having
    counted every entry as an iteration. *)
Theorem execute_without_block_directories rs w :
  Forall (λ n, IsBlockDir n = None) (entries (fromBkt rs) "") →
  let o := execute IsBlockDir rs w in
  evts o = [Log levelDebug "scanning blocks available blocks for replication" "" "";
            FromIter ""]
  ∧ toBkt (post o) = toBkt w
  ∧ replicationCounters (post o) = replicationCounters w
  ∧ originMetaLoads (metrics (post o)) = originMetaLoads (metrics w)
  ∧ (faults w = [] →
     res o = None
     ∧ originIterations (metrics (post o))
       = (originIterations (metrics w) + length (entries (fromBkt rs) ""))%nat).
Proof.
  intros Hn. cbv zeta.
  destruct (visit_nonblocks rs _ [] w Hn) as [He Ha].
  assert (Hd : evts (discovery IsBlockDir rs w) = [FromIter ""]
               ∧ snd (res (discovery IsBlockDir rs w)) = []).
  { unfold discovery, fromBkt_Iter. cbn. rewrite map_entryName_root, He.
    destruct (res (visitEntries _ _ [] w)) as [[e|] acc']; simpl in Ha; subst acc';
      done. }
  destruct Hd as [Hde Hda].
  assert (Hpost : post (execute IsBlockDir rs w) = post (discovery IsBlockDir rs w)
                  ∧ evts (execute IsBlockDir rs w)
                    = [Log levelDebug "scanning blocks available blocks for replication"
                         "" ""; FromIter ""]
                  ∧ (fst (res (discovery IsBlockDir rs w)) = None →
                     res (execute IsBlockDir rs w) = None)).
  { unfold execute. fold (discovery IsBlockDir rs). cbn. rewrite Hde.
    destruct (res (discovery IsBlockDir rs w)) as [[e|] avail]; simpl in Hda;
      subst avail; cbn; done. }
  destruct Hpost as (Hp & Hev & Hres). rewrite Hp.
  destruct (discovery_counters rs w) as (v & [rest Hv] & I1 & I2 & _ & _ & I5).
  split; [done|].
  split; [apply (discovery_preserves IsBlockDir (sameOn toBkt))|].
  split; [apply (discovery_preserves IsBlockDir (sameOn replicationCounters))|].
  split.
  - rewrite I2. rewrite Hv in Hn. apply Forall_app in Hn as [Hn _].
    clear -Hn. induction Hn as [|n v Hn _ IH]; simpl; [lia|]. by rewrite Hn.
  - intros Hf. pose proof (discovery_ok IsBlockDir rs w Hf) as Hok.
    split; [by apply Hres|]. by rewrite I1, (I5 Hok).
Qed.
Transparent collectBlock.
End OriginCounters.

(** The counters of the discovery after the pass over the concrete
    source. *)
Lemma execute_origin_counters_witness :
  originIterations
    (metrics (post (execute Scenario.IsBlockDir Scenario.rs Scenario.w0))) = 2%nat
  ∧ originMetaLoads
      (metrics (post (execute Scenario.IsBlockDir Scenario.rs Scenario.w0))) = 2%nat.
Proof.
  destruct (execute_origin_counters Scenario.IsBlockDir Scenario.rs Scenario.w0)
    as (v & _ & H1 & H2 & _ & _ & H).
  rewrite H1, H2, H; [|vm_compute; reflexivity]. split; vm_compute; reflexivity.
Defined.

(** The concrete source, read with a test that takes no entry for a block
    directory. *)
Lemma execute_without_block_directories_witness :
  let o := execute (λ _, None) Scenario.rs Scenario.w0 in
  res o = None ∧ toBkt (post o) = toBkt Scenario.w0
  ∧ originIterations (metrics (post o)) = 2%nat.
Proof.
  destruct (execute_without_block_directories (λ _, None) Scenario.rs Scenario.w0)
    as (_ & H1 & _ & _ & H2).
  - vm_compute. repeat constructor.
  - destruct H2 as [H2 H3]; [reflexivity|]. split; [exact H2|]. split; [exact H1|].
    rewrite H3. vm_compute. reflexivity.
Defined.


(** ** Uploads and counters *)

#[global] Arguments uploads : simpl never.
#[global] Arguments replicated : simpl never.

Lemma replicated_advance w : replicated (advance w) = replicated w.
Proof. reflexivity. Qed.

(** Computing the uploads among events. *)
Ltac upl :=
  repeat match goal with
  | |- context [uploads (?a ++ ?b)] => rewrite (uploads_app a b)
  | |- context [uploads (?e :: ?l)] =>
      first [ change (uploads (e :: l)) with (e :: uploads l)
            | change (uploads (e :: l)) with (uploads l) ]
  | |- context [uploads []] => change (uploads []) with (@nil Event)
  end;
  rewrite ?length_app; cbn [length].

(** Closing a goal of accounting with the number [k] of uploads that are
    not counted. *)
Ltac acct k :=
  exists k; unfold replicated, uploads in *; simpl in *;
  rewrite ?List.filter_app, ?length_app in *; simpl in *;
  repeat split; first [lia|done|discriminate|idtac].

Lemma EOR_accounted rs name w :
  let o := ensureObjectReplicated rs name w in accounted w o (res o = None).
Proof.
  unfold accounted, ensureObjectReplicated. cbn.
  next_fault e1 H1; [acct 0%nat|].
  destruct (toBkt w !! name) as [c'|] eqn:Hd; cbn; [acct 0%nat|].
  next_fault e2 H2; [acct 0%nat|].
  destruct (objects (fromBkt rs) !! name) as [c|] eqn:Hs; cbn; [|acct 0%nat].
  next_fault e3 H3; [acct 1%nat|acct 0%nat].
Qed.

Lemma replicateChunk_evts rs name u w :
  evts (replicateChunk rs name u w) = evts (ensureObjectReplicated rs name w).
Proof.
  unfold replicateChunk. rewrite bind_evts.
  destruct (res (ensureObjectReplicated rs name w)); apply app_nil_r.
Qed.

Lemma replicateChunk_accounted rs name u w :
  let o := replicateChunk rs name u w in accounted w o (fst (res o) = None).
Proof.
  cbv zeta. destruct (EOR_accounted rs name w) as (k & Hk & E & K).
  exists k. rewrite replicateChunk_evts, replicateChunk_post.
  split; [done|]. split; [done|]. intros H. apply K. by apply (replicateChunk_res rs name u w).
Qed.

Lemma visitChunks_accounted rs names w :
  let o := visitEntries (replicateChunk rs) names tt w in
  accounted w o (fst (res o) = None).
Proof.
  unfold accounted. revert w. induction names as [|n names IH]; intros w; cbn.
  { acct 0%nat. }
  next_fault e H; [acct 0%nat|].
  destruct (replicateChunk_accounted rs n tt (advance w)) as (k1 & Hk1 & E1 & K1).
  change (replicated (advance w)) with (replicated w) in E1.
  destruct (res (replicateChunk rs n tt (advance w))) as [[e|] []] eqn:Hr; cbn.
  - exists k1. rewrite app_nil_r. repeat split; first [done|lia].
  - destruct (IH (post (replicateChunk rs n tt (advance w)))) as (k2 & Hk2 & E2 & K2).
    rewrite (K1 eq_refl) in E1. exists k2.
    fold (uploads (evts (replicateChunk rs n () (advance w))
                   ++ evts (visitEntries (replicateChunk rs) names ()
                              (post (replicateChunk rs n () (advance w)))))).
    rewrite uploads_app, length_app. repeat split; first [done|lia].
Qed.

Lemma chunks_accounted rs dir w :
  let o := fromBkt_Iter rs dir (replicateChunk rs) tt w in
  accounted w o (fst (res o) = None).
Proof.
  unfold accounted, fromBkt_Iter. cbn.
  set (names := map (entryName dir) (entries (fromBkt rs) dir)).
  destruct (visitChunks_accounted rs names w) as (k & Hk & E & K).
  set (o := visitEntries (replicateChunk rs) names tt w) in *.
  destruct (res o) as [[e|] []] eqn:Hr; cbn.
  - exists k. rewrite app_nil_r. repeat split; first [done|lia].
  - exists k. rewrite (K eq_refl) in E |- *.
    change (FromIter dir :: evts o ++ []) with ([FromIter dir] ++ evts o ++ []).
    rewrite !uploads_app, !length_app, replicated_advance. simpl.
    repeat split; first [done|lia].
Qed.

Lemma TC_accounted rs id c w :
  let o := transferAndCommit rs id c w in accounted w o (res o = None).
Proof.
  unfold accounted, transferAndCommit. cbn.
  set (o1 := fromBkt_Iter _ _ _ _ w).
  destruct (chunks_accounted rs (path_Join (ULID_String id) ChunksDirname) w)
    as (k1 & Hk1 & E1 & K1). fold o1 in E1, K1.
  destruct (res o1) as [[e|] []] eqn:Hr1; cbn.
  { exists k1. rewrite app_nil_r. repeat split; first [done|lia]. }
  set (o2 := ensureObjectReplicated _ _ (post o1)).
  destruct (EOR_accounted rs (path_Join (ULID_String id) IndexFilename) (post o1))
    as (k2 & Hk2 & E2 & K2). fold o2 in E2, K2.
  rewrite (K1 eq_refl) in E1.
  destruct (res o2) as [e|] eqn:Hr2; cbn.
  { exists k2. rewrite app_nil_r, uploads_app, length_app.
    repeat split; first [done|lia]. }
  rewrite (K2 eq_refl) in E2.
  next_fault e H.
  - exists 1%nat. upl. unfold replicated in *. cbn.
    repeat split; first [lia|done].
  - exists 0%nat. upl. unfold replicated in *. cbn.
    repeat split; lia.
Qed.

Lemma EBR_accounted rs id w :
  let o := ensureBlockIsReplicated rs id w in accounted w o (res o = None).
Proof.
  cbv zeta.
  destruct (EBR_cases rs id w)
    as [(e & fs & _ & _ & Hp & He)
       |[(fs & _ & _ & _ & Hp & He)|(c & fs & _ & _ & Hr & Hp & He)]].
  - exists 0%nat. rewrite Hp. unfold blockStartLog.
    destruct He as [-> | ->]; upl; unfold replicated; cbn;
      repeat split; first [lia|done].
  - exists 0%nat. rewrite Hp, He. unfold blockStartLog. upl. unfold replicated. cbn.
    repeat split; first [lia|done].
  - destruct (TC_accounted rs id c (mkWorld (toBkt w) (metrics w) fs)) as (k & Hk & E & K).
    exists k. rewrite He, Hp, Hr.
    unfold blockStartLog. upl. repeat split; [done|exact E|exact K].
Qed.

Lemma RB_accounted rs l w :
  let o := replicateBlocks rs l w in accounted w o (res o = None).
Proof.
  unfold accounted. revert w. induction l as [|b l IH]; intros w; cbn.
  { acct 0%nat. }
  destruct (EBR_accounted rs (bm_ULID (Meta_BlockMeta b)) w) as (k1 & Hk1 & E1 & K1).
  set (ob := ensureBlockIsReplicated rs (bm_ULID (Meta_BlockMeta b)) w) in *.
  destruct (res ob) as [e|] eqn:Hr; cbn.
  - exists k1. rewrite app_nil_r. repeat split; first [done|lia].
  - destruct (IH (post ob)) as (k2 & Hk2 & E2 & K2).
    rewrite (K1 eq_refl) in E1. exists k2.
    rewrite uploads_app, length_app. repeat split; first [done|lia].
Qed.

Lemma replicated_counters w w' :
  replicationCounters w' = replicationCounters w → replicated w' = replicated w.
Proof.
  unfold replicationCounters, replicated. intros H. injection H as _ -> ->. done.
Qed.

(** X8.  The uploads of a pass are accounted for by its counters: in a pass
    that returns no error, the number of uploads to the destination is the
    number by which [objectsReplicated] and [blocksReplicated] have risen
    together; in a pass that fails, at most one upload, the one that failed,
    is not counted.  The same holds for one block transfer. *)
Theorem execute_uploads_accounted IsBlockDir rs w :
  let o := execute IsBlockDir rs w in
  (∃ k, k ≤ 1
     ∧ (replicated w + length (uploads (evts o)) = replicated (post o) + k)%nat
     ∧ (res o = None → k = 0%nat))
  ∧ ∀ id, let ob := ensureBlockIsReplicated rs id w in
      ∃ k, k ≤ 1
        ∧ (replicated w + length (uploads (evts ob)) = replicated (post ob) + k)%nat
        ∧ (res ob = None → k = 0%nat).
Proof.
  cbv zeta. split; [|intros id; apply EBR_accounted].
  pose proof (execute_cases IsBlockDir rs w) as H. cbv zeta in H.
  pose proof (isDiscovery_uploads _ (discovery_isDiscovery IsBlockDir rs w)) as Hu.
  pose proof (discovery_preserves IsBlockDir (sameOn replicationCounters) rs w) as Hc.
  apply replicated_counters in Hc.
  destruct (fst (res (discovery IsBlockDir rs w))) as [e|].
  - destruct H as (-> & Hp & He). exists 0%nat. rewrite He, Hp, Hc.
    change (?a :: ?l) with ([a] ++ l). rewrite uploads_app, Hu.
    repeat split; first [done|simpl; lia].
  - destruct H as (evs & Hevs & Hr & Hp & He).
    destruct (RB_accounted rs (sortedCandidates IsBlockDir rs w)
                (post (discovery IsBlockDir rs w))) as (k & Hk & E & K).
    exists k. rewrite He, Hp, Hr. change (?a :: ?l) with ([a] ++ l).
    rewrite !uploads_app, Hu, (isDiscovery_uploads _ Hevs), !length_app. simpl.
    rewrite Hc in E. repeat split; [done|exact E|exact K].
Qed.

(** The pass over the concrete source uploads six objects: four counted as
    objects, two as blocks. *)
Lemma execute_uploads_accounted_witness :
  let o := execute Scenario.IsBlockDir Scenario.rs Scenario.w0 in
  (replicated Scenario.w0 + length (uploads (evts o)) = replicated (post o) + 0)%nat.
Proof.
  destruct (execute_uploads_accounted Scenario.IsBlockDir Scenario.rs Scenario.w0)
    as [(k & _ & E & K) _].
  rewrite (K ltac:(vm_compute; reflexivity)) in E. exact E.
Defined.


(** ** Where the errors come from *)

#[global] Instance Frame_scriptShrinks : Frame scriptShrinks.
Proof.
  split; unfold scriptShrinks.
  - done.
  - intros w1 w2 w3 H12 H23. by etrans.
  - intros w. simpl. by apply suffix_tail.
Qed.

#[global] Instance DiscoveryFrame_scriptShrinks : DiscoveryFrame scriptShrinks.
Proof. split; [apply _|]. intros w f _. by unfold scriptShrinks. Qed.

Lemma EOR_scriptShrinks rs name :
  preserves scriptShrinks (ensureObjectReplicated rs name).
Proof. apply EOR_preserves; [apply _|]. intros w c _ _. by unfold scriptShrinks. Qed.

Lemma EBR_scriptShrinks rs id :
  preserves scriptShrinks (ensureBlockIsReplicated rs id).
Proof.
  apply EBR_preserves; [apply _|..].
  - intros name _. apply EOR_scriptShrinks.
  - intros c w _. by unfold scriptShrinks.
  - intros w _. by unfold scriptShrinks.
Qed.

Lemma blamed_extend rs script script1 rest evs evs2 e :
  script1 `suffix_of` script → evs2 `suffix_of` evs →
  blamed rs script1 rest evs2 e → blamed rs script rest evs e.
Proof.
  intros Hs [k ->] [(f & Hf & Hc)|(Hc & name & Hl & Hn)].
  - left. exists f. split; [by etrans|done].
  - right. split; [done|]. exists name. split; [|done]. by rewrite last_app, Hl.
Qed.

Lemma blamed_wrap rs script rest evs e msg :
  blamed rs script rest evs e → blamed rs script rest evs (withMessage e msg).
Proof. done. Qed.

(** The call made last has failed. *)
Lemma nextFault_blamed rs w script evs e :
  nextFault w = Some e → faults w `suffix_of` script →
  blamed rs script (faults (advance w)) evs e.
Proof.
  unfold nextFault. intros H Hs. left. exists e. split; [|done].
  change (faults (advance w)) with (tail (faults w)).
  destruct (faults w) as [|f fs]; [done|]. subst f. exact Hs.
Qed.

(** The object read last is not in the source. *)
Lemma notFound_blamed rs script rest evs name :
  last evs = Some (FromGet name) → objects (fromBkt rs) !! name = None →
  blamed rs script rest evs errNotFound.
Proof. intros Hl Hn. right. split; [done|]. by exists name. Qed.

#[global] Opaque blamed.

(** The events of a part of a run that ends the run. *)
Ltac ends :=
  rewrite ?app_nil_r;
  repeat first [reflexivity | apply suffix_cons_r | apply suffix_app_r].

(** The error at hand is the outcome [H] of the call made last, or the
    object read last that the source does not hold, wrapped. *)
Ltac blame H :=
  intros [= <-]; repeat apply blamed_wrap;
  first
    [ apply (nextFault_blamed _ _ _ _ _ H); tails
    | eapply notFound_blamed; [reflexivity|eassumption] ].

(** The error at hand is the one that the part [B] of the run is blamed
    for, wrapped. *)
Ltac blame_part B :=
  repeat apply blamed_wrap;
  eapply blamed_extend; [| |exact B]; [try tails|ends].

Lemma EOR_blames rs name : blames rs (ensureObjectReplicated rs name).
Proof.
  intros w e. unfold ensureObjectReplicated. cbn.
  next_fault e1 H1; [blame H1|].
  destruct (toBkt w !! name) as [c'|] eqn:Hd; cbn; [discriminate|].
  next_fault e2 H2; [blame H2|].
  destruct (objects (fromBkt rs) !! name) as [c|] eqn:Hs; cbn; [|blame H2].
  next_fault e3 H3; [blame H3|discriminate].
Qed.

Lemma visitEntries_blames {A} rs (f : string → A → M (option error * A)) names :
  (∀ n acc, preserves scriptShrinks (f n acc)) →
  (∀ n acc w e, fst (res (f n acc w)) = Some e →
     blamed rs (faults w) (faults (post (f n acc w))) (evts (f n acc w)) e) →
  ∀ acc w e, fst (res (visitEntries f names acc w)) = Some e →
    blamed rs (faults w) (faults (post (visitEntries f names acc w)))
      (evts (visitEntries f names acc w)) e.
Proof.
  intros Hp Hf. induction names as [|n names IH]; intros acc w e; cbn; [discriminate|].
  next_fault e1 H1; [blame H1|].
  pose proof (Hf n acc (advance w)) as Hn. pose proof (Hp n acc (advance w)) as Hs.
  destruct (res (f n acc (advance w))) as [[e'|] acc'] eqn:Hr; cbn.
  - intros [= <-]. specialize (Hn _ eq_refl). blame_part Hn.
  - intros He. specialize (IH _ _ _ He).
    eapply blamed_extend; [| |exact IH]; [|ends].
    etrans; [exact Hs|]. simpl. tails.
Qed.

Lemma Iter_blames {A} rs dir (f : string → A → M (option error * A)) acc w e :
  (∀ n acc, preserves scriptShrinks (f n acc)) →
  (∀ n acc w e, fst (res (f n acc w)) = Some e →
     blamed rs (faults w) (faults (post (f n acc w))) (evts (f n acc w)) e) →
  fst (res (fromBkt_Iter rs dir f acc w)) = Some e →
  blamed rs (faults w) (faults (post (fromBkt_Iter rs dir f acc w)))
    (evts (fromBkt_Iter rs dir f acc w)) e.
Proof.
  intros Hp Hf. unfold fromBkt_Iter. cbn.
  pose proof (visitEntries_blames rs f (map (entryName dir) (entries (fromBkt rs) dir))
                Hp Hf acc w) as Hv.
  pose proof (preserves_visitEntries scriptShrinks f
                (map (entryName dir) (entries (fromBkt rs) dir))
                (λ n acc _, Hp n acc) acc w) as Hs.
  destruct (res (visitEntries f _ acc w)) as [[e'|] acc'] eqn:Hr; cbn.
  - intros [= <-]. specialize (Hv _ eq_refl). blame_part Hv.
  - intros H. apply (nextFault_blamed _ _ _ _ _ H). exact Hs.
Qed.

Lemma replicateChunk_blames rs n u w e :
  fst (res (replicateChunk rs n u w)) = Some e →
  blamed rs (faults w) (faults (post (replicateChunk rs n u w)))
    (evts (replicateChunk rs n u w)) e.
Proof.
  unfold replicateChunk. rewrite bind_res, bind_post, bind_evts.
  pose proof (EOR_blames rs n w) as H.
  destruct (res (ensureObjectReplicated rs n w)) as [e'|]; cbn; [|discriminate].
  intros [= <-]. specialize (H _ eq_refl). blame_part H.
Qed.

Lemma chunks_scriptShrinks rs dir :
  preserves scriptShrinks (fromBkt_Iter rs dir (replicateChunk rs) tt).
Proof.
  apply preserves_Iter; [apply _|]. intros n u _.
  apply replicateChunk_preserves; [apply _|]. apply EOR_scriptShrinks.
Qed.

Lemma TC_blames rs id c : blames rs (transferAndCommit rs id c).
Proof.
  intros w e. unfold transferAndCommit. cbn.
  set (o1 := fromBkt_Iter _ _ _ _ w).
  assert (B1 : ∀ e, fst (res o1) = Some e →
            blamed rs (faults w) (faults (post o1)) (evts o1) e).
  { intros e0. apply Iter_blames.
    - intros n u. apply replicateChunk_preserves; [apply _|]. apply EOR_scriptShrinks.
    - intros n u w' e'. apply replicateChunk_blames. }
  pose proof (chunks_scriptShrinks rs (path_Join (ULID_String id) ChunksDirname) w) as S1.
  fold o1 in S1.
  destruct (res o1) as [[e1|] []] eqn:Hr1; cbn.
  { intros [= <-]. specialize (B1 _ eq_refl). blame_part B1. }
  set (o2 := ensureObjectReplicated _ _ (post o1)).
  pose proof (EOR_blames rs (path_Join (ULID_String id) IndexFilename) (post o1)) as B2.
  pose proof (EOR_scriptShrinks rs (path_Join (ULID_String id) IndexFilename) (post o1))
    as S2.
  fold o2 in B2, S2.
  destruct (res o2) as [e2|] eqn:Hr2; cbn.
  { intros [= <-]. specialize (B2 _ eq_refl). blame_part B2. exact S1. }
  next_fault e3 H3; [|discriminate].
  intros [= <-]. apply blamed_wrap.
  apply (nextFault_blamed _ _ _ _ _ H3).
  etrans; [exact S2|exact S1].
Qed.

Lemma EBR_blames rs id : blames rs (ensureBlockIsReplicated rs id).
Proof.
  intros w e. unfold ensureBlockIsReplicated.
  set (mf := path_Join (ULID_String id) MetaFilename).
  set (bid := ULID_String id).
  cbn.
  next_fault e1 H1; [blame H1|].
  destruct (objects (fromBkt rs) !! mf) as [c|] eqn:Hsrc; cbn; [|blame H1].
  assert (Hgo : ∀ fs evs0,
            fs `suffix_of` faults w →
            let o1 := transferAndCommit rs id c (mkWorld (toBkt w) (metrics w) fs) in
            res o1 = Some e →
            blamed rs (faults w) (faults (post o1)) (evs0 ++ evts o1) e).
  { intros fs evs0 Hfs o1 He.
    pose proof (TC_blames rs id c _ _ He) as B. fold o1 in B.
    eapply blamed_extend; [exact Hfs| |exact B]. by apply suffix_app_r. }
  next_fault e2 H2.
  - destruct (decide (Cause e2 = errNotFound)) as [Hc|Hc];
      [rewrite (bool_decide_true _ Hc)|rewrite (bool_decide_false _ Hc)]; cbn.
    + next_fault e3 H3; [blame H3|].
      apply (Hgo _ [_; _; _]). tails.
    + destruct (decide (Some e2 ≠ Some io_EOF)) as [He|He];
        [rewrite (bool_decide_true _ He)|rewrite (bool_decide_false _ He)]; cbn.
      { blame H2. }
      next_fault e3 H3; [blame H3|].
      apply (Hgo _ [_; _; _]). tails.
  - destruct (toBkt w !! mf) as [c'|] eqn:Hdst; cbn.
    + next_fault e3 H3; [blame H3|].
      next_fault e4 H4; [blame H4|].
      case_bool_decide; cbn; [discriminate|].
      apply (Hgo _ [_; _; _]). tails.
    + rewrite (bool_decide_true (errNotFound = errNotFound)) by done. cbn.
      next_fault e3 H3; [blame H3|].
      apply (Hgo _ [_; _; _]). tails.
Qed.

Lemma RB_blames rs l : blames rs (replicateBlocks rs l).
Proof.
  induction l as [|b l IH]; intros w e; cbn; [discriminate|].
  pose proof (EBR_blames rs (bm_ULID (Meta_BlockMeta b)) w) as Hb.
  pose proof (EBR_scriptShrinks rs (bm_ULID (Meta_BlockMeta b)) w) as Hs.
  destruct (res (ensureBlockIsReplicated rs (bm_ULID (Meta_BlockMeta b)) w)) as [e'|];
    cbn.
  - intros [= <-]. specialize (Hb _ eq_refl). blame_part Hb.
  - intros He. pose proof (IH _ _ He) as B.
    eapply blamed_extend; [exact Hs| |exact B]. ends.
Qed.

Section Blame.
Variable IsBlockDir : string → option ULID.

Lemma collectBlock_blames rs name acc w e :
  fst (res (collectBlock IsBlockDir rs name acc w)) = Some e →
  blamed rs (faults w) (faults (post (collectBlock IsBlockDir rs name acc w)))
    (evts (collectBlock IsBlockDir rs name acc w)) e.
Proof.
  unfold collectBlock. cbn.
  destruct (IsBlockDir name) as [id|]; cbn; [|discriminate].
  unfold loadMeta, fetcher_Fetch. cbn.
  next_fault e1 H1.
  { case_bool_decide; cbn; [discriminate|]. blame H1. }
  destruct (fetcher rs !! id) as [meta|]; cbn; [|discriminate].
  case_bool_decide; cbn; discriminate.
Qed.

Lemma execute_blames rs : blames rs (execute IsBlockDir rs).
Proof.
  intros w e.
  pose proof (execute_cases IsBlockDir rs w) as H. cbv zeta in H.
  pose proof (discovery_preserves IsBlockDir scriptShrinks rs w) as Hs.
  destruct (fst (res (discovery IsBlockDir rs w))) as [e0|] eqn:Hd.
  - destruct H as (-> & -> & ->). intros [= <-]. apply blamed_wrap.
    eapply blamed_extend; [reflexivity|by apply suffix_cons_r|].
    revert Hd. apply Iter_blames.
    + intros n acc. apply (collectBlock_preserves IsBlockDir scriptShrinks).
    + intros n acc w' e'. apply collectBlock_blames.
  - destruct H as (evs & _ & -> & -> & ->). intros He.
    pose proof (RB_blames rs _ _ _ He) as B.
    eapply blamed_extend; [exact Hs| |exact B].
    apply suffix_cons_r. rewrite app_assoc. by apply suffix_app_r.
Qed.
End Blame.

#[global] Transparent blamed.

(** X9.  The engine makes up no error.  When a pass, a block transfer or
    an object transfer returns an error, the cause of that error (what
    [errors.Cause] finds under the messages it was wrapped with) is the
    cause of the failure of the call that the run made last on a bucket
    or on the fetcher: the run took that failure from the script last, and
    stopped.  Or the cause is the not-found error of the source, and the
    last event of the run is the read of an object that the source does
    not hold. *)
Theorem execute_errors_are_blamed IsBlockDir rs w :
  (∀ e, let o := execute IsBlockDir rs w in
     res o = Some e → blamed rs (faults w) (faults (post o)) (evts o) e)
  ∧ (∀ id e, let o := ensureBlockIsReplicated rs id w in
       res o = Some e → blamed rs (faults w) (faults (post o)) (evts o) e)
  ∧ (∀ name e, let o := ensureObjectReplicated rs name w in
       res o = Some e → blamed rs (faults w) (faults (post o)) (evts o) e).
Proof.
  split; [|split].
  - apply execute_blames.
  - intros id. apply EBR_blames.
  - intros name. apply EOR_blames.
Qed.

(** The pass whose transfer of an index fails: the failure injected at the
    existence check is the entry of the script that the pass took last,
    and the error of the pass is that failure under three messages. *)
Lemma execute_errors_are_blamed_witness :
  let o := execute Scenario.IsBlockDir Scenario.rs Scenario.wPassIndexFails in
  blamed Scenario.rs (faults Scenario.wPassIndexFails) (faults (post o)) (evts o)
    (withMessage
       (withMessage
          (withMessage Scenario.injected
             ("check if " +:+ indexFileOf Scenario.idE
              +:+ " exists in target bucket"))
          "replicate index file")
       ("ensure block " +:+ blockIDOf Scenario.metaE +:+ " is replicated")).
Proof.
  destruct (execute_errors_are_blamed Scenario.IsBlockDir Scenario.rs
              Scenario.wPassIndexFails) as (H & _).
  apply H. vm_compute. reflexivity.
Defined.


(** ** The reads of the two meta files *)

(** X11.  How a block transfer reads the two meta files.  When the meta
    file cannot be had from the source (the call fails, or the source does
    not hold it), the transfer returns that error without a call on the
    destination.  When the read from the destination fails with an error
    that is neither a not-found error nor [io.EOF], the transfer returns
    that error; in both cases the destination and the counters are as
    before.  When it fails with a not-found error or with [io.EOF], the
    transfer goes on as for a block whose meta file the destination lacks:
    it reads the meta file of the source and transfers the objects. *)
Theorem EBR_meta_reads rs id w :
  let o := ensureBlockIsReplicated rs id w in
  let mf := metaFileOf id in
  let src := res (fromBkt_Get rs mf w) in
  let dst := res (toBkt_Get mf (advance w)) in
  (∀ e, snd src = Some e →
     res o = Some (withMessage e "get meta file from origin bucket")
     ∧ evts o = [blockStartLog id; FromGet mf]
     ∧ toBkt (post o) = toBkt w ∧ metrics (post o) = metrics w)
  ∧ (∀ e, snd src = None → snd dst = Some e →
       IsObjNotFoundErr (Some e) = false → e ≠ io_EOF →
       res o = Some (withMessage e "get meta file from target bucket")
       ∧ evts o = [blockStartLog id; FromGet mf; ToGet mf]
       ∧ toBkt (post o) = toBkt w ∧ metrics (post o) = metrics w)
  ∧ (∀ e c, fst src = Some c → snd src = None → snd dst = Some e →
       IsObjNotFoundErr (Some e) = true ∨ e = io_EOF →
       match nextFault (advance (advance w)) with
       | Some e3 =>
           res o = Some (withMessage e3 "read origin meta file")
           ∧ toBkt (post o) = toBkt w ∧ metrics (post o) = metrics w
       | None =>
           let o1 := transferAndCommit rs id c (advance (advance (advance w))) in
           res o = res o1 ∧ post o = post o1
           ∧ evts o = [blockStartLog id; FromGet mf; ToGet mf] ++ evts o1
       end).
Proof.
  cbv zeta. unfold ensureBlockIsReplicated, fromBkt_Get, toBkt_Get, blockStartLog.
  fold (metaFileOf id). cbn.
  split; [|split].
  - intros e. next_fault e1 H1.
    { intros [= <-]. done. }
    destruct (objects (fromBkt rs) !! metaFileOf id) as [c|]; cbn; [discriminate|].
    intros [= <-]. done.
  - intros e. next_fault e1 H1; [discriminate|].
    destruct (objects (fromBkt rs) !! metaFileOf id) as [c|]; cbn; [|discriminate].
    intros _.
    destruct (nextFault (advance w)) as [e2|] eqn:H2; cbn.
    + intros [= <-] Hnf Heof. cbn in Hnf. rewrite Hnf. cbn.
      rewrite (bool_decide_true (Some e2 ≠ Some io_EOF)) by congruence. done.
    + destruct (toBkt w !! metaFileOf id) as [c'|]; cbn; [discriminate|].
      intros [= <-]. rewrite (bool_decide_true (errNotFound = errNotFound)) by done.
      discriminate.
  - intros e c. next_fault e1 H1; [discriminate|].
    destruct (objects (fromBkt rs) !! metaFileOf id) as [c0|]; cbn; [|discriminate].
    intros [= ->] _.
    destruct (nextFault (advance w)) as [e2|] eqn:H2; cbn.
    + intros [= <-] Hc.
      assert (Hb : negb (bool_decide (Cause e2 = errNotFound))
                   && bool_decide (Some e2 ≠ Some io_EOF) = false).
      { destruct Hc as [Hc| ->]; [cbn in Hc; by rewrite Hc|].
        rewrite (bool_decide_false (Some io_EOF ≠ Some io_EOF)) by (intros H; by apply H).
        apply andb_false_r. }
      rewrite Hb. cbn.
      destruct (nextFault (advance (advance w))) as [e3|] eqn:H3; cbn; done.
    + destruct (toBkt w !! metaFileOf id) as [c'|]; cbn; [discriminate|].
      intros [= <-] _. rewrite (bool_decide_true (errNotFound = errNotFound)) by done.
      cbn.
      destruct (nextFault (advance (advance w))) as [e3|] eqn:H3; cbn; done.
Qed.

(** The source has no meta file for the block with identifier 3. *)
Lemma EBR_meta_reads_witness :
  let o := ensureBlockIsReplicated Scenario.rs 3%N Scenario.w0 in
  res o = Some (withMessage errNotFound "get meta file from origin bucket")
  ∧ evts o = [blockStartLog 3%N; FromGet (metaFileOf 3%N)]
  ∧ toBkt (post o) = toBkt Scenario.w0 ∧ metrics (post o) = metrics Scenario.w0.
Proof.
  destruct (EBR_meta_reads Scenario.rs 3%N Scenario.w0) as (H & _).
  apply H. vm_compute. reflexivity.
Defined.

(** ** The three shapes of the result of [loadMeta] *)

(** X12.  [loadMeta] returns a meta only together with a false flag and no
    error, and the meta is then the one that the fetcher holds for the
    identifier; without a meta it returns the flag or an error.  Hence the
    visitor of the pass, which reads the labels of the meta once it has
    found the flag false and the error nil, never reads a nil meta. *)
Theorem loadMeta_meta_or_reason rs id w :
  let r := res (loadMeta rs id w) in
  match fst (fst r) with
  | Some m => snd (fst r) = false ∧ snd r = None ∧ fetcher rs !! id = Some m
  | None => snd (fst r) = true ∨ snd r ≠ None
  end
  ∧ ∀ IsBlockDir name acc,
      fst (res (collectBlock IsBlockDir rs name acc w))
      ≠ Some (errOther "nil pointer dereference").
Proof.
  cbv zeta. split.
  - unfold loadMeta, fetcher_Fetch. cbn.
    destruct (nextFault w) as [e|]; cbn.
    + case_bool_decide; cbn; auto.
    + destruct (fetcher rs !! id) as [m|] eqn:Hm; cbn; auto.
  - intros IsBlockDir name acc. unfold collectBlock. cbn.
    destruct (IsBlockDir name) as [id'|]; cbn; [|discriminate].
    unfold loadMeta, fetcher_Fetch. cbn.
    destruct (nextFault _) as [e|]; cbn.
    + case_bool_decide; cbn; discriminate.
    + destruct (fetcher rs !! id') as [m|]; cbn; [|discriminate].
      case_bool_decide; cbn; discriminate.
Qed.

(** ** The allow-lists of the block filter *)

Lemma list_to_set_same (l l' : list Z) :
  (∀ x, x ∈ l ↔ x ∈ l') → list_to_set (C:=gset Z) l = list_to_set l'.
Proof.
  intros H. apply set_eq. intros x. rewrite !elem_of_list_to_set. apply H.
Qed.

(** X13.  [NewBlockFilter] reads its two lists of levels as sets: a block
    that the filter accepts has its resolution in the first list and its
    compaction level in the second; two filters built from lists with the
    same elements, in whatever order and however often repeated, give the
    same verdict and write the same record on every block; and a filter
    built with an empty list accepts no block. *)
Theorem NewBlockFilter_allow_lists sel resolutions compactions b :
  (fst (Filter (NewBlockFilter sel resolutions compactions) b) = true →
     Downsample_Resolution (Meta_Thanos b) ∈ resolutions
     ∧ Compaction_Level (Meta_BlockMeta b) ∈ compactions)
  ∧ (∀ resolutions' compactions',
       (∀ x, x ∈ resolutions ↔ x ∈ resolutions') →
       (∀ x, x ∈ compactions ↔ x ∈ compactions') →
       Filter (NewBlockFilter sel resolutions' compactions') b
       = Filter (NewBlockFilter sel resolutions compactions) b)
  ∧ (resolutions = [] ∨ compactions = [] →
     fst (Filter (NewBlockFilter sel resolutions compactions) b) = false).
Proof.
  split; [|split].
  - rewrite Filter_verdict, !andb_true_iff, !bool_decide_eq_true. simpl.
    rewrite !elem_of_list_to_set. tauto.
  - intros rs' cs' Hr Hc. unfold NewBlockFilter.
    by rewrite (list_to_set_same _ _ Hr), (list_to_set_same _ _ Hc).
  - rewrite Filter_verdict. simpl. intros [-> | ->]; simpl.
    + rewrite (bool_decide_false (_ ∈ ∅)) by apply not_elem_of_empty.
      by rewrite andb_false_r.
    + rewrite (bool_decide_false (_ ∈ ∅)) by apply not_elem_of_empty.
      by rewrite andb_false_r.
Qed.

(** The filter of the concrete scenario, with its lists written with
    repetitions. *)
Lemma NewBlockFilter_allow_lists_witness :
  Filter (NewBlockFilter Scenario.selector [0; 0]%Z [1; 1; 1]%Z) Scenario.metaD
  = Filter (NewBlockFilter Scenario.selector [0]%Z [1]%Z) Scenario.metaD.
Proof.
  destruct (NewBlockFilter_allow_lists Scenario.selector [0]%Z [1]%Z Scenario.metaD)
    as (_ & H & _).
  apply H.
  - intros x. rewrite !elem_of_cons. tauto.
  - intros x. rewrite !elem_of_cons. tauto.
Defined.

(** X14.  [Filter] writes to its logger exactly when it rejects: nothing
    for a block that it accepts, and for a block that it rejects one record
    with the message "filtering block" and the reason; the record is at
    error level when the block has no external labels, at debug level
    otherwise. *)
Theorem Filter_logs_when_it_rejects bf b :
  match Filter bf b with
  | (true, records) => records = []
  | (false, records) =>
      ∃ lvl reason, records = [Log lvl "filtering block" "reason" reason]
        ∧ (lvl = levelError ↔ Labels (Meta_Thanos b) = ∅)
        ∧ (lvl = levelDebug ↔ Labels (Meta_Thanos b) ≠ ∅)
  end.
Proof.
  unfold Filter. case_bool_decide as Hl.
  - apply map_size_empty_iff in Hl. eexists _, _. split; [done|]. split; split; done.
  - assert (Hne : Labels (Meta_Thanos b) ≠ ∅) by (by rewrite <- map_size_empty_iff).
    destruct (Selector_Matches _ _); simpl.
    2: { eexists _, _. split; [done|]. split; split; done. }
    destruct (bool_decide (_ ∈ resolutionLevels bf)); simpl.
    2: { eexists _, _. split; [done|]. split; split; done. }
    destruct (bool_decide (_ ∈ compactionLevels bf)); simpl; [done|].
    eexists _, _. split; [done|]. split; split; done.
Qed.


(** ** Where a pass writes *)

#[global] Instance Frame_changesWithin paths : Frame (changesWithin paths).
Proof.
  split; unfold changesWithin.
  - done.
  - intros w1 w2 w3 H12 H23 p Hp. by rewrite H23, H12.
  - done.
Qed.

#[global] Instance DiscoveryFrame_changesWithin paths : DiscoveryFrame (changesWithin paths).
Proof. split; [apply _|]. by intros w f _ p Hp. Qed.

Lemma EOR_changesWithin (paths : string → Prop) rs name :
  paths name → preserves (changesWithin paths) (ensureObjectReplicated rs name).
Proof.
  intros Hn. apply EOR_preserves; [apply _|].
  intros w c _ _ p Hp. simpl. rewrite lookup_insert_ne; [done|]. by intros ->.
Qed.

Lemma EOR_uploadsWithin (paths : string → Prop) rs name :
  paths name → emits (uploadsWithin paths) (ensureObjectReplicated rs name).
Proof.
  intros Hn. unfold ensureObjectReplicated, toBkt_Exists, fromBkt_Get, toBkt_Upload,
    objectsReplicated_Inc.
  repeat emits_step; intros p [= <-]; done.
Qed.

Lemma replicateChunk_emits P rs name u :
  emits P (ensureObjectReplicated rs name) → emits P (replicateChunk rs name u).
Proof.
  intros H. unfold replicateChunk.
  apply emits_bind; [done|intros [e|]]; apply emits_ret.
Qed.

Section Within.
Context (paths : string → Prop) (rs : replicationScheme) (id : ULID).
Hypothesis Hpaths : ∀ p, p ∈ blockFilesOf rs id → paths p.

Lemma chunkFile_within n :
  n ∈ map (entryName (chunksDirOf id)) (entries (fromBkt rs) (chunksDirOf id)) →
  paths n.
Proof.
  intros Hn. apply Hpaths. unfold blockFilesOf, objectFilesOf, chunkFilesOf.
  right. apply elem_of_app. by left.
Qed.

Lemma indexFile_within : paths (indexFileOf id).
Proof.
  apply Hpaths. unfold blockFilesOf, objectFilesOf.
  right. apply elem_of_app. right. by left.
Qed.

Lemma metaFile_within : paths (metaFileOf id).
Proof. apply Hpaths. by left. Qed.

Lemma TC_changesWithin c : preserves (changesWithin paths) (transferAndCommit rs id c).
Proof.
  unfold transferAndCommit.
  apply preserves_bind; [apply _| |intros [[e|] []]]; simpl.
  { apply preserves_Iter; [apply _|]. intros n u Hn.
    apply replicateChunk_preserves; [apply _|].
    by apply EOR_changesWithin, chunkFile_within. }
  { by apply (preserves_ret (changesWithin paths)). }
  apply preserves_bind; [apply _|apply EOR_changesWithin, indexFile_within|intros [e|]].
  { by apply (preserves_ret (changesWithin paths)). }
  apply preserves_bind; [apply _|by apply (preserves_logf (changesWithin paths))|intros _].
  intros w. cbn. next_fault e H; [done|].
  intros p Hp. simpl. rewrite lookup_insert_ne; [done|].
  intros <-. apply Hp, metaFile_within.
Qed.

Lemma TC_uploadsWithin c : emits (uploadsWithin paths) (transferAndCommit rs id c).
Proof.
  unfold transferAndCommit.
  apply emits_bind; [|intros [[e|] []]]; simpl.
  { apply emits_Iter; [by intros p|]. intros n u Hn.
    by apply replicateChunk_emits, EOR_uploadsWithin, chunkFile_within. }
  { apply emits_ret. }
  apply emits_bind; [apply EOR_uploadsWithin, indexFile_within|intros [e|]].
  { apply emits_ret. }
  unfold toBkt_Upload, blocksReplicated_Inc.
  repeat emits_step; intros p [= <-]. apply metaFile_within.
Qed.

Lemma EBR_changesWithin : preserves (changesWithin paths) (ensureBlockIsReplicated rs id).
Proof.
  intros w.
  destruct (EBR_cases rs id w)
    as [(e & fs & _ & _ & -> & _)
       |[(fs & _ & _ & _ & -> & _)|(c & fs & _ & _ & _ & -> & _)]].
  - by intros p Hp.
  - by intros p Hp.
  - intros p Hp.
    by rewrite (TC_changesWithin c (mkWorld (toBkt w) (metrics w) fs) p Hp).
Qed.

Lemma EBR_uploadsWithin : emits (uploadsWithin paths) (ensureBlockIsReplicated rs id).
Proof.
  intros w.
  destruct (EBR_cases rs id w)
    as [(e & fs & _ & _ & _ & [-> | ->])
       |[(fs & _ & _ & _ & _ & ->)|(c & fs & _ & _ & _ & _ & ->)]].
  - repeat constructor; by intros p.
  - repeat constructor; by intros p.
  - repeat constructor; by intros p.
  - apply Forall_app. split; [repeat constructor; by intros p|].
    constructor; [by intros p|]. apply TC_uploadsWithin.
Qed.
End Within.

Lemma RB_changesWithin (paths : string → Prop) rs l :
  (∀ b p, b ∈ l → p ∈ blockFilesOf rs (bm_ULID (Meta_BlockMeta b)) → paths p) →
  preserves (changesWithin paths) (replicateBlocks rs l).
Proof.
  induction l as [|b l IH]; intros Hl; simpl.
  - by apply (preserves_ret (changesWithin paths)).
  - apply preserves_bind; [apply _| |intros [e|]].
    + apply EBR_changesWithin. intros p. apply Hl. by left.
    + by apply (preserves_ret (changesWithin paths)).
    + apply IH. intros b' p Hb'. apply Hl. by right.
Qed.

Lemma RB_uploadsWithin (paths : string → Prop) rs l :
  (∀ b p, b ∈ l → p ∈ blockFilesOf rs (bm_ULID (Meta_BlockMeta b)) → paths p) →
  emits (uploadsWithin paths) (replicateBlocks rs l).
Proof.
  induction l as [|b l IH]; intros Hl; simpl.
  - apply emits_ret.
  - apply emits_bind; [|intros [e|]].
    + apply EBR_uploadsWithin. intros p. apply Hl. by left.
    + apply emits_ret.
    + apply IH. intros b' p Hb'. apply Hl. by right.
Qed.

(** X24.  A pass writes only into the candidate blocks.  Every upload of a
    pass goes to the meta file, to the index file or to a chunk that the
    source lists, of a block that is a candidate of the pass; and at every
    other path the destination holds after the pass what it held before. *)
Theorem execute_writes_only_candidates IsBlockDir rs w :
  let o := execute IsBlockDir rs w in
  (∀ p, ToUpload p ∈ evts o →
     ∃ b, b ∈ candidates IsBlockDir rs w
       ∧ p ∈ blockFilesOf rs (bm_ULID (Meta_BlockMeta b)))
  ∧ (∀ p, (∀ b, b ∈ candidates IsBlockDir rs w →
             p ∉ blockFilesOf rs (bm_ULID (Meta_BlockMeta b))) →
       toBkt (post o) !! p = toBkt w !! p).
Proof.
  cbv zeta.
  set (paths := λ p, ∃ b, b ∈ candidates IsBlockDir rs w
                       ∧ p ∈ blockFilesOf rs (bm_ULID (Meta_BlockMeta b))).
  assert (Hperm : sortedCandidates IsBlockDir rs w ≡ₚ candidates IsBlockDir rs w)
    by apply (sort_Slice_perm minTimeOf).
  assert (Hl : ∀ b p, b ∈ sortedCandidates IsBlockDir rs w →
            p ∈ blockFilesOf rs (bm_ULID (Meta_BlockMeta b)) → paths p).
  { intros b p Hb Hp. exists b. split; [by rewrite <- Hperm|done]. }
  pose proof (execute_cases IsBlockDir rs w) as H. cbv zeta in H.
  pose proof (discovery_isDiscovery IsBlockDir rs w) as Hd.
  assert (Hno : ∀ evs, Forall isDiscovery evs → Forall (uploadsWithin paths) evs).
  { intros evs Hevs. eapply Forall_impl; [exact Hevs|].
    intros e [_ He] p ->. discriminate He. }
  split.
  - intros p Hp.
    assert (Hall : Forall (uploadsWithin paths) (evts (execute IsBlockDir rs w))).
    { destruct (fst (res (discovery IsBlockDir rs w))) as [e|].
      - destruct H as (_ & _ & ->). constructor; [by intros q|]. by apply Hno.
      - destruct H as (evs & Hevs & _ & _ & ->). constructor; [by intros q|].
        apply Forall_app. split; [by apply Hno|].
        apply Forall_app. split; [by apply Hno|].
        by apply RB_uploadsWithin. }
    rewrite Forall_forall in Hall. by apply (Hall _ Hp p).
  - intros p Hp.
    assert (Hnp : ¬ paths p) by (intros (b & Hb & Hin); by apply (Hp b)).
    pose proof (discovery_preserves IsBlockDir (changesWithin paths) rs w) as Hdp.
    destruct (fst (res (discovery IsBlockDir rs w))) as [e|].
    + destruct H as (_ & -> & _). by apply Hdp.
    + destruct H as (evs & _ & _ & -> & _).
      rewrite (RB_changesWithin paths rs _ Hl _ p Hnp). by apply Hdp.
Qed.

(** The last upload of the pass over the concrete source is the commit of
    D; the index of a block that is not in the source is not touched. *)
Lemma execute_writes_only_candidates_witness :
  (∃ b, b ∈ candidates Scenario.IsBlockDir Scenario.rs Scenario.w0
     ∧ metaFileOf Scenario.idD ∈ blockFilesOf Scenario.rs (bm_ULID (Meta_BlockMeta b))).
Proof.
  destruct (execute_writes_only_candidates Scenario.IsBlockDir Scenario.rs Scenario.w0)
    as [H _].
  apply H. apply (bool_decide_unpack _). vm_compute. exact I.
Defined.


(** ** The order of the commits *)

Lemma substring_append s t : substring 0 (String.length s) (s +:+ t) = s.
Proof.
  induction s as [|c s IH]; simpl.
  - by destruct t.
  - by rewrite IH.
Qed.

(** The upload of the meta file of a block is the commit of that block. *)
Lemma blockCommit_meta id : blockCommit (ToUpload (metaFileOf id)) = Some (ULID_String id).
Proof.
  assert (Hs : substring 0 26 (metaFileOf id) = ULID_String id).
  { pose proof (substring_append (ULID_String id) ("/" +:+ MetaFilename)) as H.
    rewrite ULID_String_length in H. exact H. }
  unfold blockCommit. cbv zeta. rewrite Hs.
  by rewrite bool_decide_true.
Qed.

(** The upload of an object of a block is no commit. *)
Lemma blockCommit_object rs id p :
  p ∈ objectFilesOf rs id → blockCommit (ToUpload p) = None.
Proof.
  intros Hp. unfold blockCommit. case_bool_decide as H; [|done]. exfalso.
  assert (Hpre : ∃ rest, p = ULID_String id +:+ rest).
  { revert Hp. unfold objectFilesOf, chunkFilesOf.
    rewrite elem_of_app, list_elem_of_fmap.
    intros [(e & -> & _)|Hp%list_elem_of_singleton]; [|subst p].
    - unfold entryName, chunksDirOf.
      pose proof (path_Join_nonempty (ULID_String id) ChunksDirname) as Hne.
      destruct (path_Join (ULID_String id) ChunksDirname) as [|x s] eqn:Hj; [done|].
      rewrite <- Hj. unfold path_Join. rewrite !append_assoc. eauto.
    - unfold indexFileOf, path_Join. eauto. }
  destruct Hpre as [rest Hrest].
  pose proof (substring_append (ULID_String id) rest) as Hs.
  rewrite ULID_String_length, <- Hrest in Hs. rewrite Hs in H.
  by apply (objectFile_not_meta rs id p id).
Qed.

Lemma blockCommits_app a b : blockCommits (a ++ b) = blockCommits a ++ blockCommits b.
Proof. apply omap_app. Qed.

(** Events that upload objects of a block only hold no commit. *)
Lemma blockCommits_objects rs id evs :
  Forall (uploadsWithin (λ p, p ∈ objectFilesOf rs id)) evs → blockCommits evs = [].
Proof.
  induction 1 as [|e evs He _ IH]; [done|].
  unfold blockCommits in *. cbn [omap list_omap]. rewrite IH.
  destruct e as [| | | | | |p]; try done.
  by rewrite (blockCommit_object rs id p (He p eq_refl)).
Qed.

Lemma blockCommits_discovery evs : Forall isDiscovery evs → blockCommits evs = [].
Proof.
  induction 1 as [|e evs [_ He] _ IH]; [done|].
  unfold blockCommits in *. cbn [omap list_omap]. rewrite IH. by destruct e.
Qed.

(** The transfer of the objects of a block and its commit: no commit
    before the upload of the meta file, which is the last call; one when
    it goes through. *)
Lemma TC_commits rs id c w :
  let o := transferAndCommit rs id c w in
  (blockCommits (evts o) = [] ∧ res o ≠ None)
  ∨ blockCommits (evts o) = [ULID_String id].
Proof.
  unfold transferAndCommit. cbn.
  fold (chunksDirOf id) (indexFileOf id) (metaFileOf id).
  set (o1 := fromBkt_Iter _ _ _ _ w).
  assert (E1 : blockCommits (evts o1) = []).
  { apply (blockCommits_objects rs id).
    apply emits_Iter; [by intros p|]. intros n u Hn.
    apply replicateChunk_emits, EOR_uploadsWithin.
    unfold objectFilesOf, chunkFilesOf. apply elem_of_app. by left. }
  destruct (res o1) as [[e|] []] eqn:Hr1; cbn.
  { left. by rewrite app_nil_r. }
  set (o2 := ensureObjectReplicated rs (indexFileOf id) (post o1)).
  assert (E2 : blockCommits (evts o2) = []).
  { apply (blockCommits_objects rs id).
    apply EOR_uploadsWithin.
    unfold objectFilesOf. apply elem_of_app. right. by left. }
  destruct (res o2) as [e|] eqn:Hr2; cbn.
  { left. by rewrite !blockCommits_app, E1, E2. }
  right.
  next_fault e H; rewrite !blockCommits_app, E1, E2; unfold blockCommits;
    cbn [omap list_omap app];
    change (blockCommit (Log _ _ _ _)) with (@None string); cbv iota;
    by rewrite blockCommit_meta.
Qed.

(** What a block transfer commits: nothing, or its block; and the meta
    file of the source that the destination holds for a block afterwards
    was there before, or this transfer has committed it. *)
Lemma EBR_commits rs id w :
  let o := ensureBlockIsReplicated rs id w in
  (blockCommits (evts o) = [] ∨ blockCommits (evts o) = [ULID_String id])
  ∧ ∀ id', agrees rs (metaFileOf id') (post o) →
      agrees rs (metaFileOf id') w ∨ ULID_String id' ∈ blockCommits (evts o).
Proof.
  cbv zeta.
  destruct (EBR_cases rs id w)
    as [(e & fs & _ & _ & -> & [-> | ->])
       |[(fs & _ & _ & _ & -> & ->)|(c & fs & _ & _ & _ & -> & ->)]].
  - split; [by left|]. intros id' H. by left.
  - split; [by left|]. intros id' H. by left.
  - split; [by left|]. intros id' H. by left.
  - set (w' := mkWorld (toBkt w) (metrics w) fs).
    rewrite blockCommits_app. change (blockCommits (ToGet _ :: ?l)) with (blockCommits l).
    change (blockCommits [blockStartLog id; FromGet (metaFileOf id)]) with (@nil string).
    cbn [app].
    pose proof (TC_commits rs id c w') as Hc. cbv zeta in Hc.
    split; [destruct Hc as [[-> _]| ->]; auto|].
    intros id' (c' & Hd & Hs).
    destruct (TC_shape rs id c w') as (w1 & [_ Hm] & [[Hne Hb]|(Hr & _ & Hb)]).
    + left. exists c'. split; [|done].
      rewrite Hb, Hm in Hd. exact Hd.
    + destruct (decide (metaFileOf id' = metaFileOf id)) as [Heq|Hne].
      * right. destruct Hc as [[_ Hc]| ->]; [done|].
        apply metaFileOf_inj in Heq. rewrite Heq. by left.
      * left. exists c'. split; [|done].
        rewrite Hb, lookup_insert_ne, Hm in Hd by done. exact Hd.
Qed.

(** The loop: its block transfers are those of a prefix of the list, and
    its commits those of some of these blocks, in the order of the list. *)
Lemma RB_commits rs l w :
  let o := replicateBlocks rs l w in
  (∃ transferred committed,
     transferred `prefix_of` l
     ∧ blockTransfers (evts o) = map blockIDOf transferred
     ∧ (res o = None → transferred = l)
     ∧ committed `sublist_of` transferred
     ∧ blockCommits (evts o) = map blockIDOf committed)
  ∧ ∀ id', agrees rs (metaFileOf id') (post o) →
      agrees rs (metaFileOf id') w ∨ ULID_String id' ∈ blockCommits (evts o).
Proof.
  revert w. induction l as [|b l IH]; intros w; cbn.
  - split; [exists [], []; done|]. intros id' H. by left.
  - rewrite blockTransfers_app, EBR_blockTransfers, blockCommits_app.
    destruct (EBR_commits rs (bm_ULID (Meta_BlockMeta b)) w) as [Hc Ha].
    fold (blockIDOf b) in Hc.
    destruct (res (ensureBlockIsReplicated rs _ w)) as [e|]; cbn.
    + rewrite !app_nil_r. split.
      * destruct Hc as [-> | ->].
        -- exists [b], []. repeat split; try done.
           ++ by apply prefix_cons, prefix_nil.
           ++ apply sublist_cons, sublist_nil.
        -- exists [b], [b]. repeat split; try done.
           by apply prefix_cons, prefix_nil.
      * exact Ha.
    + destruct (IH (post (ensureBlockIsReplicated rs (bm_ULID (Meta_BlockMeta b)) w)))
        as [(tr & cm & Hp & Ht & Hr & Hs & Hm) Ha'].
      split.
      * destruct Hc as [-> | ->].
        -- exists (b :: tr), cm. split; [by apply prefix_cons|].
           split; [by rewrite Ht|]. split; [intros Hn; by rewrite (Hr Hn)|].
           split; [by apply sublist_cons|]. by rewrite Hm.
        -- exists (b :: tr), (b :: cm). split; [by apply prefix_cons|].
           split; [by rewrite Ht|]. split; [intros Hn; by rewrite (Hr Hn)|].
           split; [by apply sublist_skip|]. by rewrite Hm.
      * intros id' H.
        destruct (Ha' id' H) as [H'|H']; [|by right; apply elem_of_app; right].
        destruct (Ha id' H') as [H''|H'']; [by left|].
        right. apply elem_of_app. by left.
Qed.

Lemma StronglySorted_sublist {A} (R : relation A) (l k : list A) :
  l `sublist_of` k → StronglySorted R k → StronglySorted R l.
Proof.
  induction 1 as [|x l k Hs IH|x l k Hs IH]; intros Hk; [done|..].
  - apply StronglySorted_inv in Hk as [Hk Hx].
    constructor; [by apply IH|].
    rewrite Forall_forall in Hx |- *. intros y Hy. apply Hx.
    by apply (sublist_subseteq _ _ Hs).
  - apply StronglySorted_inv in Hk as [Hk _]. by apply IH.
Qed.

Section CommitOrder.
Variable IsBlockDir : string → option ULID.

(** The commits of a pass are those of its loop. *)
Lemma execute_blockCommits rs w :
  let o := execute IsBlockDir rs w in
  let od := discovery IsBlockDir rs w in
  blockCommits (evts o)
  = match fst (res od) with
    | Some _ => []
    | None => blockCommits
                (evts (replicateBlocks rs (sortedCandidates IsBlockDir rs w) (post od)))
    end.
Proof.
  cbv zeta. pose proof (execute_cases IsBlockDir rs w) as H. cbv zeta in H.
  pose proof (blockCommits_discovery _ (discovery_isDiscovery IsBlockDir rs w)) as Hd.
  destruct (fst (res (discovery IsBlockDir rs w))) as [e|].
  - destruct H as (_ & _ & ->).
    change (?a :: ?l) with ([a] ++ l). by rewrite blockCommits_app, Hd.
  - destruct H as (evs & He & _ & _ & ->).
    change (?a :: ?l) with ([a] ++ l).
    rewrite !blockCommits_app, Hd, (blockCommits_discovery _ He). done.
Qed.

(** C3.  When the candidates of a pass have pairwise distinct minTime,
    [execute] sorts them into strictly ascending minTime before the first
    transfer (the sorted list is a rearrangement of the candidates, and
    with distinct minTime the only one in that order).  Its block
    transfers are, in order, those of a prefix of the sorted list, all of
    it when the pass succeeds.  Its block commits, the uploads of
    meta.json to the destination, are in order those of some of the
    blocks transferred: the sequence of block transfers and the sequence
    of block commits are both strictly ascending in minTime.  When the
    pass succeeds, the destination holds the meta.json of the source for
    every candidate, and for each of them the pass has committed it or
    the destination held that meta.json before the pass. *)
Theorem C3_transfers_ascend_in_minTime rs w :
  let o := execute IsBlockDir rs w in
  let ascending := StronglySorted (λ a b, (minTimeOf a < minTimeOf b)%Z) in
  NoDup (map minTimeOf (candidates IsBlockDir rs w)) →
  sortedCandidates IsBlockDir rs w ≡ₚ candidates IsBlockDir rs w
  ∧ ascending (sortedCandidates IsBlockDir rs w)
  ∧ ∃ transferred committed,
      blockTransfers (evts o) = map blockIDOf transferred
      ∧ transferred `prefix_of` sortedCandidates IsBlockDir rs w
      ∧ ascending transferred
      ∧ (res o = None → transferred = sortedCandidates IsBlockDir rs w)
      ∧ blockCommits (evts o) = map blockIDOf committed
      ∧ committed `sublist_of` transferred
      ∧ ascending committed
      ∧ (res o = None →
           Forall (λ b,
               agrees rs (metaFileOf (bm_ULID (Meta_BlockMeta b))) (post o)
               ∧ (blockIDOf b ∈ blockCommits (evts o)
                  ∨ agrees rs (metaFileOf (bm_ULID (Meta_BlockMeta b))) w))
             (candidates IsBlockDir rs w)).
Proof.
  cbv zeta. intros Hnd.
  assert (Hperm : sortedCandidates IsBlockDir rs w ≡ₚ candidates IsBlockDir rs w)
    by apply (sort_Slice_perm minTimeOf).
  assert (Hs : StronglySorted (λ a b, (minTimeOf a < minTimeOf b)%Z)
                 (sortedCandidates IsBlockDir rs w)).
  { by apply (sort_Slice_strict minTimeOf). }
  split; [exact Hperm|]. split; [exact Hs|].
  rewrite execute_blockTransfers, execute_blockCommits.
  pose proof (execute_cases IsBlockDir rs w) as H. cbv zeta in H.
  destruct (fst (res (discovery IsBlockDir rs w))) as [e|].
  - exists [], []. destruct H as (-> & _). repeat split; try done.
    + apply prefix_nil.
    + constructor.
    + constructor.
  - destruct H as (evs & _ & -> & -> & _).
    set (w1 := post (discovery IsBlockDir rs w)) in *.
    assert (Hb : toBkt w1 = toBkt w)
      by apply (discovery_preserves IsBlockDir (sameOn toBkt) rs w).
    destruct (RB_commits rs (sortedCandidates IsBlockDir rs w) w1)
      as [(tr & cm & Hp & Ht & Hr & Hsub & Hm) Ha].
    assert (Htr : StronglySorted (λ a b, (minTimeOf a < minTimeOf b)%Z) tr).
    { destruct Hp as [rest Hp]. rewrite Hp in Hs.
      by apply StronglySorted_app_1_l in Hs. }
    exists tr, cm. split; [done|]. split; [done|]. split; [done|].
    split; [done|]. split; [done|]. split; [done|].
    split; [by eapply StronglySorted_sublist|].
    intros Hn. rewrite <- Hperm.
    pose proof (RB_success_agrees rs _ w1 Hn) as Hag.
    eapply Forall_impl; [exact Hag|]. intros b Hb'. simpl in Hb'.
    split; [done|].
    destruct (Ha _ Hb') as [(c & Hd & Hsrc)|Hin]; [|by left].
    right. exists c. by rewrite <- Hb.
Qed.
End CommitOrder.

(** Nothing fails: E (minTime 10) is transferred and committed before D
    (minTime 50). *)
Lemma C3_witness :
  let o := execute Scenario.IsBlockDir Scenario.rs Scenario.w0 in
  blockTransfers (evts o) = [blockIDOf Scenario.metaE; blockIDOf Scenario.metaD]
  ∧ blockCommits (evts o) = [blockIDOf Scenario.metaE; blockIDOf Scenario.metaD].
Proof.
  cbv zeta.
  destruct (C3_transfers_ascend_in_minTime Scenario.IsBlockDir Scenario.rs Scenario.w0)
    as (_ & _ & tr & cm & Ht & _ & _ & Hr & Hc & _).
  - apply (bool_decide_unpack _). vm_compute. exact I.
  - split.
    + rewrite Ht, Hr; [|vm_compute; reflexivity]. vm_compute. reflexivity.
    + vm_compute. reflexivity.
Defined.


(** * Properties of the prober *)

Lemma lockDiscipline_app held tr1 tr2 :
  lockDiscipline held (tr1 ++ tr2)
  = match lockDiscipline held tr1 with
    | Some held' => lockDiscipline held' tr2
    | None => None
    end.
Proof.
  revert held. induction tr1 as [|e tr1 IH]; intros held; simpl; [done|].
  destruct e as [s l k|m|m|h n v].
  - apply IH.
  - destruct held as [|outer [|]]; [apply IH| |done].
    destruct (isStatusMtx outer && negb (isStatusMtx m)); [apply IH|done].
  - destruct held as [|m' rest]; [done|]. case_bool_decide; [apply IH|done].
  - apply IH.
Qed.

(** Closing a goal about a run whose steps are all determined. *)
Ltac srv_done := repeat split; first [reflexivity | discriminate].

(** One call on a prober that holds no mutex and has a logger. *)
Lemma call_spec c p :
  unlocked p → logger p ≠ None →
  let r := call c p in
  outcome r = Returns tt
  ∧ unlocked (final r)
  ∧ logger (final r) ≠ None
  ∧ readiness (final r) = readinessAfter (readiness p) c
  ∧ healthiness (final r) = healthinessAfter (healthiness p) c
  ∧ lockDiscipline [] (trace r) = Some [].
Proof.
  destruct p as [l lm cm c0 rm r0 hm h0]. unfold unlocked. simpl.
  intros (-> & -> & -> & ->) Hl. destruct l as [l|]; [clear Hl|done].
  destruct c as [l'|c'| |err| | |err| |path w r]; cbv zeta.
  - destruct l; srv_done.
  - destruct l; srv_done.
  - destruct l; srv_done.
  - destruct l, err; srv_done.
  - destruct l; srv_done.
  - destruct l; srv_done.
  - destruct l, err; srv_done.
  - destruct l; srv_done.
  - unfold call, endpointHandler.
    case_bool_decide; [|case_bool_decide].
    + destruct l, h0, w as [hd st bd [we|]]; srv_done.
    + destruct l, r0, w as [hd st bd [we|]]; srv_done.
    + srv_done.
Qed.

Lemma calls_spec cs p :
  unlocked p → logger p ≠ None →
  let r := calls cs p in
  outcome r = Returns tt
  ∧ unlocked (final r)
  ∧ logger (final r) ≠ None
  ∧ readiness (final r) = foldl readinessAfter (readiness p) cs
  ∧ healthiness (final r) = foldl healthinessAfter (healthiness p) cs
  ∧ lockDiscipline [] (trace r) = Some [].
Proof.
  revert p. induction cs as [|c cs IH]; intros p Hu Hl; cbv zeta.
  { repeat split; first [apply Hu|done]. }
  destruct (call_spec c p Hu Hl) as (Ho & Hu1 & Hl1 & Hr & Hh & Hd).
  destruct (IH (final (call c p)) Hu1 Hl1) as (Ho2 & Hu2 & Hl2 & Hr2 & Hh2 & Hd2).
  simpl calls. unfold bindS. rewrite Ho. simpl.
  rewrite lockDiscipline_app, Hd, <- Hr, <- Hh. done.
Qed.

(** X15.  Whatever exported methods of a prober are called and whatever
    requests its two endpoints serve, in whatever order, every call returns
    (none panics, none waits for a mutex), no mutex is left held, and the
    readiness and the healthiness of the prober are the ones set last:
    [SetReady] and [SetNotReady] decide the one, [SetHealthy] and
    [SetNotHealthy] the other, and nothing else changes either. *)
Theorem prober_status_follows_calls cs p :
  unlocked p → logger p ≠ None →
  let r := calls cs p in
  outcome r = Returns tt
  ∧ unlocked (final r)
  ∧ readiness (final r) = foldl readinessAfter (readiness p) cs
  ∧ healthiness (final r) = foldl healthinessAfter (healthiness p) cs.
Proof.
  intros Hu Hl. destruct (calls_spec cs p Hu Hl) as (H1 & H2 & _ & H3 & H4 & _).
  done.
Qed.

(** The receive component becomes healthy, then ready, then not ready
    again; probes are served in between. *)
Lemma prober_status_follows_calls_witness :
  let r := calls [CallSetHealthy; CallProbe readyEndpointPath Serving.blank
                                    (Serving.request "");
                  CallSetReady; CallSetNotReady (Some "draining"); CallIsHealthy]
             Serving.fresh in
  outcome r = Returns tt ∧ unlocked (final r)
  ∧ readiness (final r) = Some "draining" ∧ healthiness (final r) = None.
Proof.
  apply (prober_status_follows_calls
           [CallSetHealthy; CallProbe readyEndpointPath Serving.blank (Serving.request "");
            CallSetReady; CallSetNotReady (Some "draining"); CallIsHealthy]
           Serving.fresh).
  - repeat split.
  - discriminate.
Defined.

(** X16.  The mutexes of a prober are taken in one order.  Throughout any
    sequence of calls of its methods and requests on its endpoints, a mutex
    is taken only when no mutex is held, or when the one mutex held is
    [readyMtx] or [healthyMtx] and the mutex taken is [loggerMtx] or
    [componentMtx]; the mutex taken last is released first; and when a call
    returns no mutex is held. *)
Theorem prober_lock_discipline cs p :
  unlocked p → logger p ≠ None →
  lockDiscipline [] (trace (calls cs p)) = Some [].
Proof.
  intros Hu Hl. by destruct (calls_spec cs p Hu Hl) as (_ & _ & _ & _ & _ & H).
Qed.

Lemma prober_lock_discipline_witness :
  lockDiscipline []
    (trace (calls [CallSetNotReady (Some "draining");
                   CallProbe healthyEndpointPath Serving.gone (Serving.request "")]
              Serving.fresh))
  = Some [].
Proof.
  apply (prober_lock_discipline
           [CallSetNotReady (Some "draining");
            CallProbe healthyEndpointPath Serving.gone (Serving.request "")]
           Serving.fresh).
  - repeat split.
  - discriminate.
Defined.

(** X17.  A prober made by [NewProber] with a logger is neither healthy nor
    ready: both statuses are the error "thanos <component> is
    initializing"; it has the component and the logger given, holds no
    mutex, and the logger has received two debug records, for "unhealthy"
    and then for "not-ready", with that reason.  With a nil logger
    [NewProber] panics, at its first record. *)
Theorem NewProber_is_initializing c l :
  let r := NewProber c (Some l) in
  let initialErr := Some (initialErrorText c) in
  outcome r = Returns tt
  ∧ final r = mkProber (Some l) false false c false initialErr false initialErr
  ∧ records (trace r)
    = match l with
      | NopLogger => []
      | sinkLogger sink =>
          [Logged sink (Some levelDebug)
             [("msg", Str "changing probe status"); ("status", Str "unhealthy");
              ("reason", ErrValue initialErr)];
           Logged sink (Some levelDebug)
             [("msg", Str "changing probe status"); ("status", Str "not-ready");
              ("reason", ErrValue initialErr)]]
      end
  ∧ outcome (NewProber c None)
    = Panics "invalid memory address or nil pointer dereference"
  ∧ unlocked (final (NewProber c None))
  ∧ healthiness (final (NewProber c None)) = None.
Proof. destruct l; srv_done. Qed.

(** ** The responses of the probe handlers *)

Lemma http_Error_fresh w text code :
  status w = None → writeErr w = None →
  http_Error w text code
  = mkResponseWriter
      (<["X-Content-Type-Options" := "nosniff"]>
         (<["Content-Type" := "text/plain; charset=utf-8"]> (Header w)))
      (Some code) (body w +:+ text +:+ newline) None.
Proof. destruct w as [hd st bd we]. simpl. intros -> ->. reflexivity. Qed.

Lemma Write_fresh w data :
  status w = None → writeErr w = None →
  Write w data
  = (mkResponseWriter (Header w) (Some http_StatusOK) (body w +:+ data) None, None).
Proof. destruct w as [hd st bd we]. simpl. intros -> ->. reflexivity. Qed.

Lemma probeHandlerFunc_run p w req :
  unlocked p → logger p ≠ None →
  let ready := probeHandlerFunc IsReady "ready" w req p in
  let healthy := probeHandlerFunc IsHealthy "healthy" w req p in
  final ready = p ∧ final healthy = p
  ∧ outcome ready
    = Returns (match readiness p with
               | None => fst (io_WriteString w (okProbeText (component p) "ready"))
               | Some e =>
                   http_Error w (errorProbeText (component p) "ready" e)
                     probeErrorHTTPStatus
               end)
  ∧ outcome healthy
    = Returns (match healthiness p with
               | None => fst (io_WriteString w (okProbeText (component p) "healthy"))
               | Some e =>
                   http_Error w (errorProbeText (component p) "healthy" e)
                     probeErrorHTTPStatus
               end).
Proof.
  destruct p as [l lm cm c0 rm r0 hm h0]. unfold unlocked. simpl.
  intros (-> & -> & -> & ->) Hl. destruct l as [l|]; [clear Hl|done].
  destruct l, r0, h0, w as [hd st bd [we|]]; srv_done.
Qed.

(** X18.  What the two probe endpoints answer on a response writer on which
    nothing has been written yet.  When the status asked for (readiness on
    the ready endpoint, healthiness on the healthy one) is nil, the handler
    writes "thanos <component> is <ready|healthy>" with status 200; when it
    is an error, it answers with status 500, the text "thanos <component> is
    not <ready|healthy>. Reason: <error>" on a line, as plain text that is
    not to be sniffed.  The endpoint answers by its own status only, and
    serving a probe leaves the prober as it was. *)
Theorem probe_endpoints_answer p w req :
  unlocked p → logger p ≠ None → status w = None → writeErr w = None →
  let ready := probeHandlerFunc IsReady "ready" w req p in
  let healthy := probeHandlerFunc IsHealthy "healthy" w req p in
  let ok probeType :=
    mkResponseWriter (Header w) (Some 200%Z)
      (body w +:+ "thanos " +:+ component p +:+ " is " +:+ probeType) None in
  let failed probeType e :=
    mkResponseWriter
      (<["X-Content-Type-Options" := "nosniff"]>
         (<["Content-Type" := "text/plain; charset=utf-8"]> (Header w)))
      (Some 500%Z)
      (body w +:+ ("thanos " +:+ component p +:+ " is not " +:+ probeType
                   +:+ ". Reason: " +:+ e) +:+ newline) None in
  final ready = p ∧ final healthy = p
  ∧ outcome ready
    = Returns (match readiness p with
               | None => ok "ready"
               | Some e => failed "ready" e
               end)
  ∧ outcome healthy
    = Returns (match healthiness p with
               | None => ok "healthy"
               | Some e => failed "healthy" e
               end).
Proof.
  intros Hu Hl Hs Hw. cbv zeta.
  destruct (probeHandlerFunc_run p w req Hu Hl) as (H1 & H2 & H3 & H4).
  unfold io_WriteString in H3, H4.
  rewrite (Write_fresh w _ Hs Hw) in H3. rewrite (Write_fresh w _ Hs Hw) in H4.
  rewrite H1, H2, H3, H4. split; [done|]. split; [done|].
  split; (destruct (readiness p), (healthiness p); simpl;
            rewrite ?(http_Error_fresh w _ _ Hs Hw); reflexivity).
Qed.

(** The fresh prober of the receive component is asked whether it is
    ready. *)
Lemma probe_endpoints_answer_witness :
  outcome (probeHandlerFunc IsReady "ready" Serving.blank (Serving.request "")
             Serving.fresh)
  = Returns
      (mkResponseWriter
         (<["X-Content-Type-Options" := "nosniff"]>
            (<["Content-Type" := "text/plain; charset=utf-8"]> ∅))
         (Some 500%Z)
         ("thanos receive is not ready. Reason: thanos receive is initializing"
          +:+ newline) None).
Proof.
  destruct (probe_endpoints_answer Serving.fresh Serving.blank (Serving.request ""))
    as (_ & _ & H & _).
  - repeat split.
  - discriminate.
  - reflexivity.
  - reflexivity.
  - exact H.
Defined.

(** X19.  The record that a probe handler writes.  When the status asked
    for is nil and the write of the response succeeds, the handler writes
    to the logger of the prober, at error level, the record "failed to
    write probe response" with the probe type and a nil error; when the
    write fails, and when the status is an error, it writes no record. *)
Theorem probe_handler_record p w req sink :
  unlocked p → logger p = Some (sinkLogger sink) →
  let record probeType :=
    [Logged sink (Some levelError)
       [("msg", Str "failed to write probe response");
        ("probe type", Str probeType); ("err", ErrValue None)]] in
  records (trace (probeHandlerFunc IsReady "ready" w req p))
  = match readiness p, writeErr w with
    | None, None => record "ready"
    | _, _ => []
    end
  ∧ records (trace (probeHandlerFunc IsHealthy "healthy" w req p))
    = match healthiness p, writeErr w with
      | None, None => record "healthy"
      | _, _ => []
      end.
Proof.
  destruct p as [l lm cm c0 rm r0 hm h0]. unfold unlocked. simpl.
  intros (-> & -> & -> & ->) ->; cbv zeta.
  destruct r0, h0, w as [hd st bd [we|]]; split; reflexivity.
Qed.

(** The prober of the receive component, set healthy, answers a probe of
    its health: the response is written, and the record says that it was
    not. *)
Lemma probe_handler_record_witness :
  records
    (trace (probeHandlerFunc IsHealthy "healthy" Serving.blank (Serving.request "")
              (final (SetHealthy Serving.fresh))))
  = [Logged "stderr" (Some levelError)
       [("msg", Str "failed to write probe response");
        ("probe type", Str "healthy"); ("err", ErrValue None)]].
Proof.
  destruct (probe_handler_record (final (SetHealthy Serving.fresh)) Serving.blank
              (Serving.request "") "stderr") as [_ H].
  - repeat split.
  - reflexivity.
  - exact H.
Defined.

(** ** Registering the endpoints *)

(** X20.  [RegisterInMux] binds the path "/-/healthy" to the handler that
    answers by the healthiness of the prober and "/-/ready" to the one that
    answers by its readiness, after the patterns that the mux has, and
    leaves the prober as it is; on a mux that has one of the two patterns,
    as after a first [RegisterInMux], it panics.  [RegisterInRouter] does
    the same with two GET routes. *)
Theorem RegisterInMux_endpoints mux router p :
  (healthyEndpointPath ∉ map fst mux → readyEndpointPath ∉ map fst mux →
   let r := RegisterInMux mux p in
   outcome r
   = Returns (mux ++ [(healthyEndpointPath, probeHandlerFunc IsHealthy "healthy");
                      (readyEndpointPath, probeHandlerFunc IsReady "ready")])
   ∧ final r = p ∧ trace r = [])
  ∧ (healthyEndpointPath ∈ map fst mux ∨ readyEndpointPath ∈ map fst mux →
     ∃ v, outcome (RegisterInMux mux p) = Panics v)
  ∧ (("GET", healthyEndpointPath) ∉ map fst router →
     ("GET", readyEndpointPath) ∉ map fst router →
     let r := RegisterInRouter router p in
     outcome r
     = Returns (router
                ++ [("GET", healthyEndpointPath, probeHandlerFunc IsHealthy "healthy");
                    ("GET", readyEndpointPath, probeHandlerFunc IsReady "ready")])
     ∧ final r = p ∧ trace r = [])
  ∧ (("GET", healthyEndpointPath) ∈ map fst router
     ∨ ("GET", readyEndpointPath) ∈ map fst router →
     ∃ v, outcome (RegisterInRouter router p) = Panics v).
Proof.
  split; [|split; [|split]].
  - intros H1 H2. unfold RegisterInMux, ServeMux_HandleFunc, bindS. cbv zeta.
    rewrite (bool_decide_false _ H1). simpl.
    rewrite bool_decide_false.
    + simpl. by rewrite <- app_assoc.
    + rewrite map_app, elem_of_app. intros [H|H]; [done|].
      apply list_elem_of_singleton in H. discriminate H.
  - intros H. unfold RegisterInMux, ServeMux_HandleFunc, bindS. cbv zeta.
    destruct (decide (healthyEndpointPath ∈ map fst mux)) as [H1|H1].
    + rewrite (bool_decide_true _ H1). simpl. eauto.
    + rewrite (bool_decide_false _ H1). simpl. destruct H as [H|H]; [done|].
      rewrite bool_decide_true; [simpl; eauto|].
      rewrite map_app, elem_of_app. by left.
  - intros H1 H2. unfold RegisterInRouter, Router_Get, Router_Handle, bindS. cbv zeta.
    rewrite (bool_decide_false _ H1). simpl.
    rewrite bool_decide_false.
    + simpl. by rewrite <- app_assoc.
    + rewrite map_app, elem_of_app. intros [H|H]; [done|].
      apply list_elem_of_singleton in H. discriminate H.
  - intros H. unfold RegisterInRouter, Router_Get, Router_Handle, bindS. cbv zeta.
    destruct (decide (("GET", healthyEndpointPath) ∈ map fst router)) as [H1|H1].
    + rewrite (bool_decide_true _ H1). simpl. eauto.
    + rewrite (bool_decide_false _ H1). simpl. destruct H as [H|H]; [done|].
      rewrite bool_decide_true; [simpl; eauto|].
      rewrite map_app, elem_of_app. by left.
Qed.

(** The prober of the receive component is registered twice in a new
    mux. *)
Lemma RegisterInMux_endpoints_witness :
  ∃ v, outcome (RegisterInMux
                  [(healthyEndpointPath, probeHandlerFunc IsHealthy "healthy");
                   (readyEndpointPath, probeHandlerFunc IsReady "ready")]
                  Serving.fresh) = Panics v.
Proof.
  destruct (RegisterInMux_endpoints
              [(healthyEndpointPath, probeHandlerFunc IsHealthy "healthy");
               (readyEndpointPath, probeHandlerFunc IsReady "ready")] [] Serving.fresh)
    as (_ & H & _).
  apply H. left. simpl. by left.
Defined.

(** ** The records of the changes of status *)

(** X25.  What the prober writes to its logger when its status is set.
    [SetReady] and [SetHealthy] write one debug record, "changing probe
    status", with the status "ready" or "healthy"; [SetNotReady] and
    [SetNotHealthy] with an error write one with the status "not-ready" or
    "unhealthy" and the error as reason.  [SetNotReady] and [SetNotHealthy]
    with a nil error write nothing, and leave the prober as [SetReady] and
    [SetHealthy] do.  The records go to the logger set last: after
    [SetLogger] to the logger given, nowhere when that is the no-op
    logger. *)
Theorem status_changes_are_recorded p sink err :
  unlocked p → logger p = Some (sinkLogger sink) →
  let debug to status reason :=
    Logged to (Some levelDebug)
      ([("msg", Str "changing probe status"); ("status", Str status)] ++ reason) in
  records (trace (SetReady p)) = [debug sink "ready" []]
  ∧ records (trace (SetHealthy p)) = [debug sink "healthy" []]
  ∧ records (trace (SetNotReady (Some err) p))
    = [debug sink "not-ready" [("reason", ErrValue (Some err))]]
  ∧ records (trace (SetNotHealthy (Some err) p))
    = [debug sink "unhealthy" [("reason", ErrValue (Some err))]]
  ∧ records (trace (SetNotReady None p)) = []
  ∧ final (SetNotReady None p) = final (SetReady p)
  ∧ records (trace (SetNotHealthy None p)) = []
  ∧ final (SetNotHealthy None p) = final (SetHealthy p)
  ∧ (∀ sink',
       records (trace (SetReady (final (SetLogger (Some (sinkLogger sink')) p))))
       = [debug sink' "ready" []])
  ∧ records (trace (SetReady (final (SetLogger (Some NopLogger) p)))) = [].
Proof.
  destruct p as [l lm cm c0 rm r0 hm h0]. unfold unlocked. simpl.
  intros (-> & -> & -> & ->) ->. srv_done.
Qed.

(** The prober of the receive component is set not ready for a reason. *)
Lemma status_changes_are_recorded_witness :
  records (trace (SetNotReady (Some "draining") Serving.fresh))
  = [Logged "stderr" (Some levelDebug)
       [("msg", Str "changing probe status"); ("status", Str "not-ready");
        ("reason", ErrValue (Some "draining"))]].
Proof.
  destruct (status_changes_are_recorded Serving.fresh "stderr" "draining")
    as (_ & _ & H & _).
  - repeat split.
  - reflexivity.
  - exact H.
Defined.

(** ** The two versions of the probe handlers *)

(** X26.  The earlier and the later version of the probe handlers agree
    but for the answer to a failed probe.  On the same prober, response
    writer and request, the two leave the same prober; when the status
    asked for is nil they give the same response and the same events; when
    it is an error both answer through http.Error with status 500, the
    earlier with the text of the error alone, the later with "thanos
    <component> is not <ready|healthy>. Reason: " before it, for which it
    reads the component under componentMtx after the events of the
    earlier.  The constructors of the two versions make the same prober
    and register the same two patterns. *)
Theorem probe_handler_versions p w req :
  unlocked p → logger p ≠ None →
  let agree (probeFunc : Srv (option errorString)) probeType
        (asked : option errorString) :=
    let earlier := Earlier.probeHandlerFunc probeFunc probeType w req p in
    let later := probeHandlerFunc probeFunc probeType w req p in
    final earlier = final later
    ∧ match asked with
      | None => outcome earlier = outcome later ∧ trace earlier = trace later
      | Some e =>
          outcome earlier = Returns (http_Error w e probeErrorHTTPStatus)
          ∧ outcome later
            = Returns (http_Error w (errorProbeText (component p) probeType e)
                         probeErrorHTTPStatus)
          ∧ trace later
            = trace earlier ++ [Locked ComponentMtx; Unlocked ComponentMtx]
      end in
  agree IsReady "ready" (readiness p)
  ∧ agree IsHealthy "healthy" (healthiness p)
  ∧ ∀ c mux l,
      final (Earlier.NewProbeInMux c mux l) = final (NewProbeInMux c mux l)
      ∧ match outcome (Earlier.NewProbeInMux c mux l), outcome (NewProbeInMux c mux l) with
        | Returns m1, Returns m2 => map fst m1 = map fst m2
        | Panics v1, Panics v2 => v1 = v2
        | Blocks m1, Blocks m2 => m1 = m2
        | _, _ => False
        end.
Proof.
  destruct p as [l lm cm c0 rm r0 hm h0]. unfold unlocked. simpl.
  intros (-> & -> & -> & ->) Hl. destruct l as [l|]; [clear Hl|done].
  cbv zeta. split; [|split].
  - destruct l, r0, w as [hd st bd [we|]]; srv_done.
  - destruct l, h0, w as [hd st bd [we|]]; srv_done.
  - intros c mux lg.
    unfold Earlier.NewProbeInMux, NewProbeInMux, RegisterInMux, ServeMux_HandleFunc,
      bindS.
    cbv zeta. generalize (NewProber c lg). intros [[[]|v|m] f t]; cbn [outcome final trace];
      [|done..].
    case_bool_decide; cbn [outcome final trace panic retS]; [done|].
    rewrite !map_app. cbn [map fst].
    case_bool_decide; cbn [outcome final trace panic retS]; [done|].
    by rewrite !map_app.
Qed.

(** The fresh prober of the receive component, asked by the earlier
    handler whether it is ready. *)
Lemma probe_handler_versions_witness :
  outcome (Earlier.probeHandlerFunc IsReady "ready" Serving.blank (Serving.request "")
             Serving.fresh)
  = Returns (http_Error Serving.blank "thanos receive is initializing"
               probeErrorHTTPStatus).
Proof.
  destruct (probe_handler_versions Serving.fresh Serving.blank (Serving.request ""))
    as ((_ & H & _) & _).
  - repeat split.
  - discriminate.
  - exact H.
Defined.


(** * Properties of the receive handler *)

Section ReceiveProperties.
Context {WriteRequest : Type}.
Variable snappy_Decode : bytes → bytes * option errorString.
Variable proto_Unmarshal : bytes → WriteRequest * option errorString.
Variable fmt_Sprintf_format : string → string.

Local Abbreviation receive' := (receive snappy_Decode proto_Unmarshal).
Local Abbreviation testReady' := (testReady (WriteRequest:=WriteRequest) fmt_Sprintf_format).
Local Abbreviation NewHandler' :=
  (NewHandler snappy_Decode proto_Unmarshal fmt_Sprintf_format).

(** The text with which [testReady] turns a request away. *)
Local Abbreviation unavailable :=
  (λ e : errorString, fmt_Sprintf_format ("Service Unavailable. Reason: " +:+ e)).

Lemma testReady_run (h : Handler) f w req p :
  unlocked p → h_logger h ≠ None →
  let r := testReady' h f w req p in
  match readiness p with
  | None =>
      outcome r = outcome (f w req p) ∧ final r = final (f w req p)
      ∧ trace r = [Locked ReadyMtx; Unlocked ReadyMtx] ++ trace (f w req p)
  | Some e =>
      outcome r
      = Returns (fst (Write (WriteHeader w http_StatusServiceUnavailable)
                        (unavailable e)))
      ∧ final r = p
      ∧ lockDiscipline [] (trace r) = Some []
  end.
Proof.
  destruct p as [l lm cm c0 rm r0 hm h0]. unfold unlocked. simpl.
  intros (-> & -> & -> & ->) Hl. destruct h as [[hl|] rc]; [clear Hl|done].
  cbv zeta. destruct r0 as [e|].
  - unfold testReady, isReady, fmt_Fprintf, IsReady, bindS, defer, Lock, Unlock.
    simpl.
    destruct (snd (Write (WriteHeader w http_StatusServiceUnavailable)
                     (fmt_Sprintf_format ("Service Unavailable. Reason: " +:+ e))));
      simpl; [destruct hl; simpl|]; done.
  - unfold testReady, isReady, IsReady, bindS, defer, Lock, Unlock. simpl.
    set (p := mkProber _ _ _ _ _ _ _ _).
    destruct (f w req p) as [[a|v|m] fp tr]; simpl; done.
Qed.

(** X21.  [testReady] lets a request through to the handler it wraps
    exactly when the prober is ready.  When the readiness is nil, the
    request is handled by the wrapped handler and by nothing else: same
    result, same prober after, its events after the one read of the
    readiness.  When the readiness is an error, the wrapped handler is
    not run, whatever it is: on a response writer on which nothing has
    been written the response is status 503 with the text "Service
    Unavailable. Reason: <error>" as [fmt] formats it, and the prober is
    as before. *)
Theorem testReady_gates (h : Handler) f w req p :
  unlocked p → h_logger h ≠ None →
  let r := testReady' h f w req p in
  (readiness p = None →
     outcome r = outcome (f w req p) ∧ final r = final (f w req p)
     ∧ trace r = [Locked ReadyMtx; Unlocked ReadyMtx] ++ trace (f w req p))
  ∧ (∀ e, readiness p = Some e →
       final r = p
       ∧ (∀ g, outcome (testReady' h g w req p) = outcome r)
       ∧ (status w = None → writeErr w = None →
          outcome r
          = Returns (mkResponseWriter (Header w) (Some 503%Z)
                       (body w +:+ unavailable e) None))).
Proof.
  intros Hu Hl. cbv zeta.
  pose proof (testReady_run h f w req p Hu Hl) as H. cbv zeta in H.
  split.
  - intros Hr. by rewrite Hr in H.
  - intros e Hr. rewrite Hr in H. destruct H as (Ho & Hf & _).
    split; [done|]. split.
    + intros g. pose proof (testReady_run h g w req p Hu Hl) as Hg. cbv zeta in Hg.
      rewrite Hr in Hg. destruct Hg as (Hg & _). by rewrite Hg, Ho.
    + intros Hs Hw. rewrite Ho. destruct w as [hd st bd we]. simpl in Hs, Hw.
      subst st we. reflexivity.
Qed.

(** X22.  What [receive] answers, on a response writer on which nothing
    has been written.  A body that cannot be read is answered with status
    500; a body that is not snappy, bytes that are not a write request,
    and a request that the writer refuses are answered with status 400;
    each time the text is the error, on a line.  The writer is run only on
    a request that was read, decoded and unmarshalled, and then once, on
    the request unmarshalled: the run of [receive] is then the run of
    [Receive], followed by the answer; when [Receive] returns no error
    nothing is written on the response writer.  Without the writer,
    [receive] leaves the prober as it is. *)
Theorem receive_answers (h : Handler) w req p :
  h_logger h ≠ None → status w = None → writeErr w = None →
  let r := receive' h w req p in
  let answer code (err : errorString) :=
    mkResponseWriter
      (<["X-Content-Type-Options" := "nosniff"]>
         (<["Content-Type" := "text/plain; charset=utf-8"]> (Header w)))
      (Some code) (body w +:+ err +:+ newline) None in
  match BodyErr req with
  | Some err => outcome r = Returns (answer 500%Z err) ∧ final r = p ∧ trace r = []
  | None =>
      match snappy_Decode (Body req) with
      | (_, Some err) =>
          outcome r = Returns (answer 400%Z err) ∧ final r = p
          ∧ trace r
            = match h_logger h with
              | Some (sinkLogger sink) =>
                  [Logged sink (Some levelError)
                     [("msg", Str "snappy decode error");
                      ("err", ErrValue (Some err))]]
              | _ => []
              end
      | (reqBuf, None) =>
          match proto_Unmarshal reqBuf with
          | (_, Some err) =>
              outcome r = Returns (answer 400%Z err) ∧ final r = p ∧ trace r = []
          | (wreq, None) =>
              let rc := Receive (receiver h) wreq p in
              final r = final rc ∧ trace r = trace rc
              ∧ outcome r
                = match outcome rc with
                  | Returns None => Returns w
                  | Returns (Some err) => Returns (answer 400%Z err)
                  | Panics v => Panics v
                  | Blocks m => Blocks m
                  end
          end
      end
  end.
Proof.
  intros Hl Hs Hw. cbv zeta. destruct h as [[hl|] rc]; [clear Hl|done].
  unfold receive, ioutil_ReadAll_Body. simpl.
  destruct (BodyErr req) as [e|]; simpl.
  { by rewrite (http_Error_fresh w _ _ Hs Hw). }
  destruct (snappy_Decode (Body req)) as [reqBuf [e|]]; simpl.
  { unfold bindS. destruct hl; simpl; by rewrite (http_Error_fresh w _ _ Hs Hw). }
  destruct (proto_Unmarshal reqBuf) as [wreq [e|]]; simpl.
  { by rewrite (http_Error_fresh w _ _ Hs Hw). }
  unfold bindS.
  destruct (Receive rc wreq p) as [[[e|]|v|m] fp tr]; simpl;
    rewrite ?app_nil_r, ?(http_Error_fresh w _ _ Hs Hw); done.
Qed.

(** What the instrumentation adds to a handler: when the handler has
    returned, the two observations. *)
Lemma instrumentHandler_run name (f : http_HandlerFunc) w req p :
  let r := f w req p in
  let ri := instrumentHandler name f w req p in
  outcome ri = outcome r ∧ final ri = final r
  ∧ trace ri
    = trace r
      ++ match outcome r with
         | Returns w' => [Observed responseSize name (Some (written w w'));
                          Observed requestDuration name None]
         | _ => []
         end.
Proof.
  cbv zeta. unfold instrumentHandler, bindS, observe, retS.
  destruct (f w req p) as [[w'|v|m] fp tr]; simpl; rewrite ?app_nil_r; done.
Qed.

(** The first route of a router. *)
Lemma Router_Post_first path (f : http_HandlerFunc) p :
  Router_Post [] path f p = mkRun (Returns [("POST", path, f)]) p [].
Proof.
  unfold Router_Post, Router_Handle.
  rewrite bool_decide_false by (by intros ?%elem_of_nil). reflexivity.
Qed.

(** The registration of the two histograms. *)
Lemma registerAll_histograms registered p :
  registerAll registered [requestDuration; responseSize] p
  = if bool_decide (requestDuration ∈ registered ∨ responseSize ∈ registered)
    then mkRun (Panics "duplicate metrics collector registration attempted") p []
    else mkRun (Returns (registered ++ [requestDuration; responseSize])) p [].
Proof.
  cbn [registerAll].
  destruct (decide (requestDuration ∈ registered)) as [H1|H1].
  { rewrite (bool_decide_true _ H1), bool_decide_true by (by left). done. }
  rewrite (bool_decide_false _ H1).
  destruct (decide (responseSize ∈ registered)) as [H2|H2].
  { rewrite (bool_decide_true (responseSize ∈ registered ++ [requestDuration]))
      by (apply elem_of_app; by left).
    rewrite bool_decide_true by (by right). done. }
  rewrite (bool_decide_false (responseSize ∈ registered ++ [requestDuration])).
  2: { intros [?|Hin%list_elem_of_singleton]%elem_of_app; [done|discriminate Hin]. }
  rewrite bool_decide_false by (intros [?|?]; done).
  unfold retS. by rewrite <- app_assoc.
Qed.

(** What [NewHandler] does, on any prober. *)
Lemma NewHandler_run lg (o : Options) p :
  let made := NewHandler' lg o p in
  let h := mkHandler (match lg with None => Some NopLogger | Some _ => lg end)
             (Receiver o) in
  let handler := instrumentHandler "/api/v1/receive" (testReady' h (receive' h)) in
  final made = p ∧ trace made = []
  ∧ match Registry o with
    | None => outcome made = Panics "invalid memory address or nil pointer dereference"
    | Some registered =>
        if bool_decide (requestDuration ∈ registered ∨ responseSize ∈ registered)
        then outcome made = Panics "duplicate metrics collector registration attempted"
        else outcome made
             = Returns (h, [("POST", "/api/v1/receive", handler)],
                        registered ++ [requestDuration; responseSize])
    end.
Proof.
  cbv zeta. unfold NewHandler, Registerer_MustRegister, bindS.
  rewrite Router_Post_first. cbn [outcome final trace app].
  destruct (Registry o) as [registered|]; [|done].
  rewrite registerAll_histograms.
  case_bool_decide; done.
Qed.

(** X23.  From start to ready.  [NewHandler] registers the two histograms
    of the package with the registry of its options: it panics when that
    registry is nil and when one of the two is registered already, as it
    is after an earlier [NewHandler] on the same registry.  Otherwise it
    returns, on a prober that [NewProber] has just made, a handler with
    a logger, even when it was given none, and a router with one route,
    POST "/api/v1/receive", whose handler is instrumented.  Until [Ready]
    is called, that route answers every request with status 503 and the
    reason "thanos <component> is initializing", without running
    [receive]; calling [Healthy] does not change that.  Once [Ready] has
    been called, a request on the route is handled by [receive].  In both
    cases the size of the response and the duration are observed under
    the name of the route when the handler has returned. *)
Theorem receive_route_waits_for_ready c l lg (o : Options) w req :
  let p0 := final (NewProber c (Some l)) in
  let made := NewHandler' lg o p0 in
  let route := "/api/v1/receive" in
  let observed w' := [Observed responseSize route (Some (written w w'));
                      Observed requestDuration route None] in
  (Registry o = None →
     outcome made = Panics "invalid memory address or nil pointer dereference")
  ∧ (∀ registered,
       Registry o = Some registered →
       requestDuration ∈ registered ∨ responseSize ∈ registered →
       outcome made = Panics "duplicate metrics collector registration attempted")
  ∧ (∀ registered,
       Registry o = Some registered →
       requestDuration ∉ registered → responseSize ∉ registered →
       ∃ h handler,
         outcome made
         = Returns (h, [("POST", route, handler)],
                    registered ++ [requestDuration; responseSize])
         ∧ final made = p0 ∧ trace made = []
         ∧ h_logger h ≠ None ∧ receiver h = Receiver o
         ∧ (∀ lg' o',
              Registry o' = Some (registered ++ [requestDuration; responseSize]) →
              outcome (NewHandler' lg' o' p0)
              = Panics "duplicate metrics collector registration attempted")
         ∧ (∀ p, p = p0 ∨ p = final (Healthy h p0) →
              let w' := fst (Write (WriteHeader w http_StatusServiceUnavailable)
                               (unavailable (initialErrorText c))) in
              outcome (handler w req p) = Returns w'
              ∧ final (handler w req p) = p
              ∧ trace (handler w req p)
                = trace (testReady' h (receive' h) w req p) ++ observed w')
         ∧ (let p1 := final (Ready h p0) in
            outcome (handler w req p1) = outcome (receive' h w req p1)
            ∧ final (handler w req p1) = final (receive' h w req p1)
            ∧ trace (handler w req p1)
              = [Locked ReadyMtx; Unlocked ReadyMtx] ++ trace (receive' h w req p1)
                ++ match outcome (receive' h w req p1) with
                   | Returns w' => observed w'
                   | _ => []
                   end)).
Proof.
  cbv zeta.
  set (p0 := final (NewProber c (Some l))).
  assert (Hrun := λ lg o, NewHandler_run lg o p0). cbv zeta in Hrun.
  split; [|split].
  - intros Hr. destruct (Hrun lg o) as (_ & _ & H). by rewrite Hr in H.
  - intros registered Hr Hin. destruct (Hrun lg o) as (_ & _ & H).
    rewrite Hr in H. by rewrite bool_decide_true in H.
  - intros registered Hr H1 H2. destruct (Hrun lg o) as (Hf & Ht & H).
    rewrite Hr in H. rewrite bool_decide_false in H by (intros [?|?]; done).
    set (h := mkHandler (match lg with None => Some NopLogger | Some _ => lg end)
                (Receiver o)) in *.
    assert (Hl : h_logger h ≠ None) by (unfold h; simpl; by destruct lg).
    exists h, (instrumentHandler "/api/v1/receive" (testReady' h (receive' h))).
    split; [exact H|]. split; [exact Hf|]. split; [exact Ht|].
    split; [exact Hl|]. split; [reflexivity|]. split; [|split].
    + intros lg' o' Hr'. destruct (Hrun lg' o') as (_ & _ & H').
      rewrite Hr' in H'. rewrite bool_decide_true in H'; [done|].
      left. apply elem_of_app. right. by left.
    + intros p Hp.
      assert (Hu : unlocked p)
        by (destruct Hp as [-> | ->]; unfold p0; destruct l; repeat split).
      assert (Hrd : readiness p = Some (initialErrorText c))
        by (destruct Hp as [-> | ->]; unfold p0; destruct l; reflexivity).
      pose proof (testReady_run h (receive' h) w req p Hu Hl) as Hg. cbv zeta in Hg.
      rewrite Hrd in Hg. destruct Hg as (Hg1 & Hg2 & _).
      destruct (instrumentHandler_run "/api/v1/receive" (testReady' h (receive' h))
                  w req p) as (Hi1 & Hi2 & Hi3).
      rewrite Hi1, Hi2, Hi3, Hg1, Hg2. done.
    + assert (Hu : unlocked (final (Ready h p0)))
        by (unfold p0; destruct l; repeat split).
      pose proof (testReady_run h (receive' h) w req _ Hu Hl) as Hg. cbv zeta in Hg.
      replace (readiness (final (Ready h p0))) with (@None errorString) in Hg
        by (unfold p0; destruct l; reflexivity).
      destruct Hg as (Hg1 & Hg2 & Hg3).
      destruct (instrumentHandler_run "/api/v1/receive" (testReady' h (receive' h))
                  w req (final (Ready h p0))) as (Hi1 & Hi2 & Hi3).
      rewrite Hi1, Hi2, Hi3, Hg1, Hg2, Hg3. by rewrite <- app_assoc.
Qed.
End ReceiveProperties.

(** The receive handler of the concrete server turns a request away while
    the prober is initializing. *)
Lemma testReady_gates_witness :
  outcome (testReady (λ s, s) Serving.handler
             (receive Serving.decode Serving.unmarshal Serving.handler)
             Serving.blank (Serving.request "samples") Serving.fresh)
  = Returns (mkResponseWriter ∅ (Some 503%Z)
               "Service Unavailable. Reason: thanos receive is initializing" None).
Proof.
  destruct (testReady_gates (λ s, s) Serving.handler
              (receive Serving.decode Serving.unmarshal Serving.handler)
              Serving.blank (Serving.request "samples") Serving.fresh)
    as [_ H].
  - repeat split.
  - discriminate.
  - destruct (H "thanos receive is initializing") as (_ & _ & H3); [reflexivity|].
    apply H3; reflexivity.
Defined.

(** A request with an empty body, which the decoder refuses. *)
Lemma receive_answers_witness :
  outcome (receive Serving.decode Serving.unmarshal Serving.handler Serving.blank
             (Serving.request "") Serving.fresh)
  = Returns
      (mkResponseWriter
         (<["X-Content-Type-Options" := "nosniff"]>
            (<["Content-Type" := "text/plain; charset=utf-8"]> ∅))
         (Some 400%Z) ("snappy: corrupt input" +:+ newline) None).
Proof.
  pose proof (receive_answers Serving.decode Serving.unmarshal Serving.handler
                Serving.blank (Serving.request "") Serving.fresh) as H.
  destruct H as (H & _).
  - discriminate.
  - reflexivity.
  - reflexivity.
  - exact H.
Defined.

(** The route of the handler made for the concrete server on an empty
    registry, asked before the server is ready. *)
Lemma receive_route_waits_for_ready_witness :
  ∃ h handler,
    outcome (NewHandler Serving.decode Serving.unmarshal (λ s, s) None
               (mkOptions Serving.writer (Some [])) Serving.fresh)
    = Returns (h, [("POST", "/api/v1/receive", handler)],
               [requestDuration; responseSize])
    ∧ outcome (handler Serving.blank (Serving.request "samples") Serving.fresh)
      = Returns (mkResponseWriter ∅ (Some 503%Z)
                   "Service Unavailable. Reason: thanos receive is initializing" None).
Proof.
  destruct (receive_route_waits_for_ready Serving.decode Serving.unmarshal (λ s, s)
              "receive" Serving.sink None (mkOptions Serving.writer (Some []))
              Serving.blank (Serving.request "samples"))
    as (_ & _ & H).
  destruct (H []) as (h & handler & H1 & _ & _ & _ & _ & _ & H2 & _).
  - reflexivity.
  - by intros ?%elem_of_nil.
  - by intros ?%elem_of_nil.
  - exists h, handler. split; [exact H1|].
    destruct (H2 Serving.fresh) as [H3 _]; [by left|]. exact H3.
Defined.
